(** * Dividend-rotation engine: trading calendar, scorer, simulator, planner

    A shallow embedding of [scripts/dividend_rotation_v4_real_cli_plan.py].

    Conventions of the embedding:
    - a [datetime.date] is its proleptic Gregorian ordinal
      ([date.toordinal()]), an integer in [Z];
    - a Python [float] is an exact rational in [Q] (rounding is not
      modelled); equalities between amounts are therefore stated with
      [==];
    - a call that may raise returns a [result];
    - a pandas frame is the list of its rows, a column is a projection. *)

From Stdlib Require Import ZArith QArith Qround Qminmax Lqa Lia.
From Stdlib Require Import List Bool Ascii String Sorted Permutation.
From stdpp Require Import base decidable option list sorting numbers strings.

Import ListNotations.
Open Scope Z_scope.

(** ** Exceptions and results *)

Inductive exn : Type :=
| RequestException
| ValueError
| ZeroDivisionError
| OverflowError
| TypeError
| RuntimeError (msg : string)
| OtherException.

Inductive result (A : Type) : Type :=
| Ok (a : A)
| Raise (e : exn).
Arguments Ok {A} a.
Arguments Raise {A} e.

Definition date : Type := Z.

(** ** Trading calendar *)

Module Calendar.

(** [sorted(trading_calendar)]: dates are totally ordered, so every
    sorting algorithm returns the same list. *)
Definition sorted (l : list date) : list date := merge_sort Z.le l.

(** [dts.index(base)]: position of the first occurrence; [None] stands
    for the [ValueError] the source catches. *)
Fixpoint index (x : date) (l : list date) : option nat :=
  match l with
  | [] => None
  | y :: l' => if Z.eq_dec y x then Some O else S <$> index x l'
  end.

Definition shift_trading_day_with_calendar
    (ref_date : date) (offset : Z) (trading_calendar : list date) : option date :=
  match trading_calendar with
  | [] => None
  | _ =>
    let dts := sorted trading_calendar in
    let base_candidates := filter (λ d, d ≤ ref_date) dts in
    match list.last base_candidates with
    | None => None
    | Some base =>
      match index base dts with
      | None => None
      | Some idx =>
        let tgt := Z.of_nat idx + offset in
        if decide (tgt < 0 ∨ Z.of_nat (length dts) ≤ tgt) then None
        else dts !! Z.to_nat tgt
      end
    end
  end.

(** [date.weekday()]: ordinal 1 (0001-01-01) is a Monday, Monday is 0. *)
Definition weekday (d : date) : Z := (d + 6) `mod` 7.

(** [pd.bdate_range(start, end).date]: the Monday-to-Friday dates of the
    closed range. *)
Definition bdate_range (start_d end_d : date) : list date :=
  filter (λ d, weekday d < 5) (seqZ start_d (end_d - start_d + 1)).

Definition build_trading_calendar
    (start_d end_d : date) (holidays : list date) : list date :=
  filter (λ d, d ∉ holidays) (bdate_range start_d end_d).

End Calendar.

(** ** Market-data gateway: [_get] with retry and back-off *)

Module Gateway.

(** The [Retry-After] header of a 429 answer, as [float(...)] reads it. *)
Inductive retry_after : Type :=
| NoHeader                (* absent: the default, [backoff] *)
| Seconds (s : Q)         (* a finite number *)
| Infinite                (* an infinity, as for "inf" or "1e999" *)
| NotANumber              (* "nan" *)
| Unparsable.             (* [float] raises [ValueError] *)

(** What one pass through the [try] block of [_get] observes:
    a 429 status, a decoded body, or an exception raised by
    [requests.get], [raise_for_status] or the decoding. *)
Inductive attempt (A : Type) : Type :=
| RateLimited (h : retry_after)
| Parsed (a : A)
| Raised (e : exn).
Arguments RateLimited {A} h.
Arguments Parsed {A} a.
Arguments Raised {A} e.

(** [except (requests.RequestException, ValueError)] *)
Definition caught (e : exn) : bool :=
  match e with
  | RequestException | ValueError => true
  | _ => false
  end.

(** Rounding away from zero, the rounding of a timeout. *)
Definition round_up (x : Q) : Z :=
  if Qlt_le_dec x 0 then Qfloor x else Qceiling x.

(** [time.sleep(secs)] for a finite [secs]: the delay is converted to
    a whole number of nanoseconds in a signed 64-bit integer, which
    raises [OverflowError] when it does not fit; a negative delay then
    raises [ValueError]. *)
Definition time_sleep (secs : Q) : result unit :=
  let ns := round_up (secs * 1000000000) in
  if decide (- 2 ^ 63 ≤ ns < 2 ^ 63) then
    if decide (ns < 0) then Raise ValueError else Ok tt
  else Raise OverflowError.

Record run (A : Type) : Type := mkRun {
  outcome : result A;
  requests : nat;       (* calls of [requests.get] *)
  slept : list Q        (* arguments of the completed [time.sleep]s, oldest first *)
}.
Arguments mkRun {A} _ _ _.
Arguments outcome {A} _.
Arguments requests {A} _.
Arguments slept {A} _.

Definition Qpow15 (n : nat) : Q := ((15 # 10) ^ Z.of_nat n)%Q.

(** How one pass of [for attempt in range(6)] ends: with [return], with
    an exception that leaves the function, or at the end of the body
    (also by [continue]) after a sleep, with the back-off of the next
    pass. *)
Inductive pass (A : Type) : Type :=
| Return (a : A)
| Escape (e : exn)
| Continue (backoff : Q) (sleep_s : Q).
Arguments Return {A} a.
Arguments Escape {A} e.
Arguments Continue {A} backoff sleep_s.

(** The body of the loop. The sleep of a 429 answer is inside the
    [try], so its [ValueError] is handled like one of the request; the
    sleep of the handler is not. *)
Definition loop_body {A} (r : attempt A) (attempt : nat) (backoff : Q) : pass A :=
  let on_error (e : exn) :=
    if caught e then
      if decide (attempt = 5%nat) then Escape e
      else
        let sleep_s := (backoff * Qpow15 attempt)%Q in
        match time_sleep sleep_s with
        | Ok _ => Continue backoff sleep_s
        | Raise e' => Escape e'
        end
    else Escape e in
  match r with
  | RateLimited h =>
    match h with
    | Unparsable => on_error ValueError
    | NotANumber => on_error ValueError
    | Infinite => on_error OverflowError
    | NoHeader | Seconds _ =>
      let retry_after := match h with Seconds s => s | _ => backoff end in
      match time_sleep retry_after with
      | Ok _ => Continue (Qmin (backoff * 2) 20)%Q retry_after
      | Raise e => on_error e
      end
    end
  | Parsed a => Return a
  | Raised e => on_error e
  end.

(** [for attempt in range(6)], by recursion on the remaining values of
    [attempt], and the [raise RuntimeError] after the loop. *)
Fixpoint get_loop {A} (respond : nat → attempt A) (attempts : list nat)
    (backoff : Q) (n : nat) (log : list Q) : run A :=
  match attempts with
  | [] => mkRun (Raise (RuntimeError "Unreachable")) n log
  | attempt :: rest =>
    match loop_body (respond attempt) attempt backoff with
    | Return a => mkRun (Ok a) (S n) log
    | Escape e => mkRun (Raise e) (S n) log
    | Continue backoff' sleep_s =>
      get_loop respond rest backoff' (S n) (log ++ [sleep_s])
    end
  end.

Definition _require_token (token : string) : result unit :=
  if decide (token = EmptyString) then
    Raise (RuntimeError "EODHD_API_TOKEN 未设置。请在环境变量中设置你的 EODHD API 密钥。")
  else Ok tt.

Definition _get {A} (token : string) (respond : nat → attempt A) : run A :=
  match _require_token token with
  | Raise e => mkRun (Raise e) 0 []
  | Ok _ => get_loop respond (seq 0 6) 1 0 []
  end.

(** A payload of the expected shape, or anything else that decodes. *)
Inductive payload (A : Type) : Type :=
| JList (rows : list A)
| JOther.
Arguments JList {A} rows.
Arguments JOther {A}.

End Gateway.

(** ** Dates and strings of the Python runtime used by the script *)

Module Py.

(** [datetime._ord2ymd]: the civil date of a proleptic ordinal. *)
Definition _DAYS_IN_MONTH : list Z := [0; 31; 28; 31; 30; 31; 30; 31; 31; 30; 31; 30; 31].
Definition _DAYS_BEFORE_MONTH : list Z :=
  [0; 0; 31; 59; 90; 120; 151; 181; 212; 243; 273; 304; 334].

Definition _ord2ymd (ordinal : date) : Z * Z * Z :=
  let n := ordinal - 1 in
  let n400 := n `div` 146097 in
  let n := n `mod` 146097 in
  let year := n400 * 400 + 1 in
  let n100 := n `div` 36524 in
  let n := n `mod` 36524 in
  let n4 := n `div` 1461 in
  let n := n `mod` 1461 in
  let n1 := n `div` 365 in
  let n := n `mod` 365 in
  let year := year + n100 * 100 + n4 * 4 + n1 in
  if decide (n1 = 4 ∨ n100 = 4) then (year - 1, 12, 31)
  else
    let leapyear := bool_decide (n1 = 3 ∧ (n4 ≠ 24 ∨ n100 = 3)) in
    let month := Z.shiftr (n + 50) 5 in
    let preceding :=
      nth (Z.to_nat month) _DAYS_BEFORE_MONTH 0
      + (if bool_decide (month > 2) && leapyear then 1 else 0) in
    if decide (preceding > n) then
      let month := month - 1 in
      let preceding :=
        preceding - (nth (Z.to_nat month) _DAYS_IN_MONTH 0
                     + (if bool_decide (month = 2) && leapyear then 1 else 0)) in
      (year, month, n - preceding + 1)
    else (year, month, n - preceding + 1).

(** [date.day] *)
Definition day (d : date) : Z := snd (_ord2ymd d).

(** [str.upper]; the strings of the model are ASCII. *)
Definition upper_ascii (c : ascii) : ascii :=
  let n := nat_of_ascii c in
  if bool_decide (97 ≤ n ≤ 122)%nat then ascii_of_nat (n - 32) else c.

Fixpoint upper (s : string) : string :=
  match s with
  | EmptyString => EmptyString
  | String c s' => String (upper_ascii c) (upper s')
  end.

(** ["." in s] *)
Fixpoint has_dot (s : string) : bool :=
  match s with
  | EmptyString => false
  | String c s' => bool_decide (c = "."%char) || has_dot s'
  end.

(** [s.startswith(p)] *)
Definition startswith (s p : string) : bool := String.prefix p s.

End Py.

(** ** Candidate scoring *)

Module Scorer.
Import Gateway.

(** One row of the screener answer; every row has its [code]. In
    [exchange], [None] is a missing key, the NaN of the frame; a null
    value is the empty string, which is as false as it. *)
Record screener_row : Type := mkScreenerRow {
  code : string;
  exchange : option string;
  sname : string;
  s_avgvol : Q;
  s_dividend_yield : Q;
  s_close : Q
}.

(** A row of [base] after the left merge with [next_ex]. The merged
    [amount] column is not used by the scorer and is left out. *)
Record candidate : Type := mkCandidate {
  ticker : string;
  name : string;
  avgvol : Q;
  dividend_yield : Q;
  close : Q;
  ex_date : option date
}.

(** One event of the dividend-calendar answer, and the row
    [get_dividend_calendar] makes of it. *)
Record cal_event : Type := mkCalEvent {
  ce_code : string;
  ce_exDate : option date;
  ce_amount : Q
}.

Record cal_row : Type := mkCalRow {
  cr_ticker : string;
  cr_ex_date : option date;
  cr_amount : Q
}.

(** A scored row: the candidate with the columns [S], [Y_n], [L_n],
    [S_n] and [Score]. *)
Record scored : Type := mkScored {
  cand : candidate;
  S_raw : Q;
  Y_n : Q;
  L_n : Q;
  S_n : Q;
  Score : Q
}.

(** The network and the clock, as the scoring run sees them. *)
Record world : Type := mkWorld {
  token : string;
  today : date;
  screener_http : nat → attempt (payload screener_row);
  calendar_http : nat → attempt (payload cal_event)
}.

Definition normalize (series : list Q) : list Q :=
  match series with
  | [] => series
  | x :: xs =>
    let smin := fold_left Qmin xs x in
    let smax := fold_left Qmax xs x in
    if Qeq_bool (smax - smin) 0 then map (λ _, 1%Q) series
    else map (λ v, ((v - smin) / (smax - smin))%Q) series
  end.

Definition fallback_etfs : list screener_row := [
  mkScreenerRow "SCHD" (Some "US") "Schwab US Dividend Equity ETF" 3500000 0.038%Q 94;
  mkScreenerRow "VYM" (Some "US") "Vanguard High Dividend Yield ETF" 1800000 0.032%Q 120;
  mkScreenerRow "HDV" (Some "US") "iShares Core High Dividend ETF" 950000 0.035%Q 110;
  mkScreenerRow "DGRO" (Some "US") "iShares Core Dividend Growth ETF" 2100000 0.025%Q 63;
  mkScreenerRow "NOBL" (Some "US") "ProShares S&P 500 Dividend Aristocrats ETF" 850000 0.027%Q 96;
  mkScreenerRow "SDIV" (Some "US") "Global X SuperDividend U.S. ETF" 650000 0.089%Q 14.5%Q;
  mkScreenerRow "JEPI" (Some "US") "Janus Henderson Equity Premium Income ETF" 5200000 0.072%Q 58;
  mkScreenerRow "XYLD" (Some "US") "Global X S&P 500 Covered Call ETF" 3800000 0.083%Q 43
].

(** [str(r['exchange'] or exchange)]: a NaN is true and prints as
    [nan]. *)
Definition to_candidate (exchange_arg : string) (r : screener_row) : candidate :=
  let ex :=
    match exchange r with
    | None => "nan"
    | Some e => if decide (e = EmptyString) then exchange_arg else e
    end in
  mkCandidate (Py.upper (code r) +:+ "." +:+ ex) (sname r)
              (s_avgvol r) (s_dividend_yield r) (s_close r) None.

Definition screener_etfs (w : world) (exchange_arg : string)
    (min_div : Q) (min_avgvol : Z) : list candidate :=
  let data :=
    match outcome (_get (token w) (screener_http w)) with
    | Ok (JList rows) => rows
    | Ok JOther => []
    | Raise _ =>
      filter (λ d, Qle_bool min_div (s_dividend_yield d)
                   && Qle_bool (inject_Z min_avgvol) (s_avgvol d) = true)
             fallback_etfs
    end in
  map (to_candidate exchange_arg) data.

Definition etf_dividends : list (string * (Q * list Z)) := [
  ("SCHD", (0.65%Q, [15]));
  ("VYM", (0.72%Q, [8; 21]));
  ("HDV", (0.75%Q, [10; 20]));
  ("DGRO", (0.39%Q, [25]));
  ("NOBL", (0.58%Q, [10]));
  ("SDIV", (0.12%Q, [5; 20]));
  ("JEPI", (0.35%Q, [30]));
  ("XYLD", (0.32%Q, [15]))
].

(** The mock events of the [except] branch: the next 90 days, starting
    tomorrow. *)
Definition mock_events (today : date) : list cal_event :=
  flat_map (λ days_ahead,
    let check_date := today + days_ahead in
    flat_map (λ '(code, (amount, dividend_days)),
      if decide (Py.day check_date ∈ dividend_days)
      then [mkCalEvent code (Some check_date) amount] else [])
      etf_dividends)
    (seqZ 1 90).

Definition get_dividend_calendar (w : world) : list cal_row :=
  let events :=
    match outcome (_get (token w) (calendar_http w)) with
    | Ok (JList events) => events
    | Ok JOther => []
    | Raise _ => mock_events (today w)
    end in
  map (λ e,
    mkCalRow (if Py.has_dot (ce_code e) then ce_code e else ce_code e +:+ ".US")
             (ce_exDate e) (ce_amount e)) events.

(** [cal.sort_values("ex_date").groupby("ticker").first()] then the left
    merge on ["ticker"]: the earliest known ex-date of the ticker. *)
Definition next_ex_date (cal : list cal_row) (tkr : string) : option date :=
  head (merge_sort Z.le
    (omap (λ r, if decide (cr_ticker r = tkr) then cr_ex_date r else None) cal)).

Definition merge_next_ex (cal : list cal_row) (c : candidate) : candidate :=
  mkCandidate (ticker c) (name c) (avgvol c) (dividend_yield c) (close c)
              (next_ex_date cal (ticker c)).

Definition score_S (today : date) (ex_lookahead_days : Z) (exd : option date) : Q :=
  match exd with
  | None => 0%Q
  | Some exd =>
    let days := exd - today in
    if decide (days < 0 ∨ days > ex_lookahead_days) then 0%Q
    else Qmax 0 (1 - inject_Z days /
                   inject_Z (if decide (ex_lookahead_days = 0) then 1 else ex_lookahead_days))
  end.

Definition w_sum (wY wL wS : Q) : Q := Qmax 1e-9 (wY + wL + wS).

(** Row-wise assembly of the frame from its columns. *)
Fixpoint frame (base : list candidate) (Sr Yn Ln Sn : list Q)
    (wYn wLn wSn : Q) : list scored :=
  match base, Sr, Yn, Ln, Sn with
  | c :: base, s :: Sr, y :: Yn, l :: Ln, sn :: Sn =>
    mkScored c s y l sn (wYn * y + wLn * l + wSn * sn)
      :: frame base Sr Yn Ln Sn wYn wLn wSn
  | _, _, _, _, _ => []
  end.

(** [base] with all score columns, before ranking. *)
Definition score_frame (today : date) (ex_lookahead_days : Z)
    (wY wL wS : Q) (base : list candidate) : list scored :=
  let Sr := map (λ c, score_S today ex_lookahead_days (ex_date c)) base in
  let Y := map dividend_yield base in
  let L := map avgvol base in
  let ws := w_sum wY wL wS in
  frame base Sr (normalize Y) (normalize L) (normalize Sr)
        (wY / ws) (wL / ws) (wS / ws).

(** [DataFrame.head(n)]: the first [n] rows, or all but the last [-n]
    when [n] is negative. *)
Definition df_head {A} (n : Z) (rows : list A) : list A :=
  if decide (0 ≤ n) then take (Z.to_nat n) rows
  else take (length rows - Z.to_nat (- n)) rows.

(** [sort_values("Score", ascending=False)] is pandas code; its default
    algorithm ([kind="quicksort"]) promises the order of the keys and
    nothing about rows with equal keys, so the sort is a parameter. *)
Definition sorter : Type := list scored → list scored.

Definition descending (rows : list scored) : Prop :=
  Sorted (λ a b, (Score b <= Score a)%Q) rows.

Definition sort_contract (sort_values : sorter) : Prop :=
  ∀ rows, sort_values rows ≡ₚ rows ∧ descending (sort_values rows).

Definition build_scored_candidates (sort_values : sorter) (w : world)
    (exchange_arg : string) (min_div : Q) (min_avgvol : Z)
    (topk : Z) (ex_lookahead_days : Z) (wY wL wS : Q) : result (list scored) :=
  let base := screener_etfs w exchange_arg min_div min_avgvol in
  match base with
  | [] => Raise (RuntimeError "筛选结果为空。")
  | _ =>
    let cal := get_dividend_calendar w in
    let base := map (merge_next_ex cal) base in
    let base := score_frame (today w) ex_lookahead_days wY wL wS base in
    Ok (df_head topk (sort_values base))
  end.

(** A sort that meets the contract: merge sort. *)
Definition score_ge (a b : scored) : Prop := (Score b <= Score a)%Q.

Global Instance score_ge_dec : RelDecision score_ge.
Proof. intros a b. unfold score_ge. destruct (Qlt_le_dec (Score a) (Score b)); [right|left]; lra. Defined.

Definition merge_sort_desc : sorter := merge_sort score_ge.

(** Every sort by descending score, one for each way of placing rows
    with equal scores: insertion from the right, where [tie a b] says
    whether [a] goes in front of a row [b] of the same score that comes
    after it in the frame. The stable sorts of the library are the one
    with [tie] always true; its default [kind] fixes no [tie]. *)
Definition tie_breaker : Type := scored → scored → bool.

Fixpoint insert_by_score (tie : tie_breaker) (x : scored) (l : list scored)
    : list scored :=
  match l with
  | [] => [x]
  | y :: l' =>
    if Qlt_le_dec (Score y) (Score x) then x :: l
    else if Qeq_bool (Score x) (Score y) && tie x y then x :: l
    else y :: insert_by_score tie x l'
  end.

Definition sort_by_score (tie : tie_breaker) : sorter :=
  foldr (insert_by_score tie) [].

(** Rows with equal scores keep their input order: whenever two rows of
    the output have the same score, the one that comes first in the
    output also comes first in the input. *)
Definition ties_in_input_order (input output : list scored) : Prop :=
  ∀ i j a b,
    output !! i = Some a → output !! j = Some b → (i < j)%nat →
    (Score a == Score b)%Q →
    ∃ i' j', input !! i' = Some a ∧ input !! j' = Some b ∧ (i' < j')%nat.

(** The frame handed to [sort_values]. *)
Definition scored_base (w : world) (exchange_arg : string) (min_div : Q)
    (min_avgvol : Z) (ex_lookahead_days : Z) (wY wL wS : Q) : list scored :=
  score_frame (today w) ex_lookahead_days wY wL wS
    (map (merge_next_ex (get_dividend_calendar w))
         (screener_etfs w exchange_arg min_div min_avgvol)).

End Scorer.

(** ** Historical rotation simulator *)

Module Simulator.
Import Gateway Calendar.

(** A row of the price frame [px] (the index date and the
    [adjusted_close] column) and a row of the dividend history. *)
Record price_row : Type := mkPrice {
  p_date : date;
  adjusted_close : Q
}.

Record div_row : Type := mkDiv {
  d_ex_date : option date;       (* [None]: [pd.isna(exd)] *)
  d_amount : Q
}.

Record Trade : Type := mkTrade {
  ticker : string;
  ex_date : date;
  buy_date : date;
  sell_date : date;
  buy_price : Q;
  sell_price : Q;
  shares : Q;
  dividend_cash : Q;
  pnl : Q
}.

Record world : Type := mkWorld {
  token : string;
  div_http : string → nat → attempt (payload div_row);
  eod_http : string → nat → attempt (list price_row)
}.

(** The loop state. [ledger] is a record of every value the variable
    [cash] takes, oldest first; the source has no such variable. *)
Record state : Type := mkState {
  cash : Q;
  trades : list Trade;
  equity_curve : list (date * Q);
  ledger : list Q
}.

Definition init_state (initial_cash : Q) : state :=
  mkState initial_cash [] [] [initial_cash].

(** Lines 388-400: what the cash logic decides for one event. *)
Inductive decision : Type :=
| Skip
| DivisionByZero
| Fill (shares cost div_cash proceeds : Q).

Definition alloc_cash_of (cash alloc_per_event : Q) (topk : Z) : Q :=
  Qmax 0 (cash * alloc_per_event / inject_Z (Z.max 1 topk)).

Definition shares_of (alloc_cash buy_px : Q) : Q :=
  Qmax 1 (inject_Z (Qfloor (alloc_cash / buy_px))).

Definition decide_trade (cash alloc_per_event : Q) (topk : Z)
    (buy_px sell_px amount : Q) : decision :=
  let alloc_cash := alloc_cash_of cash alloc_per_event topk in
  if Qle_bool alloc_cash 0 then Skip
  else if Qeq_bool buy_px 0 then DivisionByZero
  else
    let shares := shares_of alloc_cash buy_px in
    let cost := (shares * buy_px)%Q in
    if Qle_bool cost 0 || negb (Qle_bool cost (cash * 0.98)) then Skip
    else Fill shares cost (amount * shares) (shares * sell_px).

(** [px.loc[px.index.date == d, "adjusted_close"].iloc[-1]] *)
Definition price_on (px : list price_row) (d : date) : option Q :=
  adjusted_close <$> list.last (filter (λ r, p_date r = d) px).

Definition process_event (start_d end_d : date) (hold_pre hold_post : Z)
    (alloc_per_event : Q) (topk : Z) (tkr : string) (px : list price_row)
    (st : state) (drow : div_row) : result state :=
  match d_ex_date drow with
  | None => Ok st
  | Some exd =>
    if decide (start_d ≤ exd ≤ end_d) then
      let cal := map p_date px in
      match shift_trading_day_with_calendar exd (- hold_pre) cal,
            shift_trading_day_with_calendar exd hold_post cal with
      | Some buy_d, Some sell_d =>
        match price_on px buy_d, price_on px sell_d with
        | Some buy_px, Some sell_px =>
          match decide_trade (cash st) alloc_per_event topk
                             buy_px sell_px (d_amount drow) with
          | Skip => Ok st
          | DivisionByZero => Raise ZeroDivisionError
          | Fill shares cost div_cash proceeds =>
            let cash1 := (cash st - cost)%Q in
            let pnl := ((proceeds + div_cash) - cost)%Q in
            let cash2 := (cash1 + (proceeds + div_cash))%Q in
            Ok (mkState cash2
                  (trades st ++ [mkTrade tkr exd buy_d sell_d buy_px sell_px
                                         shares div_cash pnl])
                  (equity_curve st ++ [(sell_d, cash2)])
                  (ledger st ++ [cash1; cash2]))
          end
        | _, _ => Raise OtherException
        end
      | _, _ => Ok st
      end
    else Ok st
  end.

(** The inner [for _, drow in div_df.iterrows()], stopping at the first
    exception. *)
Fixpoint process_events (step : state → div_row → result state)
    (st : state) (rows : list div_row) : result state :=
  match rows with
  | [] => Ok st
  | drow :: rows =>
    match step st drow with
    | Ok st' => process_events step st' rows
    | Raise e => Raise e
    end
  end.

(** The mock dividends of the [except] branch, by ticker prefix. *)
Definition mock_div_hist : list (string * div_row) := [
  ("SCHD", mkDiv (Some 739113) 0.65);
  ("VYM", mkDiv (Some 739108) 0.72);
  ("HDV", mkDiv (Some 739118) 0.75);
  ("DGRO", mkDiv (Some 739123) 0.39);
  ("NOBL", mkDiv (Some 739139) 0.58);
  ("SDIV", mkDiv (Some 739103) 0.12);
  ("JEPI", mkDiv (Some 739128) 0.35);
  ("XYLD", mkDiv (Some 739118) 0.32)
].

Definition dividend_history (w : world) (tkr : string) : list div_row :=
  match outcome (_get (token w) (div_http w tkr)) with
  | Ok (JList rows) => rows
  | Ok JOther => []
  | Raise _ =>
    omap (λ '(prefix, d), if Py.startswith tkr prefix then Some d else None)
         mock_div_hist
  end.

(** [get_eod_prices]: outside any [try], an exception of [_get] leaves
    [simulate_rotation]. *)
Definition get_eod_prices (w : world) (tkr : string) : result (list price_row) :=
  outcome (_get (token w) (eod_http w tkr)).

(** One pass of the outer loop over [ranked]. *)
Definition process_instrument (w : world) (start_d end_d : date)
    (hold_pre hold_post : Z) (alloc_per_event : Q) (topk : Z)
    (st : state) (tkr : string) : result state :=
  match dividend_history w tkr with
  | [] => Ok st
  | div_df =>
    match get_eod_prices w tkr with
    | Raise e => Raise e
    | Ok px =>
      if decide (length px < 10)%nat then Ok st
      else process_events
             (process_event start_d end_d hold_pre hold_post
                            alloc_per_event topk tkr px) st div_df
    end
  end.

Fixpoint process_instruments (step : state → string → result state)
    (st : state) (tickers : list string) : result state :=
  match tickers with
  | [] => Ok st
  | tkr :: tickers =>
    match step st tkr with
    | Ok st' => process_instruments step st' tickers
    | Raise e => Raise e
    end
  end.

(** [simulate_rotation], up to the trade log and the raw equity curve;
    the sort and grouping of the curve by date are not modelled, its two
    derived columns are in [Report]. *)
Definition simulate_rotation (w : world) (ranked : list Scorer.scored)
    (start_d end_d : date) (initial_cash : Q) (hold_pre hold_post : Z)
    (alloc_per_event : Q) (topk : Z) : result state :=
  process_instruments
    (process_instrument w start_d end_d hold_pre hold_post alloc_per_event topk)
    (init_state initial_cash)
    (map (λ r, Scorer.ticker (Scorer.cand r)) ranked).

End Simulator.

(** ** Forward buy/sell plan *)

Module Planner.
Import Gateway Calendar.

(** An event of the [/div/] answer. A missing [date], [value] or
    [currency] key is [None]; a [date] that is present is an ISO
    date. *)
Record div_event : Type := mkDivEvent {
  de_date : option date;
  de_value : option Q;
  de_currency : option string
}.

(** A row of [all_future_events]: an API event tagged with the ticker,
    or the fall-back row built from the ranked frame. *)
Record future_event : Type := mkFuture {
  fe_ticker : string;
  fe_name : string;
  fe_date : option date;
  fe_value : option Q;
  fe_currency : option string;
  fe_close_price : Q
}.

(** A row of the plan. In [ex_date], [None] is the [NaT] of a row
    without a date; in [amount] and [currency], [None] is the NaN a
    frame holds where a row lacks a key that other rows have.
    [estimated_pct_gain] is the number before its formatting. *)
Record plan_row : Type := mkPlan {
  ticker : string;
  name : string;
  ex_date : option date;
  amount : option Q;
  currency : option string;
  plan_buy_date : option date;
  plan_sell_date : option date;
  estimated_pct_gain : Q;
  note : string
}.

Record world : Type := mkWorld {
  token : string;
  today : date;
  holidays_http : nat → attempt (payload date);
  div_http : string → nat → attempt (payload div_event)
}.

Definition get_us_holidays (w : world) : list date :=
  match outcome (_get (token w) (holidays_http w)) with
  | Ok (JList hol) => hol
  | Ok JOther => []
  | Raise _ => []
  end.

(** The events one ranked row contributes to [all_future_events]. *)
Definition future_events_of (w : world) (to_day : date)
    (row : Scorer.scored) : list future_event :=
  let c := Scorer.cand row in
  let tkr := Scorer.ticker c in
  let fallback :=
    match Scorer.ex_date c with
    | Some ex_date_val =>
      if decide (today w ≤ ex_date_val ≤ to_day) then
        [mkFuture tkr (Scorer.name c) (Some ex_date_val) None None (Scorer.close c)]
      else []
    | None => []
    end in
  match outcome (_get (token w) (div_http w tkr)) with
  | Ok (JList (e :: div_hist)) =>
    map (λ e, mkFuture tkr (Scorer.name c) (de_date e) (de_value e)
                       (de_currency e) (Scorer.close c)) (e :: div_hist)
  | _ => fallback
  end.

(** The order of [sort_values(["ex_date","ticker"])]; rows without a
    date come last. *)
Definition key_le (d1 : option date) (t1 : string)
    (d2 : option date) (t2 : string) : Prop :=
  match d1, d2 with
  | Some x, Some y => x < y ∨ (x = y ∧ String.leb t1 t2 = true)
  | Some _, None => True
  | None, Some _ => False
  | None, None => String.leb t1 t2 = true
  end.

Definition event_le (a b : future_event) : Prop :=
  key_le (fe_date a) (fe_ticker a) (fe_date b) (fe_ticker b).

Global Instance key_le_dec d1 t1 d2 t2 : Decision (key_le d1 t1 d2 t2).
Proof. unfold key_le. destruct d1, d2; apply _. Defined.

Global Instance event_le_dec : RelDecision event_le.
Proof. intros a b. unfold event_le. apply _. Defined.

(** A sort on several keys is stable: rows with equal keys keep their
    order. Insertion from the right, each row in front of the first row
    that is not smaller. *)
Fixpoint insert_row (x : future_event) (l : list future_event) : list future_event :=
  match l with
  | [] => [x]
  | y :: l' => if decide (event_le x y) then x :: l else y :: insert_row x l'
  end.

Definition sort_values (cal : list future_event) : list future_event :=
  foldr insert_row [] cal.

(** [r.get(key, default)] on a frame: the default when no row has the
    key, NaN ([None]) when only this row lacks it. *)
Definition column_get {A} (col : future_event → option A) (default : A)
    (cal : list future_event) (r : future_event) : option A :=
  match col r with
  | Some v => Some v
  | None => if existsb (λ e, bool_decide (is_Some (col e))) cal then None
            else Some default
  end.

Definition estimated_gain (dividend_amount : option Q) (close_price : Q) : Q :=
  match dividend_amount with
  | Some a =>
    if negb (Qle_bool close_price 0) && negb (Qle_bool a 0)
    then (a / close_price * 100)%Q else 0%Q
  | None => 0%Q
  end.

(** [shift_trading_day_with_calendar] called with the [ex_date] of a
    frame row. [NaT] cannot be compared with a date: on a calendar that
    is not empty the comparison [d <= ref_date] raises [TypeError]. *)
Definition shift_row_date (exd : option date) (offset : Z)
    (trading_cal : list date) : result (option date) :=
  match exd with
  | Some d => Ok (shift_trading_day_with_calendar d offset trading_cal)
  | None =>
    match trading_cal with
    | [] => Ok None
    | _ => Raise TypeError
    end
  end.

(** The body of the loop over the sorted frame. *)
Definition plan_of (hold_pre hold_post : Z) (trading_cal : list date)
    (cal : list future_event) (r : future_event) : result plan_row :=
  let exd := fe_date r in
  match shift_row_date exd (- hold_pre) trading_cal with
  | Raise e => Raise e
  | Ok buy_d =>
    match shift_row_date exd hold_post trading_cal with
    | Raise e => Raise e
    | Ok sell_d =>
      let note :=
        match buy_d, sell_d with
        | Some _, Some _ => ""
        | _, _ => "无法计算买/卖日期"
        end in
      let dividend_amount := column_get fe_value 0%Q cal r in
      Ok (mkPlan (fe_ticker r) (fe_name r) exd dividend_amount
                 (column_get fe_currency "USD" cal r) buy_d sell_d
                 (estimated_gain dividend_amount (fe_close_price r)) note)
    end
  end.

Fixpoint plans_of (hold_pre hold_post : Z) (trading_cal : list date)
    (cal rows : list future_event) : result (list plan_row) :=
  match rows with
  | [] => Ok []
  | r :: rows' =>
    match plan_of hold_pre hold_post trading_cal cal r with
    | Raise e => Raise e
    | Ok p =>
      match plans_of hold_pre hold_post trading_cal cal rows' with
      | Raise e => Raise e
      | Ok plans => Ok (p :: plans)
      end
    end
  end.

Definition trading_cal_of (w : world) (ex_lookahead_days : Z) : list date :=
  let to_day := today w + ex_lookahead_days in
  build_trading_calendar (today w - 30) (to_day + 5) (get_us_holidays w).

Definition all_future_events (w : world) (ranked : list Scorer.scored)
    (ex_lookahead_days : Z) : list future_event :=
  flat_map (future_events_of w (today w + ex_lookahead_days)) ranked.

(** ["date" in cal.columns]: some collected event has the key. *)
Definition has_date_column (cal : list future_event) : bool :=
  existsb (λ e, bool_decide (is_Some (fe_date e))) cal.

Definition build_forward_plan (w : world) (ranked : list Scorer.scored)
    (hold_pre hold_post : Z) (ex_lookahead_days : Z) : result (list plan_row) :=
  let trading_cal := trading_cal_of w ex_lookahead_days in
  let cal := all_future_events w ranked ex_lookahead_days in
  match cal with
  | [] => Ok []
  | _ =>
    if has_date_column cal then
      plans_of hold_pre hold_post trading_cal cal (sort_values cal)
    else Ok []
  end.

End Planner.

(** ** Returns of the consolidated equity curve *)

Module Report.

(** The two derived columns of [equity_df] in [simulate_rotation]. A
    number that is not finite (an infinity left by a division by zero,
    or the NaN it turns into in a product) is [None]. *)

(** [equity.pct_change().fillna(0.0)] after the first row: the quotient
    by the previous row minus 1; [0/0] is a NaN, which [fillna] turns
    into 0. *)
Fixpoint pct_change_from (prev : Q) (equity : list Q) : list (option Q) :=
  match equity with
  | [] => []
  | e :: rest =>
    (if Qeq_bool prev 0 then (if Qeq_bool e 0 then Some 0%Q else None)
     else Some (e / prev - 1)%Q)
      :: pct_change_from e rest
  end.

(** The ["return"] column: the first row has no previous one, its NaN
    becomes 0. *)
Definition returns (equity : list Q) : list (option Q) :=
  match equity with
  | [] => []
  | e0 :: rest => Some 0%Q :: pct_change_from e0 rest
  end.

(** [cumprod]: the running product. *)
Fixpoint cumprod_from (acc : option Q) (xs : list (option Q)) : list (option Q) :=
  match xs with
  | [] => []
  | x :: xs' =>
    let acc' := match acc, x with
                | Some a, Some v => Some (a * v)%Q
                | _, _ => None
                end in
    acc' :: cumprod_from acc' xs'
  end.

(** The ["cum_return"] column: [(1 + return).cumprod() - 1.0]. *)
Definition cum_return (ret : list (option Q)) : list (option Q) :=
  map (fmap (λ c, c - 1)%Q)
      (cumprod_from (Some 1%Q) (map (fmap (λ r, 1 + r)%Q) ret)).

End Report.

(** * Vocabulary of the properties and sample data *)

(** An answer after which the loop of [_get] goes round again (unless it
    was the last pass): an exception the [except] clause catches, or a
    429 whose [Retry-After] does not overflow [time.sleep]. *)
Definition retried {A} (a : Gateway.attempt A) : Prop :=
  match a with
  | Gateway.RateLimited Gateway.Infinite => False
  | Gateway.RateLimited (Gateway.Seconds s) =>
    Gateway.time_sleep s ≠ Raise OverflowError
  | Gateway.RateLimited _ => True
  | Gateway.Parsed _ => False
  | Gateway.Raised e => Gateway.caught e = true
  end.

(** The base of the shift: the last sorted date not after the reference
    date. *)
Definition base_of (ref_date : date) (cal : list date) : option date :=
  list.last (filter (λ d, d ≤ ref_date) (Calendar.sorted cal)).

(** The events the [/div/] request of a ranked row returns, and the
    number of dividend events the planner has to process for the row:
    the returned events, or else the one of the ranked frame when its
    ex-date lies in the look-ahead window. *)
Definition api_events (w : Planner.world) (row : Scorer.scored)
    : list Planner.div_event :=
  match Gateway.outcome
          (Gateway._get (Planner.token w)
             (Planner.div_http w (Scorer.ticker (Scorer.cand row)))) with
  | Ok (Gateway.JList events) => events
  | _ => []
  end.

Definition in_window (w : Planner.world) (la : Z) (d : date) : Prop :=
  Planner.today w ≤ d ≤ Planner.today w + la.

Definition events_processed (w : Planner.world) (la : Z)
    (row : Scorer.scored) : nat :=
  match api_events w row with
  | [] =>
    match Scorer.ex_date (Scorer.cand row) with
    | Some d => if decide (in_window w la d) then 1 else 0
    | None => 0
    end
  | events => length events
  end.

(** [series.min()] and [series.max()] of a series: bounds that some
    element attains. *)
Definition is_min (m : Q) (series : list Q) : Prop :=
  Forall (λ x, (m <= x)%Q) series ∧ Exists (λ x, (m == x)%Q) series.

Definition is_max (m : Q) (series : list Q) : Prop :=
  Forall (λ x, (x <= m)%Q) series ∧ Exists (λ x, (m == x)%Q) series.

(** The ledger ends with the current cash, holds two entries per trade
    after the initial one, and shows for trade [k] the cash before the
    purchase at position [2k] and the cash after the debit at [2k+1]. *)
Definition ledger_ok (st : Simulator.state) : Prop :=
  list.last (Simulator.ledger st) = Some (Simulator.cash st)
  ∧ length (Simulator.ledger st) = (2 * length (Simulator.trades st) + 1)%nat
  ∧ ∀ k tr, Simulator.trades st !! k = Some tr →
      ∃ before, Simulator.ledger st !! (2 * k)%nat = Some before
        ∧ (Simulator.shares tr * Simulator.buy_price tr <= before)%Q
        ∧ Simulator.ledger st !! (2 * k + 1)%nat
          = Some (before - Simulator.shares tr * Simulator.buy_price tr)%Q.

Definition ledger_nonneg (st : Simulator.state) : Prop :=
  Forall (λ c, (0 <= c)%Q) (Simulator.ledger st) ∧ (0 <= Simulator.cash st)%Q.

(** Market data without negative prices or dividends. *)
Definition nonneg_px (px : list Simulator.price_row) : Prop :=
  Forall (λ r, (0 <= Simulator.adjusted_close r)%Q) px.

Definition nonneg_market (w : Simulator.world) : Prop :=
  ∀ tkr,
    Forall (λ d, (0 <= Simulator.d_amount d)%Q) (Simulator.dividend_history w tkr)
    ∧ ∀ px, Simulator.get_eod_prices w tkr = Ok px → nonneg_px px.

(** The rows of the built-in screener list that pass the two screening
    thresholds. *)
Definition demo_rows (min_div : Q) (min_avgvol : Z) : list Scorer.screener_row :=
  filter (λ d, Qle_bool min_div (Scorer.s_dividend_yield d)
               && Qle_bool (inject_Z min_avgvol) (Scorer.s_avgvol d) = true)
         Scorer.fallback_etfs.

(** A world whose screener answers with two funds alike in yield and
    volume and whose dividend calendar is empty. *)
Definition two_alike_world : Scorer.world :=
  Scorer.mkWorld "token" 739924
    (λ _, Gateway.Parsed (Gateway.JList
       [Scorer.mkScreenerRow "aaa" (Some "") "Fund A" 300000 0.02 50;
        Scorer.mkScreenerRow "bbb" (Some "US") "Fund B" 300000 0.02 40]))
    (λ _, Gateway.Parsed (Gateway.JList [])).

(** Twenty funds of the same volume whose yields are 0.02, 0.02, 0.04,
    0.04, 0.02, ... and an empty dividend calendar. *)
Definition twenty_world : Scorer.world :=
  Scorer.mkWorld "token" 739924
    (λ _, Gateway.Parsed (Gateway.JList
       (map (λ i, Scorer.mkScreenerRow
                    (String (ascii_of_nat (65 + i)) EmptyString) (Some "US")
                    "Fund" 300000
                    (if decide (i mod 4 < 2)%nat then 0.02%Q else 0.04%Q) 50)
            (seq 0 20))))
    (λ _, Gateway.Parsed (Gateway.JList [])).

(** A fund with twelve sessions of prices, 80 throughout and 81 on
    2024-08-16, and one dividend of 0.5 with ex-date 2024-08-15. *)
Definition sample_px : list Simulator.price_row :=
  map (λ d, Simulator.mkPrice d (if decide (d = 739114) then 81%Q else 80%Q))
      [739103; 739104; 739105; 739106; 739107; 739110;
       739111; 739112; 739113; 739114; 739117; 739118].

Definition sample_world : Simulator.world :=
  Simulator.mkWorld "token"
    (λ _ _, Gateway.Parsed (Gateway.JList [Simulator.mkDiv (Some 739113) 0.5]))
    (λ _ _, Gateway.Parsed sample_px).

Definition sample_ranked : list Scorer.scored :=
  [Scorer.mkScored
     (Scorer.mkCandidate "AAA.US" "Fund A" 300000 0.02 80 None) 0 1 1 1 1].

(** The same fund with a negative close, -2000, on 2024-08-16. *)
Definition crash_world : Simulator.world :=
  Simulator.mkWorld "token"
    (λ _ _, Gateway.Parsed (Gateway.JList [Simulator.mkDiv (Some 739113) 0.5]))
    (λ _ _, Gateway.Parsed
       (map (λ r, if decide (Simulator.p_date r = 739114)
                  then Simulator.mkPrice 739114 (-2000)%Q else r) sample_px)).

(** Wednesday 2026-11-04; the holiday request fails; the fund's next
    dividend has its ex-date on Saturday 2026-11-07. *)
Definition weekend_world : Planner.world :=
  Planner.mkWorld "token" 739924 (λ _, Gateway.Raised RequestException)
    (λ _ _, Gateway.Parsed (Gateway.JList
       [Planner.mkDivEvent (Some 739927) (Some 0.5%Q) None])).

(** The same day; the dividend request returns an event 200 days
    ahead, past the end of the trading calendar. *)
Definition edge_world : Planner.world :=
  Planner.mkWorld "token" 739924 (λ _, Gateway.Raised RequestException)
    (λ _ _, Gateway.Parsed (Gateway.JList
       [Planner.mkDivEvent (Some 740124) (Some 0.5%Q) None])).

(** The same day; the dividend request returns an event without a
    ["date"] key. *)
Definition undated_world : Planner.world :=
  Planner.mkWorld "token" 739924 (λ _, Gateway.Raised RequestException)
    (λ _ _, Gateway.Parsed (Gateway.JList
       [Planner.mkDivEvent None (Some 0.5%Q) None])).

(** The same day; the dividend request returns two events, the later
    one first. *)
Definition two_event_world : Planner.world :=
  Planner.mkWorld "token" 739924 (λ _, Gateway.Raised RequestException)
    (λ _ _, Gateway.Parsed (Gateway.JList
       [Planner.mkDivEvent (Some 739930) (Some 0.5%Q) None;
        Planner.mkDivEvent (Some 739927) (Some 0.5%Q) None])).

(** Every request fails on every attempt. *)
Definition outage_world : Scorer.world :=
  Scorer.mkWorld "token" 739924
    (λ _, Gateway.Raised RequestException) (λ _, Gateway.Raised RequestException).

Definition outage_sim_world : Simulator.world :=
  Simulator.mkWorld "token"
    (λ _ _, Gateway.Raised RequestException)
    (λ _ _, Gateway.Raised RequestException).

(** * Properties *)

(** ** The retry loop of [_get] *)

Section GatewayFacts.
Import Gateway.
Context {A : Type}.
Variable respond : nat → attempt A.
Local Open Scope Q_scope.

Lemma time_sleep_Ok_nonneg s : time_sleep s = Ok tt → 0 <= s.
Proof.
  unfold time_sleep, round_up. intros H.
  destruct (Qlt_le_dec (s * 1000000000) 0) as [Hneg|Hpos]; [|lra].
  exfalso.
  assert (Qfloor (s * 1000000000) < 0)%Z as Hfl.
  { apply Z.lt_nge. intros H0.
    pose proof (Qfloor_le (s * 1000000000)) as Hle.
    assert (0 <= inject_Z (Qfloor (s * 1000000000))) as Hi.
    { rewrite <- (Zle_Qle 0). exact H0. }
    lra. }
  destruct (decide _); [|done]. by destruct (decide _).
Qed.

Lemma time_sleep_Ok s : 0 <= s <= 102 → time_sleep s = Ok tt.
Proof.
  intros [H0 H1]. unfold time_sleep, round_up.
  destruct (Qlt_le_dec (s * 1000000000) 0) as [Hneg|Hpos]; [lra|].
  assert (0 ≤ Qceiling (s * 1000000000))%Z as Hlo.
  { change 0%Z with (Qceiling 0). apply Qceiling_resp_le. lra. }
  assert (Qceiling (s * 1000000000) ≤ 102000000000)%Z as Hhi.
  { change 102000000000%Z with (Qceiling 102000000000).
    apply Qceiling_resp_le. lra. }
  destruct (decide _) as [_|Hn]; [|exfalso; apply Hn; lia].
  destruct (decide _); [lia|done].
Qed.

Lemma time_sleep_Raise s e :
  time_sleep s = Raise e → e = ValueError ∨ e = OverflowError.
Proof.
  unfold time_sleep. repeat case_decide; intros; simplify_eq; auto.
Qed.

Lemma backoff_sleep_Ok backoff k :
  1 <= backoff <= 20 → (k ≤ 4)%nat →
  1 <= backoff * Qpow15 k <= 101.25
  ∧ time_sleep (backoff * Qpow15 k) = Ok tt.
Proof.
  intros Hb Hk.
  assert (1 <= Qpow15 k ∧ Qpow15 k <= 5.0625) as [H1 H2].
  { destruct k as [|[|[|[|[|k]]]]]; [| | | | |lia];
      (split; vm_compute; discriminate). }
  generalize dependent (Qpow15 k). intros p H1 H2.
  assert (1 <= backoff * p <= 101.25) as Hr by nra.
  split; [done|]. apply time_sleep_Ok. lra.
Qed.

Lemma next_backoff b : 1 <= b <= 20 → 1 <= Qmin (b * 2) 20 <= 20.
Proof. intros Hb. split; [apply Q.min_glb; lra|apply Q.le_min_r]. Qed.

(** A pass that goes on to the next one: the answer was a retried one,
    the back-off stays in range, and the sleep is the handler's or the
    one the 429 answer asks for. *)
Lemma loop_body_Continue (r : attempt A) k backoff b' sl :
  loop_body r k backoff = Continue b' sl →
  1 <= backoff <= 20 → (k ≤ 5)%nat →
  retried r
  ∧ 1 <= b' <= 20
  ∧ (1 <= sl <= 101.25
     ∨ ∃ s, r = RateLimited (Seconds s) ∧ sl = s ∧ 0 <= s).
Proof.
  intros H Hb Hk.
  assert (∀ e, (if caught e then
                  if decide (k = 5%nat) then Escape e
                  else match time_sleep (backoff * Qpow15 k) with
                       | Ok _ => Continue backoff (backoff * Qpow15 k)
                       | Raise e' => Escape e'
                       end
                else Escape e) = Continue (A := A) b' sl →
          caught e = true ∧ 1 <= b' <= 20 ∧ 1 <= sl <= 101.25) as Herr.
  { intros e He. destruct (caught e); [|done].
    destruct (decide (k = 5%nat)); [done|].
    destruct (backoff_sleep_Ok backoff k) as [Hr Hs]; [done|lia|].
    rewrite Hs in He. by simplify_eq. }
  unfold loop_body in H. destruct r as [h|a|e]; [|done|].
  - destruct h as [|s| | |].
    + rewrite (time_sleep_Ok backoff) in H by lra. simplify_eq.
      split; [done|]. split; [by apply next_backoff|]. left. lra.
    + destruct (time_sleep s) as [[]|e] eqn:Hs.
      * simplify_eq. split; [by simpl; rewrite Hs|].
        split; [by apply next_backoff|]. right. exists sl.
        split; [done|]. split; [done|by apply time_sleep_Ok_nonneg].
      * apply Herr in H as (Hc & ? & ?).
        split; [|split; [done|by left]]. simpl. rewrite Hs. intros [=->]. done.
    + by apply Herr in H as ([=] & _).
    + apply Herr in H as (_ & ? & ?). (split; [done|split; [done|by left]]).
    + apply Herr in H as (_ & ? & ?). (split; [done|split; [done|by left]]).
  - apply Herr in H as (? & ? & ?). (split; [done|split; [done|by left]]).
Qed.

(** A retried answer on a pass other than the last goes on. *)
Lemma loop_body_retried (r : attempt A) k backoff :
  retried r → (k ≤ 4)%nat → 1 <= backoff <= 20 →
  ∃ b' sl, loop_body r k backoff = Continue b' sl.
Proof.
  intros Hr Hk Hb.
  destruct (backoff_sleep_Ok backoff k) as [_ Hs]; [done..|].
  assert (∀ e, caught e = true →
            ∃ b' sl, (if caught e then
                  if decide (k = 5%nat) then Escape e
                  else match time_sleep (backoff * Qpow15 k) with
                       | Ok _ => Continue backoff (backoff * Qpow15 k)
                       | Raise e' => Escape e'
                       end
                else Escape e) = Continue (A := A) b' sl) as Herr.
  { intros e ->. destruct (decide (k = 5%nat)); [lia|]. rewrite Hs. eauto. }
  unfold loop_body. destruct r as [h|a|e]; [|done|by apply Herr].
  destruct h as [|s| | |]; simpl in Hr.
  - rewrite (time_sleep_Ok backoff) by lra. eauto.
  - destruct (time_sleep s) as [[]|e] eqn:Hts; [eauto|].
    apply time_sleep_Raise in Hts as Hcases.
    destruct Hcases as [->| ->]; [by apply Herr|done].
  - done.
  - by apply Herr.
  - by apply Herr.
Qed.

(** An answer that is not retried ends the call with its exception,
    the [OverflowError] of [time.sleep] for a 429 answer. *)
Lemma loop_body_not_retried (r : attempt A) k backoff :
  ¬ retried r →
  loop_body r k backoff
  = match r with
    | Parsed a => Return a
    | Raised e => Escape e
    | RateLimited _ => Escape OverflowError
    end.
Proof.
  intros Hr. unfold loop_body. destruct r as [h|a|e]; [|done|].
  - destruct h as [|s| | |]; simpl in Hr; try done.
    destruct (time_sleep s) as [[]|e] eqn:Hts.
    + exfalso. apply Hr. done.
    + apply time_sleep_Raise in Hts as Hcases.
      destruct Hcases as [->| ->]; [exfalso; by apply Hr|done].
  - simpl in Hr. by destruct (caught e).
Qed.

(** The sixth pass on a retried answer: a caught exception is raised
    again; a 429 is slept out unless its header is unusable. *)
Lemma loop_body_last (r : attempt A) backoff :
  retried r → 1 <= backoff <= 20 →
  match r with
  | Raised e => loop_body r 5 backoff = Escape e
  | _ => loop_body r 5 backoff = Escape ValueError
         ∨ ∃ b' sl, loop_body r 5 backoff = Continue b' sl
  end.
Proof.
  intros Hr Hb. unfold loop_body. destruct r as [h|a|e]; [|done|].
  - destruct h as [|s| | |]; simpl in Hr; try done; try (by left).
    + rewrite (time_sleep_Ok backoff) by lra. eauto.
    + destruct (time_sleep s) as [[]|e] eqn:Hts; [eauto|].
      apply time_sleep_Raise in Hts as Hcases.
      destruct Hcases as [->| ->]; [by left|done].
  - simpl in Hr. rewrite Hr. done.
Qed.

Lemma get_loop_requests_le attempts backoff n log :
  (requests (get_loop respond attempts backoff n log) ≤ n + length attempts)%nat.
Proof.
  revert backoff n log.
  induction attempts as [|k rest IH]; intros backoff n log; simpl; [lia|].
  destruct (loop_body (respond k) k backoff) as [a|e|b' sl]; simpl; try lia.
  etrans; [apply IH|lia].
Qed.

(** Retried answers on the passes [s, ..., k-1] bring the loop to pass
    [k], one request and one sleep later for each of them. *)
Lemma get_loop_prefix len : ∀ s k backoff n log,
  (s ≤ k ≤ s + len)%nat → (k ≤ 5)%nat → 1 <= backoff <= 20 →
  (∀ j, (s ≤ j < k)%nat → retried (respond j)) →
  ∃ b' log',
    1 <= b' <= 20 ∧ length log' = (length log + (k - s))%nat
    ∧ get_loop respond (seq s len) backoff n log
      = get_loop respond (seq k (s + len - k)) b' (n + (k - s)) log'.
Proof.
  induction len as [|len IH]; intros s k backoff n log Hk H5 Hb Hr.
  - assert (k = s) as -> by lia. exists backoff, log.
    replace (s + 0 - s)%nat with 0%nat by lia.
    replace (n + (s - s))%nat with n by lia. split; [done|split; [lia|done]].
  - destruct (decide (k = s)) as [->|Hne].
    + exists backoff, log. replace (s + S len - s)%nat with (S len) by lia.
      replace (n + (s - s))%nat with n by lia. split; [done|split; [lia|done]].
    + destruct (loop_body_retried (respond s) s backoff) as (b1 & sl & Hstep);
        [apply Hr; lia|lia|done|].
      apply loop_body_Continue in Hstep as Hfacts; [|done|lia].
      destruct Hfacts as (_ & Hb1 & _).
      destruct (IH (S s) k b1 (S n) (log ++ [sl])) as (b' & log' & Hb' & Hlen & Heq);
        [lia|done|done|intros j Hj; apply Hr; lia|].
      exists b', log'. split; [done|].
      split; [rewrite Hlen, length_app; simpl; lia|].
      change (seq s (S len)) with (s :: seq (S s) len).
      cbn [get_loop]. rewrite Hstep, Heq.
      replace (S s + len - k)%nat with (s + S len - k)%nat by lia.
      replace (S n + (k - S s))%nat with (n + (k - s))%nat by lia. done.
Qed.

(** The pass that ends the call, reached through retried ones. *)
Lemma get_loop_stops_at k rest backoff n log (p : pass A) :
  loop_body (respond k) k backoff = p →
  get_loop respond (k :: rest) backoff n log
  = match p with
    | Return a => mkRun (Ok a) (S n) log
    | Escape e => mkRun (Raise e) (S n) log
    | Continue b' sl => get_loop respond rest b' (S n) (log ++ [sl])
    end.
Proof. intros <-. done. Qed.

Lemma get_from_start (tok : string) k :
  tok ≠ EmptyString → (k < 6)%nat →
  (∀ j, (j < k)%nat → retried (respond j)) →
  ∃ b' log',
    1 <= b' <= 20 ∧ length log' = k
    ∧ _get tok respond
      = get_loop respond (k :: seq (S k) (5 - k)) b' k log'.
Proof.
  intros Htok Hk Hr. unfold _get, _require_token.
  destruct (decide (tok = EmptyString)); [done|]. cbv beta iota.
  destruct (get_loop_prefix 6 0 k 1 0%nat []) as (b' & log' & Hb' & Hlen & Heq);
    [lia|lia|lra|intros j Hj; apply Hr; lia|].
  exists b', log'. split; [done|]. split; [simpl in Hlen; lia|].
  rewrite Heq. replace (0 + 6 - k)%nat with (S (5 - k)) by lia.
  replace (0 + (k - 0))%nat with k by lia. done.
Qed.

Lemma get_last_error (tok : string) e :
  tok ≠ EmptyString →
  respond 5%nat = Raised e → caught e = true →
  (∀ j, (j < 5)%nat → retried (respond j)) →
  outcome (_get tok respond) = Raise e
  ∧ requests (_get tok respond) = 6%nat.
Proof.
  intros Htok He Hc Hr.
  destruct (get_from_start tok 5 Htok) as (b' & log' & Hb' & Hlen & ->);
    [lia|done|].
  rewrite (get_loop_stops_at _ _ _ _ _ (Escape e)); [done|].
  assert (retried (respond 5%nat)) as Hr5 by (by rewrite He).
  pose proof (loop_body_last _ b' Hr5 Hb') as Hl. by rewrite He in *.
Qed.

(** A returned value is the decoded body of a pass that follows only
    retried ones. *)
Lemma get_loop_Ok attempts : ∀ backoff n log a,
  Forall (λ k, (k ≤ 5)%nat) attempts → 1 <= backoff <= 20 →
  outcome (get_loop respond attempts backoff n log) = Ok a →
  ∃ pre k post,
    attempts = pre ++ k :: post
    ∧ respond k = Parsed a
    ∧ Forall (λ j, retried (respond j)) pre
    ∧ requests (get_loop respond attempts backoff n log) = (n + length pre + 1)%nat.
Proof.
  induction attempts as [|k rest IH]; intros backoff n log a Hatt Hb Hout;
    [done|].
  apply Forall_cons in Hatt as [Hk Hrest]. cbn [get_loop] in *.
  destruct (loop_body (respond k) k backoff) as [a'|e|b' sl] eqn:Hstep.
  - simpl in Hout. simplify_eq. exists [], k, rest.
    split_and!; [done| |done|simpl; lia].
    unfold loop_body in Hstep. destruct (respond k) as [h|a'|e]; [|by simplify_eq|].
    + destruct h; repeat (try case_match; try case_decide; try done).
    + repeat (try case_match; try case_decide; try done).
  - done.
  - apply loop_body_Continue in Hstep as (Hr & Hb' & _); [|done..].
    destruct (IH b' (S n) (log ++ [sl]) a Hrest Hb' Hout)
      as (pre & k' & post & -> & Hp & Hpre & Hq).
    exists (k :: pre), k', post.
    split_and!; [done|done|by constructor|]. rewrite Hq. simpl. lia.
Qed.

(** C10. Every call of [_get] makes at most six requests and ends with
    a value or an exception. A value it returns is the decoded answer
    of a pass that follows only retried ones, and the first such pass
    makes the call return. When five retried passes are followed by a
    caught transport or decoding error, that error is raised again
    after the sixth request. When all six passes are answered 429 the
    call ends with an exception: [RuntimeError "Unreachable"] or the
    [ValueError] of an unusable [Retry-After] after six requests, or,
    at the first [Retry-After] too large for [time.sleep], its
    [OverflowError] right after that request. *)
Theorem get_six_attempts_then_terminal (tok : string) :
  (requests (_get tok respond) ≤ 6)%nat
  ∧ ((∃ v, outcome (_get tok respond) = Ok v)
     ∨ (∃ e, outcome (_get tok respond) = Raise e))
  ∧ (∀ v, outcome (_get tok respond) = Ok v →
       ∃ k, (k < 6)%nat ∧ respond k = Parsed v
         ∧ (∀ j, (j < k)%nat → retried (respond j))
         ∧ requests (_get tok respond) = S k)
  ∧ (tok ≠ EmptyString →
     ∀ k a, (k < 6)%nat → respond k = Parsed a →
       (∀ j, (j < k)%nat → retried (respond j)) →
       outcome (_get tok respond) = Ok a
       ∧ requests (_get tok respond) = S k)
  ∧ (tok ≠ EmptyString →
     ∀ e, respond 5%nat = Raised e → caught e = true →
       (∀ j, (j < 5)%nat → retried (respond j)) →
       outcome (_get tok respond) = Raise e
       ∧ requests (_get tok respond) = 6%nat)
  ∧ (tok ≠ EmptyString →
     (∀ j, (j < 6)%nat → ∃ h, respond j = RateLimited h) →
     ((∀ j, (j < 6)%nat → retried (respond j)) →
      (outcome (_get tok respond) = Raise (RuntimeError "Unreachable")
       ∨ outcome (_get tok respond) = Raise ValueError)
      ∧ requests (_get tok respond) = 6%nat)
     ∧ (∀ k, (k < 6)%nat → ¬ retried (respond k) →
        (∀ j, (j < k)%nat → retried (respond j)) →
        outcome (_get tok respond) = Raise OverflowError
        ∧ requests (_get tok respond) = S k)).
Proof.
  split_and!.
  - unfold _get. destruct (_require_token tok); [|simpl; lia].
    apply (get_loop_requests_le (seq 0 6) 1 0 []).
  - destruct (outcome _); eauto.
  - intros v Hv. unfold _get in *. destruct (_require_token tok); [|done].
    apply get_loop_Ok in Hv as (pre & k & post & Hseq & Hp & Hpre & Hq);
      [|apply Forall_forall; intros j Hj%elem_of_seq; lia|lra].
    assert (∀ j, (j < length pre)%nat → pre !! j = Some j) as Hpre_j.
    { intros j Hj.
      assert (seq 0 6 !! j = Some j) as Hs by (apply lookup_seq; simpl in *;
        apply (f_equal length) in Hseq; rewrite length_app in Hseq;
        simpl in Hseq; lia).
      rewrite Hseq, lookup_app_l in Hs by done. done. }
    assert (k = length pre) as Hk.
    { assert (seq 0 6 !! length pre = Some k) as Hs
        by (rewrite Hseq; apply list_lookup_middle; done).
      apply lookup_seq in Hs. lia. }
    exists k. apply (f_equal length) in Hseq as Hlen.
    rewrite length_app in Hlen. simpl in Hlen.
    split_and!; [lia|done| |rewrite Hq; lia].
    intros j Hj. eapply (proj1 (Forall_lookup _ _) Hpre j). apply Hpre_j. lia.
  - intros Htok k a Hk Hp Hr.
    destruct (get_from_start tok k Htok Hk Hr) as (b' & log' & Hb' & Hlen & ->).
    rewrite (get_loop_stops_at _ _ _ _ _ (Return a)) by (by rewrite Hp).
    done.
  - intros Htok e He Hc Hr. by apply get_last_error.
  - intros Htok Hall. split.
    + intros Hr.
      destruct (get_from_start tok 5 Htok) as (b' & log' & Hb' & Hlen & ->);
        [lia|intros j Hj; apply Hr; lia|].
      pose proof (loop_body_last _ b' (Hr 5%nat ltac:(lia)) Hb') as Hl.
      destruct (Hall 5%nat) as [h Hh]; [lia|]. rewrite Hh in Hl.
      destruct Hl as [Hl|(b2 & sl & Hl)]; rewrite <- Hh in Hl.
      * rewrite (get_loop_stops_at _ _ _ _ _ _ Hl). auto.
      * rewrite (get_loop_stops_at _ _ _ _ _ _ Hl). simpl. auto.
    + intros k Hk Hnr Hr.
      destruct (get_from_start tok k Htok Hk Hr) as (b' & log' & Hb' & Hlen & ->).
      rewrite (get_loop_stops_at _ _ _ _ _ _ (loop_body_not_retried _ k b' Hnr)).
      destruct (Hall k Hk) as [h ->]. done.
Qed.

End GatewayFacts.

(** The theorem at an endpoint that answers 429 six times, and at one
    whose first [Retry-After] is too large to sleep. *)
Lemma get_six_attempts_then_terminal_witness :
  let respond := λ _ : nat, Gateway.RateLimited (A := unit) Gateway.NoHeader in
  let greedy := λ _ : nat,
    Gateway.RateLimited (A := unit) (Gateway.Seconds 10000000000) in
  (Gateway.outcome (Gateway._get "token" respond) = Raise (RuntimeError "Unreachable")
   ∧ Gateway.requests (Gateway._get "token" respond) = 6%nat
   ∧ Gateway.slept (Gateway._get "token" respond) = [1; 2; 4; 8; 16; 20]%Q)
  ∧ (Gateway.outcome (Gateway._get "token" greedy) = Raise OverflowError
     ∧ Gateway.requests (Gateway._get "token" greedy) = 1%nat).
Proof.
  intros respond greedy. split.
  - destruct (get_six_attempts_then_terminal respond "token")
      as (_ & _ & _ & _ & _ & Hall).
    destruct Hall as [Hq _]; [discriminate | intros j _; by exists Gateway.NoHeader |].
    destruct Hq as [_ Hq]; [intros j _; exact I|].
    split; [vm_compute; reflexivity|]. split; [exact Hq | vm_compute; reflexivity].
  - destruct (get_six_attempts_then_terminal greedy "token")
      as (_ & _ & _ & _ & _ & Hall).
    destruct Hall as [_ Hov]; [discriminate | intros j _; by eexists |].
    apply (Hov 0%nat); [lia| |intros j Hj; lia].
    intros Hr. apply Hr. vm_compute. reflexivity.
Defined.

(** ** Shifting a date along the trading calendar *)

Section CalendarFacts.
Import Calendar.

Lemma sorted_perm cal : sorted cal ≡ₚ cal.
Proof. apply merge_sort_Permutation. Qed.

Lemma sorted_strongly cal : StronglySorted Z.le (sorted cal).
Proof. apply StronglySorted_merge_sort; apply _. Qed.

Lemma sorted_elem_of cal x : x ∈ sorted cal ↔ x ∈ cal.
Proof. by rewrite sorted_perm. Qed.

Lemma sorted_length cal : length (sorted cal) = length cal.
Proof. by rewrite sorted_perm. Qed.

Lemma sorted_NoDup cal : NoDup cal → NoDup (sorted cal).
Proof. by rewrite sorted_perm. Qed.

Lemma strongly_lookup_le (l : list date) i j x y :
  StronglySorted Z.le l → (i ≤ j)%nat →
  l !! i = Some x → l !! j = Some y → x ≤ y.
Proof.
  intros Hs. revert i j. induction Hs as [|a l Hs IH Hall]; intros i j Hij Hi Hj.
  - by rewrite lookup_nil in Hi.
  - destruct i as [|i], j as [|j]; simpl in *; simplify_eq; try lia.
    + rewrite Forall_forall in Hall. apply Hall. by eapply list_elem_of_lookup_2.
    + eapply IH; [|done..]. lia.
Qed.

Lemma strongly_lookup_lt (l : list date) i j x y :
  StronglySorted Z.le l → NoDup l → (i < j)%nat →
  l !! i = Some x → l !! j = Some y → x < y.
Proof.
  intros Hs Hnd Hij Hi Hj.
  assert (x ≤ y) by (eapply (strongly_lookup_le l i j); [done|lia|done..]).
  destruct (decide (x = y)) as [->|]; [|lia].
  assert (i = j) by (eapply NoDup_lookup; done). lia.
Qed.

Lemma index_lookup x (l : list date) i : index x l = Some i → l !! i = Some x.
Proof.
  revert i. induction l as [|y l IH]; intros i; simpl; [done|].
  destruct (Z.eq_dec y x) as [->|]; [by intros [= <-]|].
  destruct (index x l) as [i'|]; simpl; [|done].
  intros [= <-]. by apply IH.
Qed.

Lemma index_is_Some x (l : list date) : x ∈ l → is_Some (index x l).
Proof.
  induction l as [|y l IH]; [by intros ?%elem_of_nil|].
  intros Hx. simpl. destruct (Z.eq_dec y x); [by eexists|].
  apply elem_of_cons in Hx as [->|Hx]; [done|].
  destruct (IH Hx) as [i ->]. by eexists.
Qed.

Lemma base_of_Some d cal b :
  base_of d cal = Some b ↔
  b ∈ cal ∧ b ≤ d ∧ ∀ c, c ∈ cal → c ≤ d → c ≤ b.
Proof.
  unfold base_of. split.
  - intros Hl. pose proof (last_Some_elem_of _ _ Hl) as Hin.
    apply list_elem_of_filter in Hin as [Hle Hin].
    split; [by apply (proj1 (sorted_elem_of _ _))|]. split; [done|].
    intros c Hc Hcd. apply (proj2 (sorted_elem_of _ _)) in Hc.
    apply last_filter_Some in Hl as (l1 & l2 & Heq & Hl2).
    pose proof (sorted_strongly cal) as Hs. rewrite Heq in Hs, Hc.
    apply elem_of_app in Hc as [Hc|Hc].
    + eapply (StronglySorted_app_1_elem_of Z.le l1 (b :: l2)); [done..|left].
    + apply elem_of_cons in Hc as [->|Hc]; [lia|].
      rewrite Forall_forall in Hl2. by destruct (Hl2 c Hc).
  - intros (Hin & Hle & Hmax).
    assert (b ∈ filter (λ c, c ≤ d) (sorted cal)) as Hb.
    { apply list_elem_of_filter. split; [done|by apply (proj2 (sorted_elem_of _ _))]. }
    destruct (list.last (filter (λ c, c ≤ d) (sorted cal))) as [m|] eqn:Hl.
    + pose proof (last_Some_elem_of _ _ Hl) as Hm.
      apply list_elem_of_filter in Hm as [Hmd Hm]. apply (proj1 (sorted_elem_of _ _)) in Hm.
      assert (m ≤ b) by (by apply Hmax).
      assert (b ≤ m); [|f_equal; lia].
      apply last_Some in Hl as [l' Hl']. rewrite Hl' in Hb.
      apply elem_of_app in Hb as [Hb|Hb].
      * assert (StronglySorted Z.le (l' ++ [m])) as Hs.
        { rewrite <-Hl'. clear. induction (sorted_strongly cal) as [|a l Hs IH Hall].
          - constructor.
          - rewrite filter_cons. case_decide; [|done].
            constructor; [done|]. rewrite Forall_forall in *.
            intros y [_ Hy]%list_elem_of_filter. by apply Hall. }
        eapply (StronglySorted_app_1_elem_of Z.le l' [m]); [done..|left].
      * apply list_elem_of_singleton in Hb as ->. lia.
    + apply last_None in Hl. rewrite Hl in Hb. by apply elem_of_nil in Hb.
Qed.

Lemma base_of_None d cal : base_of d cal = None ↔ ∀ c, c ∈ cal → d < c.
Proof.
  unfold base_of. rewrite last_None. split.
  - intros Hnil c Hc. destruct (decide (c ≤ d)) as [Hle|]; [|lia].
    assert (c ∈ filter (λ c, c ≤ d) (sorted cal)) as Hin.
    { apply list_elem_of_filter. split; [done|by apply (proj2 (sorted_elem_of _ _))]. }
    rewrite Hnil in Hin. by apply elem_of_nil in Hin.
  - intros Hall. destruct (filter _ _) as [|c l] eqn:Hf; [done|].
    assert (c ∈ filter (λ c, c ≤ d) (sorted cal)) as Hin by (rewrite Hf; left).
    apply list_elem_of_filter in Hin as [Hle Hin]. apply (proj1 (sorted_elem_of _ _)) in Hin.
    specialize (Hall c Hin). lia.
Qed.

(** The function without its redundant first test. *)
Lemma shift_unfold d k cal :
  shift_trading_day_with_calendar d k cal =
  match base_of d cal with
  | None => None
  | Some base =>
    match index base (sorted cal) with
    | None => None
    | Some idx =>
      if decide (Z.of_nat idx + k < 0 ∨ Z.of_nat (length (sorted cal)) ≤ Z.of_nat idx + k)
      then None else sorted cal !! Z.to_nat (Z.of_nat idx + k)
    end
  end.
Proof. unfold shift_trading_day_with_calendar, base_of. by destruct cal. Qed.

Lemma shift_Some d k cal x :
  shift_trading_day_with_calendar d k cal = Some x ↔
  ∃ base idx, base_of d cal = Some base
    ∧ index base (sorted cal) = Some idx
    ∧ 0 ≤ Z.of_nat idx + k
    ∧ sorted cal !! Z.to_nat (Z.of_nat idx + k) = Some x.
Proof.
  rewrite shift_unfold. split.
  - destruct (base_of d cal) as [b|]; [|done].
    destruct (index b (sorted cal)) as [idx|] eqn:Hi; [|done].
    case_decide; [done|]. intros Hx. exists b, idx. split_and!; [done..|lia|done].
  - intros (b & idx & -> & -> & Hk & Hx).
    pose proof (lookup_lt_Some _ _ _ Hx). case_decide; [lia|done].
Qed.

Lemma shift_zero d cal b :
  shift_trading_day_with_calendar d 0 cal = Some b ↔ base_of d cal = Some b.
Proof.
  rewrite shift_Some. split.
  - intros (b' & idx & Hb & Hi & _ & Hx).
    apply index_lookup in Hi. rewrite Z.add_0_r, Nat2Z.id in Hx. congruence.
  - intros Hb. pose proof Hb as Hin. apply base_of_Some in Hin as [Hin _].
    apply (proj2 (sorted_elem_of _ _)), index_is_Some in Hin as [idx Hi].
    exists b, idx. repeat split; [done..|lia|].
    rewrite Z.add_0_r, Nat2Z.id. by apply index_lookup.
Qed.

(** C4. On a non-empty calendar, offset 0 gives the reference date when
    it is a trading day and otherwise the latest trading day before it;
    the answer is [None], with no exception, when no trading day is on
    or before the reference date and when the index of the base plus the
    offset is outside the calendar. *)
Theorem shift_zero_offset_or_not_found (cal : list date) (d : date) :
  cal ≠ [] →
  (d ∈ cal → shift_trading_day_with_calendar d 0 cal = Some d)
  ∧ (d ∉ cal → ∀ m, m ∈ cal → m ≤ d → (∀ c, c ∈ cal → c ≤ d → c ≤ m) →
       shift_trading_day_with_calendar d 0 cal = Some m)
  ∧ ((∀ c, c ∈ cal → d < c) →
       ∀ k, shift_trading_day_with_calendar d k cal = None)
  ∧ (∀ base idx k,
       shift_trading_day_with_calendar d 0 cal = Some base →
       index base (sorted cal) = Some idx →
       Z.of_nat idx + k < 0 ∨ Z.of_nat (length cal) ≤ Z.of_nat idx + k →
       shift_trading_day_with_calendar d k cal = None).
Proof.
  intros _. repeat split.
  - intros Hd. apply shift_zero, base_of_Some. repeat split; [done|lia|auto].
  - intros _ m Hm Hmd Hmax. apply shift_zero, base_of_Some. auto.
  - intros Hall k. rewrite shift_unfold.
    by apply base_of_None in Hall as ->.
  - intros base idx k Hb Hi Hout. apply shift_zero in Hb.
    rewrite shift_unfold, Hb, Hi, sorted_length. by case_decide.
Qed.

Lemma shift_zero_offset_or_not_found_witness :
  let cal := [739925; 739922; 739923; 739929] in
  shift_trading_day_with_calendar 739923 0 cal = Some 739923
  ∧ shift_trading_day_with_calendar 739927 0 cal = Some 739925
  ∧ shift_trading_day_with_calendar 739920 1 cal = None
  ∧ shift_trading_day_with_calendar 739927 2 cal = None.
Proof.
  intros cal.
  destruct (shift_zero_offset_or_not_found cal 739923) as (H1 & _); [done|].
  destruct (shift_zero_offset_or_not_found cal 739927) as (_ & H2 & _ & H4); [done|].
  destruct (shift_zero_offset_or_not_found cal 739920) as (_ & _ & H3 & _); [done|].
  assert (shift_trading_day_with_calendar 739927 0 cal = Some 739925) as Hbase.
  { apply H2.
    - compute_done.
    - compute_done.
    - lia.
    - apply (proj1 (Forall_forall (λ c, c ≤ 739927 → c ≤ 739925) cal)).
      compute_done. }
  split; [apply H1; compute_done|].
  split; [exact Hbase|].
  split.
  - apply H3. apply (proj1 (Forall_forall (λ c, 739920 < c) cal)). compute_done.
  - apply (H4 739925 2%nat 2); [exact Hbase|vm_compute; reflexivity|right; simpl; lia].
Defined.

(** A resolved shift is a calendar date; backwards it is not after the
    reference date, forwards it is not before the base. *)
Lemma shift_elem_of d k cal x :
  shift_trading_day_with_calendar d k cal = Some x → x ∈ cal.
Proof.
  intros (b & idx & _ & _ & _ & Hx)%shift_Some.
  apply (proj1 (sorted_elem_of _ _)). by eapply list_elem_of_lookup_2.
Qed.

Lemma shift_back_le d k cal x :
  k ≤ 0 → shift_trading_day_with_calendar d k cal = Some x → x ≤ d.
Proof.
  intros Hk (b & idx & Hb & Hi & Hk0 & Hx)%shift_Some.
  apply base_of_Some in Hb as (_ & Hbd & _). apply index_lookup in Hi.
  assert (x ≤ b); [|lia].
  eapply (strongly_lookup_le (sorted cal)); [apply sorted_strongly| |done..]. lia.
Qed.

Lemma shift_forward_ge_base d k cal x b :
  0 ≤ k → shift_trading_day_with_calendar d k cal = Some x →
  base_of d cal = Some b → b ≤ x.
Proof.
  intros Hk (b' & idx & Hb & Hi & Hk0 & Hx)%shift_Some Hb'.
  assert (b' = b) as -> by congruence. apply index_lookup in Hi.
  eapply (strongly_lookup_le (sorted cal)); [apply sorted_strongly| |done..]. lia.
Qed.

Lemma shift_forward_gt d k cal x :
  NoDup cal → 0 < k →
  shift_trading_day_with_calendar d k cal = Some x → d < x.
Proof.
  intros Hnd Hk Hs. pose proof (shift_elem_of _ _ _ _ Hs) as Hin.
  apply shift_Some in Hs as (b & idx & Hb & Hi & Hk0 & Hx).
  apply index_lookup in Hi.
  assert (b < x).
  { eapply (strongly_lookup_lt (sorted cal));
      [apply sorted_strongly|by apply sorted_NoDup| |done..]. lia. }
  apply base_of_Some in Hb as (_ & _ & Hmax).
  destruct (decide (x ≤ d)) as [Hle|]; [|lia].
  specialize (Hmax x Hin Hle). lia.
Qed.

Lemma build_trading_calendar_NoDup s e hol :
  NoDup (build_trading_calendar s e hol).
Proof.
  unfold build_trading_calendar, bdate_range.
  do 2 apply NoDup_filter. apply NoDup_seqZ.
Qed.

Lemma build_trading_calendar_elem_of s e hol d :
  d ∈ build_trading_calendar s e hol ↔
  s ≤ d ≤ e ∧ weekday d < 5 ∧ d ∉ hol.
Proof.
  unfold build_trading_calendar, bdate_range.
  rewrite !list_elem_of_filter, elem_of_seqZ. intuition lia.
Qed.

End CalendarFacts.

(** ** Scoring: normalisation, weights and ranking *)

Section ScorerFacts.
Import Gateway Scorer.
Local Open Scope Q_scope.

Lemma fold_Qmin_bounds xs a :
  fold_left Qmin xs a <= a ∧ Forall (λ x, fold_left Qmin xs a <= x) xs.
Proof.
  revert a. induction xs as [|y ys IH]; intros a; simpl.
  - split; [lra|constructor].
  - destruct (IH (Qmin a y)) as [Ha Hall].
    pose proof (Q.le_min_l a y). pose proof (Q.le_min_r a y).
    split; [lra|]. constructor; [lra|done].
Qed.

Lemma fold_Qmax_bounds xs a :
  a <= fold_left Qmax xs a ∧ Forall (λ x, x <= fold_left Qmax xs a) xs.
Proof.
  revert a. induction xs as [|y ys IH]; intros a; simpl.
  - split; [lra|constructor].
  - destruct (IH (Qmax a y)) as [Ha Hall].
    pose proof (Q.le_max_l a y). pose proof (Q.le_max_r a y).
    split; [lra|]. constructor; [lra|done].
Qed.

Lemma fold_Qmin_attained xs a :
  Exists (λ x, fold_left Qmin xs a == x) (a :: xs).
Proof.
  revert a. induction xs as [|y ys IH]; intros a; simpl.
  - left. reflexivity.
  - specialize (IH (Qmin a y)). apply Exists_cons in IH as [Hm|Hys].
    + destruct (Q.min_spec a y) as [[_ Heq]|[_ Heq]].
      * left. lra.
      * right. left. lra.
    + right. by right.
Qed.

Lemma fold_Qmax_attained xs a :
  Exists (λ x, fold_left Qmax xs a == x) (a :: xs).
Proof.
  revert a. induction xs as [|y ys IH]; intros a; simpl.
  - left. reflexivity.
  - specialize (IH (Qmax a y)). apply Exists_cons in IH as [Hm|Hys].
    + destruct (Q.max_spec a y) as [[_ Heq]|[_ Heq]].
      * right. left. lra.
      * left. lra.
    + right. by right.
Qed.

Lemma normalize_length series : length (normalize series) = length series.
Proof.
  destruct series as [|x xs]; [done|]. unfold normalize.
  destruct (Qeq_bool _ _); by rewrite length_map.
Qed.

(** What [normalize] puts at each position of a series. *)
Lemma normalize_lookup series i v :
  series !! i = Some v →
  ∃ smin smax, is_min smin series ∧ is_max smax series
    ∧ normalize series !! i
      = Some (if Qeq_bool (smax - smin) 0 then 1 else (v - smin) / (smax - smin)).
Proof.
  destruct series as [|x xs]; [by rewrite lookup_nil|]. intros Hi.
  exists (fold_left Qmin xs x), (fold_left Qmax xs x).
  destruct (fold_Qmin_bounds xs x) as [? ?], (fold_Qmax_bounds xs x) as [? ?].
  split; [split; [by constructor|apply fold_Qmin_attained]|].
  split; [split; [by constructor|apply fold_Qmax_attained]|].
  unfold normalize. destruct (Qeq_bool _ _);
    by rewrite list_lookup_fmap, Hi.
Qed.

Lemma is_min_max_constant smin smax series :
  is_min smin series → is_max smax series →
  (∀ x y, x ∈ series → y ∈ series → x == y) →
  Qeq_bool (smax - smin) 0 = true.
Proof.
  intros [_ Hmin] [_ Hmax] Hconst. apply Qeq_bool_iff.
  apply Exists_exists in Hmin as (a & Ha & Hmin).
  apply Exists_exists in Hmax as (b & Hb & Hmax).
  specialize (Hconst a b Ha Hb). lra.
Qed.

Lemma frame_lookup base Sr Yn Ln Sn wYn wLn wSn i r :
  length Sr = length base → length Yn = length base →
  length Ln = length base → length Sn = length base →
  frame base Sr Yn Ln Sn wYn wLn wSn !! i = Some r ↔
  ∃ c s y l sn,
    base !! i = Some c ∧ Sr !! i = Some s ∧ Yn !! i = Some y
    ∧ Ln !! i = Some l ∧ Sn !! i = Some sn
    ∧ r = mkScored c s y l sn (wYn * y + wLn * l + wSn * sn).
Proof.
  revert Sr Yn Ln Sn i.
  induction base as [|c base IH]; intros [|s Sr] [|y Yn] [|l Ln] [|sn Sn] i;
    simpl; try done.
  - split; [by rewrite lookup_nil|]. by intros (?&?&?&?&?&?&_).
  - intros [=] [=] [=] [=]. destruct i as [|i]; simpl.
    + split; [intros [= <-]; by eexists _,_,_,_,_|].
      by intros (?&?&?&?&?&[= <-]&[= <-]&[= <-]&[= <-]&[= <-]&->).
    + by apply IH.
Qed.

Lemma frame_length base Sr Yn Ln Sn wYn wLn wSn :
  length Sr = length base → length Yn = length base →
  length Ln = length base → length Sn = length base →
  length (frame base Sr Yn Ln Sn wYn wLn wSn) = length base.
Proof.
  revert Sr Yn Ln Sn.
  induction base as [|c base IH]; intros [|s Sr] [|y Yn] [|l Ln] [|sn Sn];
    simpl; try done.
  intros [=] [=] [=] [=]. f_equal. by apply IH.
Qed.

(** Row [i] of the scored frame in terms of row [i] of [base]. *)
Lemma score_frame_lookup today la wY wL wS base i r :
  score_frame today la wY wL wS base !! i = Some r ↔
  ∃ c y l sn,
    base !! i = Some c
    ∧ normalize (map dividend_yield base) !! i = Some y
    ∧ normalize (map avgvol base) !! i = Some l
    ∧ normalize (map (λ c, score_S today la (ex_date c)) base) !! i = Some sn
    ∧ r = mkScored c (score_S today la (ex_date c)) y l sn
            (wY / w_sum wY wL wS * y + wL / w_sum wY wL wS * l
             + wS / w_sum wY wL wS * sn).
Proof.
  unfold score_frame.
  rewrite frame_lookup by (by rewrite ?normalize_length, ?length_map).
  split.
  - intros (c & s & y & l & sn & Hc & Hs & Hy & Hl & Hsn & ->).
    rewrite list_lookup_fmap, Hc in Hs. injection Hs as <-.
    by exists c, y, l, sn.
  - intros (c & y & l & sn & Hc & Hy & Hl & Hsn & ->).
    exists c, (score_S today la (ex_date c)), y, l, sn.
    by rewrite list_lookup_fmap, Hc.
Qed.

Lemma score_frame_length today la wY wL wS base :
  length (score_frame today la wY wL wS base) = length base.
Proof.
  unfold score_frame.
  by rewrite frame_length by (by rewrite ?normalize_length, ?length_map).
Qed.

Lemma score_frame_S_raw today la wY wL wS base :
  map S_raw (score_frame today la wY wL wS base)
  = map (λ c, score_S today la (ex_date c)) base.
Proof.
  apply list_eq. intros i. rewrite !list_lookup_fmap.
  destruct (score_frame today la wY wL wS base !! i) as [r|] eqn:Hr.
  - apply score_frame_lookup in Hr as (c & y & l & sn & -> & _ & _ & _ & ->).
    done.
  - apply lookup_ge_None in Hr. rewrite score_frame_length in Hr.
    apply lookup_ge_None in Hr. by rewrite Hr.
Qed.

Lemma build_scored_candidates_Ok sort w ex min_div min_avgvol topk la wY wL wS rows :
  build_scored_candidates sort w ex min_div min_avgvol topk la wY wL wS = Ok rows ↔
  screener_etfs w ex min_div min_avgvol ≠ []
  ∧ rows = df_head topk (sort (scored_base w ex min_div min_avgvol la wY wL wS)).
Proof.
  unfold build_scored_candidates, scored_base.
  destruct (screener_etfs w ex min_div min_avgvol) as [|c base]; split.
  - done.
  - by intros [? _].
  - intros [= <-]. done.
  - intros [_ ->]. done.
Qed.

Lemma build_scored_candidates_Raise sort w ex min_div min_avgvol topk la wY wL wS e :
  build_scored_candidates sort w ex min_div min_avgvol topk la wY wL wS = Raise e ↔
  screener_etfs w ex min_div min_avgvol = [] ∧ e = RuntimeError "筛选结果为空。".
Proof.
  unfold build_scored_candidates.
  destruct (screener_etfs w ex min_div min_avgvol) as [|c base]; split.
  - by intros [= <-].
  - by intros [_ ->].
  - done.
  - by intros [? _].
Qed.

Lemma df_head_subseteq {A} n (rows : list A) : df_head n rows ⊆ rows.
Proof. unfold df_head. case_decide; apply subseteq_take. Qed.

Lemma Sorted_take {A} (R : relation A) n (l : list A) :
  Sorted R l → Sorted R (take n l).
Proof.
  intros Hs. revert n. induction Hs as [|x l Hs IH Hd]; intros [|n]; simpl;
    try constructor.
  - apply IH.
  - destruct Hd as [|y l' Hxy]; destruct n; simpl; by constructor.
Qed.

Lemma df_head_descending n rows : descending rows → descending (df_head n rows).
Proof. unfold df_head, descending. case_decide; apply Sorted_take. Qed.

(** The rows of a ranking are rows of the scored frame. *)
Lemma ranked_elem_of_base sort w ex min_div min_avgvol topk la wY wL wS rows r :
  sort_contract sort →
  build_scored_candidates sort w ex min_div min_avgvol topk la wY wL wS = Ok rows →
  r ∈ rows → r ∈ scored_base w ex min_div min_avgvol la wY wL wS.
Proof.
  intros Hsort [_ ->]%build_scored_candidates_Ok Hr.
  apply df_head_subseteq in Hr. destruct (Hsort (scored_base w ex min_div min_avgvol la wY wL wS)) as [Hp _].
  by rewrite Hp in Hr.
Qed.

Global Instance score_ge_total : Total score_ge.
Proof.
  intros a b. unfold score_ge.
  destruct (Qlt_le_dec (Score a) (Score b)); [right|left]; lra.
Qed.

Lemma merge_sort_desc_contract : sort_contract merge_sort_desc.
Proof.
  intros rows. split; [apply merge_sort_Permutation|].
  apply (Sorted_merge_sort score_ge).
Qed.

Lemma insert_by_score_Permutation tie x l : insert_by_score tie x l ≡ₚ x :: l.
Proof.
  induction l as [|y l IH]; simpl; [done|].
  destruct (Qlt_le_dec _ _); [done|]. destruct (_ && _); [done|].
  rewrite IH. constructor.
Qed.

Lemma insert_by_score_descending tie x l :
  descending l → descending (insert_by_score tie x l).
Proof.
  unfold descending.
  induction l as [|y l IH]; intros Hs; simpl; [by repeat constructor|].
  apply Sorted_inv in Hs as [Hs Hhd].
  destruct (Qlt_le_dec (Score y) (Score x)) as [Hlt|Hle].
  { constructor; [by constructor|]. constructor. lra. }
  destruct (Qeq_bool (Score x) (Score y) && tie x y) eqn:Htie.
  { apply andb_true_iff in Htie as [Heq%Qeq_bool_iff _].
    constructor; [by constructor|]. constructor. lra. }
  constructor; [by apply IH|].
  destruct l as [|z l]; simpl; [by constructor|].
  apply HdRel_inv in Hhd.
  destruct (Qlt_le_dec (Score z) (Score x)); [by constructor|].
  destruct (Qeq_bool (Score x) (Score z) && tie x z); by constructor.
Qed.

(** Whatever the tie-breaker, the sort returns the rows of the frame
    in descending order of score. *)
Lemma sort_by_score_contract tie : sort_contract (sort_by_score tie).
Proof.
  intros rows. unfold sort_by_score.
  induction rows as [|x rows [IHp IHs]]; simpl; [by split; [|constructor]|].
  split; [by rewrite insert_by_score_Permutation, IHp|].
  by apply insert_by_score_descending.
Qed.

Lemma score_frame_cand today la wY wL wS base :
  map Scorer.cand (Scorer.score_frame today la wY wL wS base) = base.
Proof.
  apply list_eq. intros i. rewrite list_lookup_fmap.
  destruct (Scorer.score_frame today la wY wL wS base !! i) as [r|] eqn:Hr.
  - by apply score_frame_lookup in Hr as (c & y & l & sn & -> & _ & _ & _ & ->).
  - apply lookup_ge_None in Hr. rewrite score_frame_length in Hr.
    apply lookup_ge_None in Hr. by rewrite Hr.
Qed.

Lemma df_head_length {A} n (rows : list A) :
  length (df_head n rows)
  = if decide (0 ≤ n)%Z then Nat.min (Z.to_nat n) (length rows)
    else (length rows - Z.to_nat (- n))%nat.
Proof. unfold df_head. case_decide; rewrite length_take; lia. Qed.

Lemma df_head_rest {A} n (rows : list A) : ∃ rest, df_head n rows ++ rest = rows.
Proof. unfold df_head. case_decide; eexists; apply take_drop. Qed.

Lemma ranked_length sort w ex min_div min_avgvol topk la wY wL wS rows :
  sort_contract sort →
  build_scored_candidates sort w ex min_div min_avgvol topk la wY wL wS = Ok rows →
  length rows
  = (if decide (0 ≤ topk)%Z
     then Nat.min (Z.to_nat topk) (length (screener_etfs w ex min_div min_avgvol))
     else (length (screener_etfs w ex min_div min_avgvol) - Z.to_nat (- topk))%nat).
Proof.
  intros Hsort [_ ->]%build_scored_candidates_Ok.
  destruct (Hsort (scored_base w ex min_div min_avgvol la wY wL wS)) as [Hp _].
  rewrite df_head_length, (Permutation_length Hp). unfold scored_base.
  by rewrite score_frame_length, length_map.
Qed.

End ScorerFacts.

Section RankingTheorems.
Import Gateway Scorer.
Local Open Scope Q_scope.

(** The composite score of a ranked row is the weighted sum of its
    three normalised columns. *)
Lemma ranked_row_score sort w ex min_div min_avgvol topk la wY wL wS rows r :
  sort_contract sort →
  build_scored_candidates sort w ex min_div min_avgvol topk la wY wL wS = Ok rows →
  r ∈ rows →
  Score r = wY / w_sum wY wL wS * Y_n r + wL / w_sum wY wL wS * L_n r
            + wS / w_sum wY wL wS * S_n r.
Proof.
  intros Hsort Hok Hr.
  pose proof (ranked_elem_of_base _ _ _ _ _ _ _ _ _ _ _ _ Hsort Hok Hr) as Hb.
  apply list_elem_of_lookup in Hb as [i Hi]. unfold scored_base in Hi.
  by apply score_frame_lookup in Hi as (c & y & l & sn & _ & _ & _ & _ & ->).
Qed.

(** The proximity columns of a row of the scored frame. *)
Lemma scored_row_proximity w ex min_div min_avgvol la wY wL wS r :
  let base := scored_base w ex min_div min_avgvol la wY wL wS in
  let ws := w_sum wY wL wS in
  r ∈ base →
  S_raw r = score_S (today w) la (ex_date (cand r))
  ∧ (∃ smin smax, is_min smin (map S_raw base) ∧ is_max smax (map S_raw base)
       ∧ S_n r = if Qeq_bool (smax - smin) 0 then 1
                 else (S_raw r - smin) / (smax - smin))
  ∧ Score r = wY / ws * Y_n r + wL / ws * L_n r + wS / ws * S_n r
  ∧ ((∀ a b, a ∈ base → b ∈ base → S_raw a == S_raw b) → S_n r = 1).
Proof.
  intros base ws Hb. apply list_elem_of_lookup in Hb as [i Hi].
  pose proof Hi as Hrow. unfold base, scored_base in Hrow.
  apply score_frame_lookup in Hrow as (c & y & l & sn & Hc & Hy & Hl & Hsn & ->).
  assert (map S_raw base !! i = Some (score_S (today w) la (ex_date c))) as Hs.
  { by rewrite list_lookup_fmap, Hi. }
  destruct (normalize_lookup _ _ _ Hs) as (smin & smax & Hmin & Hmax & Hn).
  assert (sn = if Qeq_bool (smax - smin) 0 then 1
               else (score_S (today w) la (ex_date c) - smin) / (smax - smin))
    as Hsn'.
  { unfold base, scored_base in Hn. rewrite score_frame_S_raw in Hn. congruence. }
  simpl. split; [done|]. split; [by exists smin, smax|]. split; [done|].
  intros Hall. rewrite Hsn'.
  rewrite (is_min_max_constant smin smax (map S_raw base)); [done..|].
  intros x y' (a & -> & Ha)%list_elem_of_fmap (b & -> & Hb)%list_elem_of_fmap.
  by apply Hall.
Qed.

(** C9. Every screened candidate is a row of the scored frame, and the
    ranking is made of rows of that frame, as many as [topk] allows.
    The proximity column that enters the composite score of a row is
    the min-max normalisation of the raw proximities of the whole
    frame: [(S - min) / (max - min)], and 1 when max and min coincide.
    So when all raw proximities are equal, and in particular when no
    candidate has an ex-date, every row has [S_n = 1] and its score is
    [wYn * Y_n + wLn * L_n + wSn * 1]. *)
Theorem proximity_is_min_max_normalized
    sort w ex min_div min_avgvol topk la wY wL wS rows :
  sort_contract sort →
  build_scored_candidates sort w ex min_div min_avgvol topk la wY wL wS = Ok rows →
  let screened := screener_etfs w ex min_div min_avgvol in
  let base := scored_base w ex min_div min_avgvol la wY wL wS in
  let ws := w_sum wY wL wS in
  (screened ≠ []
   ∧ map (λ r, ticker (cand r)) base = map ticker screened)
  ∧ (length rows
     = (if decide (0 ≤ topk)%Z
        then Nat.min (Z.to_nat topk) (length screened)
        else (length screened - Z.to_nat (- topk))%nat)
     ∧ ∀ r, r ∈ rows → r ∈ base)
  ∧ Forall (λ r,
      S_raw r = score_S (today w) la (ex_date (cand r))
      ∧ (∃ smin smax, is_min smin (map S_raw base) ∧ is_max smax (map S_raw base)
           ∧ S_n r = if Qeq_bool (smax - smin) 0 then 1
                     else (S_raw r - smin) / (smax - smin))
      ∧ Score r = wY / ws * Y_n r + wL / ws * L_n r + wS / ws * S_n r) base
  ∧ ((∀ a b, a ∈ base → b ∈ base → S_raw a == S_raw b) →
     Forall (λ r, S_n r = 1
                  ∧ Score r = wY / ws * Y_n r + wL / ws * L_n r + wS / ws * 1)
            base)
  ∧ ((∀ a, a ∈ base → ex_date (cand a) = None) →
     Forall (λ r, S_raw r = 0 ∧ S_n r = 1) base).
Proof.
  intros Hsort Hok screened base ws. split_and!.
  - by apply build_scored_candidates_Ok in Hok as [? _].
  - unfold base, scored_base.
    rewrite <- (map_map cand ticker), score_frame_cand, map_map. done.
  - by eapply ranked_length.
  - intros r Hr. by eapply ranked_elem_of_base.
  - apply Forall_forall. intros r Hr.
    destruct (scored_row_proximity w ex min_div min_avgvol la wY wL wS r Hr)
      as (? & ? & ? & _).
    done.
  - intros Hall. apply Forall_forall. intros r Hr.
    destruct (scored_row_proximity w ex min_div min_avgvol la wY wL wS r Hr)
      as (_ & _ & Hscore & Hone).
    fold base in Hone. specialize (Hone Hall). split; [done|].
    by rewrite Hscore, Hone.
  - intros Hnone.
    assert (∀ a, a ∈ base → S_raw a = 0) as Hzero.
    { intros a Ha.
      destruct (scored_row_proximity w ex min_div min_avgvol la wY wL wS a Ha)
        as (-> & _).
      by rewrite (Hnone a Ha). }
    apply Forall_forall. intros r Hr. split; [by apply Hzero|].
    destruct (scored_row_proximity w ex min_div min_avgvol la wY wL wS r Hr)
      as (_ & _ & _ & Hone).
    apply Hone. intros a b Ha Hb. fold base in Ha, Hb.
    rewrite (Hzero a Ha), (Hzero b Hb). reflexivity.
Qed.

Lemma proximity_is_min_max_normalized_witness :
  ∃ rows,
    build_scored_candidates merge_sort_desc two_alike_world
      "US" 0.009 200000%Z 10%Z 90%Z 0.4 0.25 0.35 = Ok rows
    ∧ length rows = 2%nat
    ∧ Forall (λ r, S_raw r = 0 ∧ S_n r = 1) rows.
Proof.
  assert (∃ rows,
    build_scored_candidates merge_sort_desc two_alike_world
      "US" 0.009 200000%Z 10%Z 90%Z 0.4 0.25 0.35 = Ok rows) as [rows Hrows].
  { eexists. vm_compute. reflexivity. }
  exists rows. split; [exact Hrows|].
  destruct (proximity_is_min_max_normalized merge_sort_desc two_alike_world
              "US" 0.009 200000%Z 10%Z 90%Z 0.4 0.25 0.35 rows
              merge_sort_desc_contract Hrows)
    as (_ & (Hlen & Hsub) & _ & _ & Hnone).
  split; [rewrite Hlen; vm_compute; reflexivity|].
  apply Forall_forall. intros r Hr.
  refine (proj1 (Forall_forall _ _) (Hnone _) r (Hsub r Hr)).
  intros a Ha. clear - Ha. vm_compute in Ha.
  repeat (apply elem_of_cons in Ha as [->|Ha]); [reflexivity..|].
  inversion Ha.
Defined.

Lemma w_sum_zero wY wL wS :
  wY == 0 → wL == 0 → wS == 0 → w_sum wY wL wS == 1e-9.
Proof.
  intros HY HL HS. unfold w_sum. apply Q.max_l. rewrite HY, HL, HS.
  unfold Qle. simpl. lia.
Qed.

(** C1, as the code has it. With all three weights zero the weight sum
    is floored at [1e-9], the three normalised weights are zero, and
    every composite score of the ranking is zero; nothing is divided by
    zero, and a non-empty screening always yields a ranking. *)
Theorem zero_weights_give_zero_scores
    sort w ex min_div min_avgvol topk la wY wL wS :
  sort_contract sort →
  wY == 0 → wL == 0 → wS == 0 →
  (screener_etfs w ex min_div min_avgvol ≠ [] →
   ∃ rows, build_scored_candidates sort w ex min_div min_avgvol topk la wY wL wS
           = Ok rows)
  ∧ (∀ rows,
       build_scored_candidates sort w ex min_div min_avgvol topk la wY wL wS
       = Ok rows →
       Forall (λ r, Score r == 0) rows).
Proof.
  intros Hsort HY HL HS. split.
  - intros Hne. eexists. by apply build_scored_candidates_Ok.
  - intros rows Hok. apply Forall_forall. intros r Hr.
    rewrite (ranked_row_score sort w ex min_div min_avgvol
               topk la wY wL wS rows r Hsort Hok Hr).
    generalize (w_sum wY wL wS), (Y_n r), (L_n r), (S_n r). intros ws y l sn.
    rewrite HY, HL, HS. unfold Qdiv. ring.
Qed.

Lemma zero_weights_give_zero_scores_witness :
  ∃ rows,
    build_scored_candidates merge_sort_desc two_alike_world
      "US" 0.009 200000%Z 10%Z 90%Z 0 0 0 = Ok rows
    ∧ Forall (λ r, Score r == 0) rows.
Proof.
  destruct (zero_weights_give_zero_scores merge_sort_desc two_alike_world
              "US" 0.009 200000%Z 10%Z 90%Z 0 0 0 merge_sort_desc_contract)
    as [Hex Hall]; [reflexivity..|].
  destruct Hex as [rows Hrows]; [compute_done|].
  exists rows. split; [exact Hrows | exact (Hall rows Hrows)].
Defined.

(** C1 as stated fails: on two funds alike in every column all three
    sub-scores are 1, so their unweighted mean is 1, while zero weights
    give the composite score 0. *)
Lemma zero_weights_not_equal_weights :
  ∃ rows,
    build_scored_candidates merge_sort_desc two_alike_world
      "US" 0.009 200000%Z 10%Z 90%Z 0 0 0 = Ok rows
    ∧ rows ≠ []
    ∧ Forall (λ r, Score r == 0
                   ∧ (Y_n r + L_n r + S_n r) / 3 == 1
                   ∧ ¬ Score r == (1 # 3) * Y_n r + (1 # 3) * L_n r + (1 # 3) * S_n r)
             rows.
Proof.
  eexists. split; [vm_compute; reflexivity|]. split; [done|].
  repeat constructor; simpl; try reflexivity; intros H; vm_compute in H; lia.
Qed.

(** C6, as the code has it. Whatever the sort of the frame library does
    with rows of equal score, the ranking is in non-increasing order of
    the composite score and consists of the first [topk] rows of a
    reordering of the scored frame; the same inputs give the same
    ranking. *)
Theorem ranking_is_descending
    (tie : tie_breaker) w ex min_div min_avgvol topk la wY wL wS rows :
  build_scored_candidates (sort_by_score tie) w ex min_div min_avgvol
                          topk la wY wL wS = Ok rows →
  descending rows
  ∧ (∃ reordered,
       reordered ≡ₚ scored_base w ex min_div min_avgvol la wY wL wS
       ∧ rows = df_head topk reordered)
  ∧ (∀ rows',
       build_scored_candidates (sort_by_score tie) w ex min_div min_avgvol
                               topk la wY wL wS = Ok rows' → rows' = rows).
Proof.
  intros Hok. split_and!.
  - apply build_scored_candidates_Ok in Hok as [_ ->].
    apply df_head_descending, sort_by_score_contract.
  - apply build_scored_candidates_Ok in Hok as [_ ->].
    eexists. split; [apply sort_by_score_contract|done].
  - intros rows' Hok'. congruence.
Qed.

(** The ranking of the first five of the eight built-in funds. *)
Lemma ranking_is_descending_witness :
  ∃ rows,
    build_scored_candidates (sort_by_score (λ _ _, true)) outage_world
      "US" 0.009 200000%Z 5%Z 90%Z 0.4 0.25 0.35 = Ok rows
    ∧ map (λ r, ticker (cand r)) rows
      = ["SDIV.US"; "XYLD.US"; "JEPI.US"; "SCHD.US"; "VYM.US"]
    ∧ descending rows.
Proof.
  eexists. split; [vm_compute; reflexivity|]. split; [reflexivity|].
  eapply (ranking_is_descending (λ _ _, true) outage_world
            "US" 0.009 200000%Z 5%Z 90%Z 0.4 0.25 0.35).
  vm_compute. reflexivity.
Defined.

(** C6 as stated fails: the default sort of the frame is not a stable
    one. Twenty funds whose scores are 0, 0, 1, 1, 0, 0, 1, 1, ... make
    a frame too long for the insertion pass that leaves a short frame
    in order, and rows of equal score do not come out in their input
    order; with the tie-breaker that puts the later row first, the last
    fund of the frame is ranked in front of the one before it, which
    has the same score. *)
Lemma equal_scores_not_in_input_order :
  ∃ tie rows,
    build_scored_candidates (sort_by_score tie) twenty_world
        "US" 0.009 200000%Z 20%Z 90%Z 1 0 0 = Ok rows
    ∧ ¬ ties_in_input_order
          (scored_base twenty_world "US" 0.009 200000%Z 90%Z 1 0 0)
          rows.
Proof.
  exists (λ _ _, false). eexists.
  split; [vm_compute; reflexivity|].
  intros Hties.
  edestruct (Hties 0%nat 1%nat) as (i' & j' & Hi & Hj & Hlt);
    [reflexivity | reflexivity | lia | reflexivity |].
  set (base := scored_base twenty_world "US" 0.009 200000%Z 90%Z 1 0 0) in *.
  assert (NoDup (map (λ r, ticker (cand r)) base)) as Hnd.
  { apply (bool_decide_unpack _). vm_compute. exact I. }
  assert (i' = 19%nat) as ->.
  { eapply (NoDup_lookup _ _ _ _ Hnd); [|vm_compute; reflexivity].
    by rewrite list_lookup_fmap, Hi. }
  assert (j' = 18%nat) as ->.
  { eapply (NoDup_lookup _ _ _ _ Hnd); [|vm_compute; reflexivity].
    by rewrite list_lookup_fmap, Hj. }
  lia.
Qed.

End RankingTheorems.

(** ** The simulator's cash logic *)

Section SimulatorFacts.
Import Gateway Calendar Simulator.
Local Open Scope Q_scope.

Lemma Qle_bool_false x y : Qle_bool x y = false → y < x.
Proof.
  intros H. apply Qnot_le_lt. intros Hle.
  apply Qle_bool_iff in Hle. congruence.
Qed.



Lemma shares_of_ge_1 alloc_cash buy_px : 1 <= shares_of alloc_cash buy_px.
Proof. apply Q.le_max_l. Qed.

(** What a filled order says about its inputs. *)
Lemma decide_trade_Fill cash alloc topk b s a shares cost dc pr :
  decide_trade cash alloc topk b s a = Fill shares cost dc pr →
  shares = shares_of (alloc_cash_of cash alloc topk) b
  ∧ cost = shares * b ∧ dc = a * shares ∧ pr = shares * s
  ∧ 0 < alloc_cash_of cash alloc topk ∧ ¬ b == 0
  ∧ 0 < cost ∧ cost <= cash * 0.98.
Proof.
  unfold decide_trade.
  destruct (Qle_bool (alloc_cash_of cash alloc topk) 0) eqn:Ha; [done|].
  destruct (Qeq_bool b 0) eqn:Hb; [done|].
  destruct (Qle_bool _ 0 || _) eqn:Hc; [done|].
  intros [= <- <- <- <-].
  apply orb_false_iff in Hc as [Hc1 Hc2]. apply negb_false_iff in Hc2.
  split_and!; try done.
  - by apply Qle_bool_false.
  - by apply Qeq_bool_neq.
  - by apply Qle_bool_false.
  - by apply Qle_bool_iff.
Qed.


(** The two ways an event leaves the state: untouched, or with one
    trade appended and the ledger extended by the debit and the
    credit. *)
Lemma process_event_Ok start_d end_d hold_pre hold_post alloc topk tkr px st drow st' :
  process_event start_d end_d hold_pre hold_post alloc topk tkr px st drow = Ok st' →
  st' = st
  ∨ ∃ exd buy_d sell_d buy_px sell_px shares cost dc pr,
      d_ex_date drow = Some exd
      ∧ price_on px buy_d = Some buy_px ∧ price_on px sell_d = Some sell_px
      ∧ decide_trade (cash st) alloc topk buy_px sell_px (d_amount drow)
        = Fill shares cost dc pr
      ∧ st' = mkState (cash st - cost + (pr + dc))
                (trades st ++ [mkTrade tkr exd buy_d sell_d buy_px sell_px
                                       shares dc (pr + dc - cost)])
                (equity_curve st ++ [(sell_d, cash st - cost + (pr + dc))])
                (ledger st ++ [cash st - cost; cash st - cost + (pr + dc)]).
Proof.
  unfold process_event.
  destruct (d_ex_date drow) as [exd|]; [|intros [= <-]; by left].
  case_decide; [|intros [= <-]; by left].
  destruct (shift_trading_day_with_calendar exd (- hold_pre) _) as [buy_d|];
    [|intros [= <-]; by left].
  destruct (shift_trading_day_with_calendar exd hold_post _) as [sell_d|];
    [|intros [= <-]; by left].
  destruct (price_on px buy_d) as [buy_px|] eqn:Hb; [|done].
  destruct (price_on px sell_d) as [sell_px|] eqn:Hs; [|done].
  destruct (decide_trade _ _ _ _ _ _) as [| |shares cost dc pr] eqn:Hd;
    [intros [= <-]; by left|done|].
  intros [= <-]. right.
  by exists exd, buy_d, sell_d, buy_px, sell_px, shares, cost, dc, pr.
Qed.

Lemma decide_trade_DivisionByZero cash alloc topk b s a :
  decide_trade cash alloc topk b s a = DivisionByZero ↔
  0 < alloc_cash_of cash alloc topk ∧ b == 0.
Proof.
  unfold decide_trade.
  destruct (Qle_bool (alloc_cash_of cash alloc topk) 0) eqn:Ha.
  { apply Qle_bool_iff in Ha. split; [done|]. intros [? _]. lra. }
  apply Qle_bool_false in Ha.
  destruct (Qeq_bool b 0) eqn:Hb.
  { apply Qeq_bool_iff in Hb. done. }
  apply Qeq_bool_neq in Hb.
  destruct (Qle_bool _ 0 || _); (split; [done|by intros [_ ?]]).
Qed.





(** *** The ledger *)

Lemma init_state_ledger_ok c : ledger_ok (init_state c).
Proof.
  split_and!; [done..|]. intros k tr Hk. simpl in Hk. by rewrite lookup_nil in Hk.
Qed.

Lemma price_on_elem_of px d p :
  price_on px d = Some p → ∃ r, r ∈ px ∧ adjusted_close r = p.
Proof.
  unfold price_on. destruct (list.last _) as [r|] eqn:Hl; [|done].
  intros [= <-]. exists r. split; [|done].
  apply last_Some_elem_of in Hl. by apply list_elem_of_filter in Hl as [_ ?].
Qed.

Lemma process_event_ledger_ok
    start_d end_d hold_pre hold_post alloc topk tkr px st drow st' :
  ledger_ok st →
  process_event start_d end_d hold_pre hold_post alloc topk tkr px st drow = Ok st' →
  ledger_ok st'.
Proof.
  intros (Hlast & Hlen & Hk) [->|Hfill]%process_event_Ok; [done|].
  destruct Hfill as (exd & buy_d & sell_d & buy_px & sell_px & shares & cost
                     & dc & pr & _ & _ & _ & Hd & ->).
  apply decide_trade_Fill in Hd as (_ & Hcost & _ & _ & _ & _ & Hc0 & Hc1).
  split_and!; simpl.
  - by rewrite last_app.
  - rewrite !length_app, Hlen. simpl. lia.
  - intros k tr Hlook.
    apply lookup_app_Some in Hlook as [Hlook|[Hge Hlook]].
    + destruct (Hk k tr Hlook) as (before & H0 & Hle & H1).
      exists before.
      split_and!; [by apply lookup_app_l_Some|done|by apply lookup_app_l_Some].
    + destruct (k - length (trades st))%nat as [|n] eqn:Hkn; [|done].
      injection Hlook as <-. cbn [Simulator.shares buy_price]. exists (cash st).
      assert (k = length (trades st)) as -> by lia.
      rewrite last_lookup, Hlen in Hlast.
      replace (Init.Nat.pred (2 * length (trades st) + 1))
        with (2 * length (trades st))%nat in Hlast by lia.
      split_and!.
      * by apply lookup_app_l_Some.
      * rewrite <-Hcost. lra.
      * subst cost. apply list_lookup_middle. lia.
Qed.

Lemma process_event_ledger_nonneg
    start_d end_d hold_pre hold_post alloc topk tkr px st drow st' :
  nonneg_px px → 0 <= d_amount drow →
  ledger_nonneg st →
  process_event start_d end_d hold_pre hold_post alloc topk tkr px st drow = Ok st' →
  ledger_nonneg st'.
Proof.
  intros Hpx Hamt [Hall Hcash] [->|Hfill]%process_event_Ok; [done|].
  destruct Hfill as (exd & buy_d & sell_d & buy_px & sell_px & shares & cost
                     & dc & pr & _ & _ & Hsell & Hd & ->).
  apply decide_trade_Fill in Hd as (Hsh & _ & -> & -> & _ & _ & Hc0 & Hc1).
  apply price_on_elem_of in Hsell as (r & Hr & <-).
  unfold nonneg_px in Hpx. rewrite Forall_forall in Hpx. specialize (Hpx r Hr).
  pose proof (shares_of_ge_1 (alloc_cash_of (cash st) alloc topk) buy_px) as Hge.
  rewrite <-Hsh in Hge.
  assert (0 <= shares * adjusted_close r) by (apply Qmult_le_0_compat; lra).
  assert (0 <= d_amount drow * shares) by (apply Qmult_le_0_compat; lra).
  assert (0 <= cash st - cost) by lra.
  split; simpl; [|lra].
  apply Forall_app. split; [done|]. repeat constructor; lra.
Qed.

(** Both loops carry an invariant that each step carries. *)
Lemma process_events_invariant (P : state → Prop) step rows : ∀ st st',
  (∀ s d s', d ∈ rows → P s → step s d = Ok s' → P s') →
  P st → process_events step st rows = Ok st' → P st'.
Proof.
  induction rows as [|d rows IH]; intros st st' Hstep HP; simpl.
  - by intros [= <-].
  - destruct (step st d) as [s1|] eqn:H1; [|done].
    apply IH.
    + intros s d' s' Hd'. apply Hstep. by right.
    + eapply Hstep; [left|done..].
Qed.

Lemma process_instruments_invariant (P : state → Prop) step tickers : ∀ st st',
  (∀ s t s', P s → step s t = Ok s' → P s') →
  P st → process_instruments step st tickers = Ok st' → P st'.
Proof.
  induction tickers as [|t tickers IH]; intros st st' Hstep HP; simpl.
  - by intros [= <-].
  - destruct (step st t) as [s1|] eqn:H1; [|done].
    apply IH; [done|]. by eapply Hstep.
Qed.

Lemma process_instrument_invariant (P : state → Prop)
    w start_d end_d hold_pre hold_post alloc topk st tkr st' :
  (∀ px s d s',
     get_eod_prices w tkr = Ok px → d ∈ dividend_history w tkr → P s →
     process_event start_d end_d hold_pre hold_post alloc topk tkr px s d = Ok s' →
     P s') →
  P st →
  process_instrument w start_d end_d hold_pre hold_post alloc topk st tkr = Ok st' →
  P st'.
Proof.
  intros Hstep HP. unfold process_instrument.
  destruct (dividend_history w tkr) as [|d0 rows] eqn:Hdiv; [by intros [= <-]|].
  destruct (get_eod_prices w tkr) as [px|] eqn:Hpx; [|done].
  case_decide; [by intros [= <-]|].
  apply process_events_invariant; [|done].
  intros s d s' Hd. by apply Hstep.
Qed.

(** C2, as the code has it. In every completed simulation each trade
    cost no more than the cash held just before its purchase, the
    purchase leaving the difference; and when the initial cash is not
    negative and the market data has no negative price or dividend, none
    of the values the cash takes is negative. *)
Theorem no_borrowing_and_cash_never_negative
    w ranked start_d end_d initial_cash hold_pre hold_post alloc topk st :
  simulate_rotation w ranked start_d end_d initial_cash hold_pre hold_post
                    alloc topk = Ok st →
  (∀ k tr, trades st !! k = Some tr →
     ∃ cash_before,
       ledger st !! (2 * k)%nat = Some cash_before
       ∧ shares tr * buy_price tr <= cash_before
       ∧ ledger st !! (2 * k + 1)%nat
         = Some (cash_before - shares tr * buy_price tr))
  ∧ (0 <= initial_cash → nonneg_market w →
     Forall (λ c, 0 <= c) (ledger st) ∧ 0 <= cash st).
Proof.
  unfold simulate_rotation. intros Hrun. split.
  - eapply (process_instruments_invariant ledger_ok) in Hrun
      as (_ & _ & Hk); [done| |apply init_state_ledger_ok].
    intros s t s' Hs.
    apply (process_instrument_invariant ledger_ok); [|done].
    intros px s0 d s0' _ _. apply process_event_ledger_ok.
  - intros Hinit Hmarket.
    eapply (process_instruments_invariant ledger_nonneg) in Hrun; [done| |].
    + intros s t s' Hs.
      apply (process_instrument_invariant ledger_nonneg); [|done].
      intros px s0 d s0' Hpx Hd. destruct (Hmarket t) as [Hdiv Hprices].
      apply process_event_ledger_nonneg; [by apply Hprices|].
      rewrite Forall_forall in Hdiv. by apply Hdiv.
    + split; simpl; [by repeat constructor|done].
Qed.

Lemma sample_world_nonneg : nonneg_market sample_world.
Proof.
  intros tkr. split.
  - change (dividend_history sample_world tkr) with [mkDiv (Some 739113%Z) 0.5].
    repeat constructor. simpl. lra.
  - intros px Hpx.
    change (get_eod_prices sample_world tkr) with (Ok sample_px) in Hpx.
    injection Hpx as <-. unfold nonneg_px, sample_px. simpl.
    repeat constructor; simpl; lra.
Qed.

Lemma no_borrowing_and_cash_never_negative_witness :
  ∃ st,
    simulate_rotation sample_world sample_ranked 739000%Z 739200%Z
                      1000 2%Z 1%Z 0.5 10%Z = Ok st
    ∧ Forall (λ c, 0 <= c) (ledger st)
    ∧ ∃ tr cash_before,
        trades st !! 0%nat = Some tr
        ∧ ledger st !! 0%nat = Some cash_before
        ∧ shares tr * buy_price tr <= cash_before.
Proof.
  assert (∃ st, simulate_rotation sample_world sample_ranked 739000%Z 739200%Z
                                  1000 2%Z 1%Z 0.5 10%Z = Ok st) as [st Hst].
  { eexists. vm_compute. reflexivity. }
  exists st. split; [exact Hst|].
  destruct (no_borrowing_and_cash_never_negative _ _ _ _ _ _ _ _ _ _ Hst)
    as [Hborrow Hnonneg].
  split; [apply Hnonneg; [lra|apply sample_world_nonneg]|].
  assert (∃ tr, trades st !! 0%nat = Some tr) as [tr Htr].
  { vm_compute in Hst. injection Hst as <-. by eexists. }
  destruct (Hborrow 0%nat tr Htr) as (before & H0 & Hle & _).
  by exists tr, before.
Defined.

(** C2 as stated fails: the code takes the closes as they come. With
    1000 of initial cash one share is bought at 80, and its sale at a
    close of -2000 leaves the cash at -1079.5. *)
Lemma negative_close_makes_cash_negative :
  ∃ st c,
    simulate_rotation crash_world sample_ranked 739000%Z 739200%Z
                      1000 2%Z 1%Z 0.5 10%Z = Ok st
    ∧ 0 <= 1000
    ∧ ledger st !! 2%nat = Some c
    ∧ c == -1079.5
    ∧ cash st < 0.
Proof.
  eexists _, _. split; [vm_compute; reflexivity|].
  split; [lra|]. split; [reflexivity|]. split; reflexivity.
Qed.

End SimulatorFacts.

(** ** The forward plan *)

Section PlannerFacts.
Import Gateway Calendar Planner.

Lemma insert_row_Permutation x l : insert_row x l ≡ₚ x :: l.
Proof.
  induction l as [|y l IH]; simpl; [done|].
  case_decide; [done|]. rewrite IH. constructor.
Qed.

Lemma sort_values_Permutation cal : sort_values cal ≡ₚ cal.
Proof.
  induction cal as [|x cal IH]; simpl; [done|].
  by rewrite insert_row_Permutation, IH.
Qed.

Global Instance event_le_total : Total event_le.
Proof.
  intros a b. unfold event_le, key_le.
  destruct (fe_date a) as [x|], (fe_date b) as [y|]; [|by left|by right|].
  - destruct (Z.lt_trichotomy x y) as [?|[Heq|?]];
      [left; by left| |right; by left].
    destruct (String.leb_total (fe_ticker a) (fe_ticker b)) as [?|?];
      [left|right]; right; by rewrite Heq.
  - apply String.leb_total.
Qed.

Lemma insert_row_Sorted x l :
  Sorted event_le l → Sorted event_le (insert_row x l).
Proof.
  induction l as [|y l IH]; intros Hs; simpl; [by repeat constructor|].
  apply Sorted_inv in Hs as [Hs Hhd].
  case_decide as Hxy.
  - constructor; [by constructor|by constructor].
  - constructor; [by apply IH|].
    assert (event_le y x) as Hyx by (by destruct (total event_le x y)).
    destruct l as [|z l]; simpl; [by constructor|].
    apply HdRel_inv in Hhd. case_decide; by constructor.
Qed.

Lemma sort_values_Sorted cal : Sorted event_le (sort_values cal).
Proof.
  induction cal as [|x cal IH]; simpl; [constructor|by apply insert_row_Sorted].
Qed.

Lemma plans_of_Ok hp hq tc cal rows plans :
  plans_of hp hq tc cal rows = Ok plans →
  Forall2 (λ r p, plan_of hp hq tc cal r = Ok p) rows plans.
Proof.
  revert plans. induction rows as [|r rows IH]; intros plans; simpl.
  - intros [= <-]. constructor.
  - destruct (plan_of hp hq tc cal r) as [p|e] eqn:Hp; [|done].
    destruct (plans_of hp hq tc cal rows) as [ps|e]; [|done].
    intros [= <-]. constructor; [done|by apply IH].
Qed.

Lemma plans_of_dated hp hq tc cal rows :
  Forall (λ r, is_Some (fe_date r)) rows →
  ∃ plans, plans_of hp hq tc cal rows = Ok plans.
Proof.
  induction 1 as [|r rows [d Hd] _ [ps IH]]; simpl; [by eexists|].
  unfold plan_of, shift_row_date. rewrite Hd, IH. by eexists.
Qed.

(** What a row of the plan holds. *)
Lemma plan_of_Ok hp hq tc cal r p :
  plan_of hp hq tc cal r = Ok p →
  ticker p = fe_ticker r ∧ name p = fe_name r ∧ ex_date p = fe_date r
  ∧ amount p = column_get fe_value 0%Q cal r
  ∧ currency p = column_get fe_currency "USD" cal r
  ∧ estimated_pct_gain p = estimated_gain (amount p) (fe_close_price r)
  ∧ ((plan_buy_date p = None ∨ plan_sell_date p = None) ↔ note p ≠ EmptyString)
  ∧ match fe_date r with
    | Some d => plan_buy_date p = shift_trading_day_with_calendar d (- hp) tc
                ∧ plan_sell_date p = shift_trading_day_with_calendar d hq tc
    | None => tc = [] ∧ plan_buy_date p = None ∧ plan_sell_date p = None
    end.
Proof.
  unfold plan_of, shift_row_date. destruct (fe_date r) as [d|] eqn:Hd.
  - intros [= <-]. simpl. split_and!; try done.
    destruct (shift_trading_day_with_calendar d (- hp) tc),
             (shift_trading_day_with_calendar d hq tc);
      (split; [intros [?|?]; done
              | intros ?; first [by left | by right | done]]).
  - destruct tc; [|done]. intros [= <-]. simpl. split_and!; try done.
    split; [done|]. intros _. by left.
Qed.

(** The two outcomes of a plan that is returned: no row when no
    collected event has a date, one row for each event otherwise. *)
Lemma build_forward_plan_Ok w ranked hp hq la plan :
  build_forward_plan w ranked hp hq la = Ok plan →
  (has_date_column (all_future_events w ranked la) = false ∧ plan = [])
  ∨ (has_date_column (all_future_events w ranked la) = true
     ∧ Forall2 (λ r p, plan_of hp hq (trading_cal_of w la)
                         (all_future_events w ranked la) r = Ok p)
               (sort_values (all_future_events w ranked la)) plan).
Proof.
  unfold build_forward_plan. cbv zeta.
  generalize (all_future_events w ranked la). intros cal H.
  destruct (has_date_column cal) eqn:Hcol.
  - right. split; [done|]. destruct cal; [done|]. by apply plans_of_Ok.
  - left. split; [done|]. destruct cal; by simplify_eq.
Qed.

Lemma build_forward_plan_elem_of w ranked hp hq la plan p :
  build_forward_plan w ranked hp hq la = Ok plan → p ∈ plan →
  ∃ r, r ∈ all_future_events w ranked la
       ∧ plan_of hp hq (trading_cal_of w la) (all_future_events w ranked la) r
         = Ok p.
Proof.
  intros [[_ ->]|[_ Hall]]%build_forward_plan_Ok Hp; [by apply elem_of_nil in Hp|].
  apply list_elem_of_lookup in Hp as [i Hi].
  destruct (Forall2_lookup_r _ _ _ _ _ Hall Hi) as (r & Hr & Hplan).
  exists r. split; [|done].
  rewrite <- (sort_values_Permutation (all_future_events w ranked la)).
  by eapply list_elem_of_lookup_2.
Qed.

Lemma build_forward_plan_complete w ranked hp hq la plan :
  build_forward_plan w ranked hp hq la = Ok plan →
  has_date_column (all_future_events w ranked la) = true →
  length plan = length (all_future_events w ranked la)
  ∧ ∀ r, r ∈ all_future_events w ranked la →
      ∃ p, p ∈ plan
        ∧ plan_of hp hq (trading_cal_of w la) (all_future_events w ranked la) r
          = Ok p.
Proof.
  intros [[Hf _]|[_ Hall]]%build_forward_plan_Ok Hcol; [congruence|].
  split.
  - rewrite <- (Forall2_length _ _ _ Hall).
    by rewrite (sort_values_Permutation (all_future_events w ranked la)).
  - intros r Hr.
    rewrite <- (sort_values_Permutation (all_future_events w ranked la)) in Hr.
    apply list_elem_of_lookup in Hr as [i Hi].
    destruct (Forall2_lookup_l _ _ _ _ _ Hall Hi) as (p & Hp & Hplan).
    exists p. split; [by eapply list_elem_of_lookup_2|done].
Qed.

Lemma has_date_column_true cal :
  has_date_column cal = true ↔ ∃ r, r ∈ cal ∧ is_Some (fe_date r).
Proof.
  unfold has_date_column. rewrite existsb_exists. split.
  - intros (r & Hr%list_elem_of_In & Hd%bool_decide_eq_true). eauto.
  - intros (r & Hr & Hd). exists r. split; [by apply list_elem_of_In|].
    by apply bool_decide_eq_true.
Qed.

(** A plan is returned when every collected event has a date. *)
Lemma build_forward_plan_dated w ranked hp hq la :
  Forall (λ r, is_Some (fe_date r)) (all_future_events w ranked la) →
  ∃ plan, build_forward_plan w ranked hp hq la = Ok plan.
Proof.
  intros Hall. unfold build_forward_plan. cbv zeta.
  destruct (all_future_events w ranked la) as [|e cal] eqn:Hcal; [by eexists|].
  destruct (has_date_column (e :: cal)); [|by eexists].
  apply plans_of_dated.
  by rewrite (sort_values_Permutation (e :: cal)).
Qed.

(** The collected events and the answers they come from. *)
Lemma future_events_of_api w to_day row :
  api_events w row ≠ [] →
  future_events_of w to_day row
  = map (λ e, mkFuture (Scorer.ticker (Scorer.cand row))
                (Scorer.name (Scorer.cand row)) (de_date e) (de_value e)
                (de_currency e) (Scorer.close (Scorer.cand row)))
        (api_events w row).
Proof.
  unfold api_events, future_events_of.
  destruct (outcome _) as [[[|e events]|]|]; done.
Qed.

Lemma future_events_of_fallback w to_day row :
  api_events w row = [] →
  future_events_of w to_day row
  = match Scorer.ex_date (Scorer.cand row) with
    | Some d =>
      if decide (today w ≤ d ≤ to_day) then
        [mkFuture (Scorer.ticker (Scorer.cand row))
           (Scorer.name (Scorer.cand row)) (Some d) None None
           (Scorer.close (Scorer.cand row))]
      else []
    | None => []
    end.
Proof.
  unfold api_events, future_events_of.
  destruct (outcome _) as [[[|e events]|]|]; done.
Qed.

Lemma future_events_of_length w la row :
  length (future_events_of w (today w + la) row) = events_processed w la row.
Proof.
  unfold events_processed, in_window.
  destruct (api_events w row) as [|e events] eqn:Hapi.
  - rewrite future_events_of_fallback by done.
    destruct (Scorer.ex_date _); [|done]. by case_decide.
  - rewrite future_events_of_api, length_map, Hapi by (by rewrite Hapi). done.
Qed.

Lemma all_future_events_length w ranked la :
  length (all_future_events w ranked la)
  = sum_list_with (events_processed w la) ranked.
Proof.
  unfold all_future_events. induction ranked as [|row ranked IH]; simpl; [done|].
  by rewrite length_app, IH, future_events_of_length.
Qed.

Lemma all_future_events_elem_of w ranked la r :
  r ∈ all_future_events w ranked la ↔
  ∃ row, row ∈ ranked ∧ r ∈ future_events_of w (today w + la) row.
Proof.
  unfold all_future_events. rewrite list_elem_of_In, in_flat_map.
  split; intros (row & Hrow & Hr); exists row;
    (split; [by apply list_elem_of_In|by apply list_elem_of_In]).
Qed.

Lemma future_events_of_origin w to_day row e :
  e ∈ future_events_of w to_day row →
  fe_ticker e = Scorer.ticker (Scorer.cand row)
  ∧ fe_name e = Scorer.name (Scorer.cand row)
  ∧ fe_close_price e = Scorer.close (Scorer.cand row)
  ∧ ((∃ d, d ∈ api_events w row ∧ fe_date e = de_date d
           ∧ fe_value e = de_value d)
     ∨ (api_events w row = [] ∧ fe_value e = None ∧ fe_currency e = None
        ∧ ∃ x, fe_date e = Some x
            ∧ Scorer.ex_date (Scorer.cand row) = Some x
            ∧ today w ≤ x ≤ to_day)).
Proof.
  destruct (api_events w row) as [|e0 events] eqn:Hapi.
  - rewrite future_events_of_fallback by done.
    destruct (Scorer.ex_date (Scorer.cand row)) as [x|];
      [|by intros ?%elem_of_nil].
    case_decide; [|by intros ?%elem_of_nil].
    intros ->%list_elem_of_singleton. simpl. split_and!; try done.
    right. split_and!; try done. by exists x.
  - rewrite future_events_of_api by (by rewrite Hapi).
    intros (d & -> & Hd)%list_elem_of_fmap. simpl. split_and!; try done.
    left. exists d. by rewrite <- Hapi.
Qed.

(** Every collected event has a date when every returned one has. *)
Lemma all_future_events_dated w ranked la :
  (∀ row e, row ∈ ranked → e ∈ api_events w row → is_Some (de_date e)) →
  Forall (λ r, is_Some (fe_date r)) (all_future_events w ranked la).
Proof.
  intros Hdated. apply Forall_forall.
  intros r (row & Hrow & Hr)%all_future_events_elem_of.
  apply future_events_of_origin in Hr as (_ & _ & _ & Hsrc).
  destruct Hsrc as [(d & Hd & -> & _)|(_ & _ & _ & x & -> & _)]; [|done].
  by eapply Hdated.
Qed.

(** C8, as the code has it. When every event the dividend requests
    return has a date, the plan is returned and has exactly one row for
    each event the planner has to process: a row for every returned
    event and for every in-window ex-date of a ranked row without
    returned events, whatever the shifts give; each row has the two
    shifts of its ex-date as dates, and a note exactly when one of them
    is missing. When no collected event has a date, the plan is
    empty. *)
Theorem plan_rows_never_dropped w ranked hold_pre hold_post la :
  ((∀ row e, row ∈ ranked → e ∈ api_events w row → is_Some (de_date e)) →
   ∃ plan,
     build_forward_plan w ranked hold_pre hold_post la = Ok plan
     ∧ length plan = sum_list_with (events_processed w la) ranked
     ∧ (∀ row e d, row ∈ ranked → e ∈ api_events w row → de_date e = Some d →
          ∃ p, p ∈ plan ∧ ticker p = Scorer.ticker (Scorer.cand row)
               ∧ ex_date p = Some d)
     ∧ (∀ row d, row ∈ ranked → api_events w row = [] →
          Scorer.ex_date (Scorer.cand row) = Some d → in_window w la d →
          ∃ p, p ∈ plan ∧ ticker p = Scorer.ticker (Scorer.cand row)
               ∧ ex_date p = Some d)
     ∧ Forall (λ p, ∃ d, ex_date p = Some d
                 ∧ plan_buy_date p
                   = shift_trading_day_with_calendar d (- hold_pre)
                       (trading_cal_of w la)
                 ∧ plan_sell_date p
                   = shift_trading_day_with_calendar d hold_post
                       (trading_cal_of w la)
                 ∧ ((plan_buy_date p = None ∨ plan_sell_date p = None)
                    ↔ note p ≠ EmptyString)) plan)
  ∧ ((∀ row, row ∈ ranked →
        Forall (λ e, de_date e = None) (api_events w row)
        ∧ (api_events w row = [] → ∀ d,
             Scorer.ex_date (Scorer.cand row) = Some d → ¬ in_window w la d)) →
     build_forward_plan w ranked hold_pre hold_post la = Ok []).
Proof.
  split.
  - intros Hdated.
    pose proof (all_future_events_dated w ranked la Hdated) as Hall.
    destruct (build_forward_plan_dated w ranked hold_pre hold_post la Hall)
      as [plan Hplan].
    exists plan. split; [done|].
    assert (∀ r, r ∈ all_future_events w ranked la →
              ∃ p, p ∈ plan ∧ ticker p = fe_ticker r
                   ∧ ex_date p = fe_date r) as Hhas.
    { intros r Hr.
      destruct (build_forward_plan_complete _ _ _ _ _ _ Hplan) as [_ Hc].
      { apply has_date_column_true. exists r. split; [done|].
        by apply (proj1 (Forall_forall _ _) Hall). }
      destruct (Hc r Hr) as (p & Hp & (Ht & _ & Hd & _)%plan_of_Ok).
      by exists p. }
    split_and!.
    + rewrite <- all_future_events_length.
      destruct (all_future_events w ranked la) as [|r cal] eqn:Hcal.
      * unfold build_forward_plan in Hplan. cbv zeta in Hplan.
        rewrite Hcal in Hplan. by simplify_eq.
      * destruct (build_forward_plan_complete _ _ _ _ _ _ Hplan) as [Hlen _];
          [|by rewrite Hlen, Hcal].
        rewrite Hcal. apply has_date_column_true. exists r. split; [left|].
        by apply Forall_cons in Hall as [? _].
    + intros row e d Hrow He Hd.
      destruct (Hhas (mkFuture (Scorer.ticker (Scorer.cand row))
                  (Scorer.name (Scorer.cand row)) (de_date e) (de_value e)
                  (de_currency e) (Scorer.close (Scorer.cand row))))
        as (p & Hp & Ht & Hx).
      { apply all_future_events_elem_of. exists row. split; [done|].
        rewrite future_events_of_api by (intros Hnil; rewrite Hnil in He;
                                         by apply elem_of_nil in He).
        apply list_elem_of_fmap. by exists e. }
      exists p. simpl in *. split_and!; [done..|congruence].
    + intros row d Hrow Hapi Hex Hwin.
      destruct (Hhas (mkFuture (Scorer.ticker (Scorer.cand row))
                  (Scorer.name (Scorer.cand row)) (Some d) None None
                  (Scorer.close (Scorer.cand row))))
        as (p & Hp & Ht & Hx).
      { apply all_future_events_elem_of. exists row. split; [done|].
        rewrite future_events_of_fallback, Hex by done.
        unfold in_window in Hwin. case_decide; [left|done]. }
      by exists p.
    + apply Forall_forall. intros p Hp.
      destruct (build_forward_plan_elem_of _ _ _ _ _ _ _ Hplan Hp)
        as (r & Hr & (_ & _ & Hd & _ & _ & _ & Hnote & Hshift)%plan_of_Ok).
      destruct (proj1 (Forall_forall _ _) Hall r Hr) as [d Hrd].
      rewrite Hrd in Hshift, Hd. destruct Hshift as [Hb Hs].
      exists d. by split_and!.
  - intros Hnone. unfold build_forward_plan. cbv zeta.
    assert (has_date_column (all_future_events w ranked la) = false) as ->.
    { apply not_true_is_false.
      intros (r & (row & Hrow & Hr)%all_future_events_elem_of & [x Hx])
        %has_date_column_true.
      destruct (Hnone row Hrow) as [Hundated Hout].
      apply future_events_of_origin in Hr as (_ & _ & _ & Hsrc).
      destruct Hsrc as [(d & Hd & Hdate & _)|(Hapi & _ & _ & y & Hy & Hex & Hwin)].
      - apply (proj1 (Forall_forall _ _) Hundated) in Hd. congruence.
      - by apply (Hout Hapi y Hex). }
    by destruct (all_future_events w ranked la).
Qed.

Lemma plan_rows_never_dropped_witness :
  ∃ p, build_forward_plan edge_world sample_ranked 2 1 90 = Ok [p]
       ∧ ex_date p = Some 740124
       ∧ plan_buy_date p = Some 740015
       ∧ plan_sell_date p = None
       ∧ note p ≠ EmptyString.
Proof.
  destruct (proj1 (plan_rows_never_dropped edge_world sample_ranked 2 1 90))
    as (plan & Hplan & Hlen & _ & _ & Hall).
  { intros row e ->%list_elem_of_singleton He. vm_compute in He.
    apply list_elem_of_singleton in He as ->. by eexists. }
  assert (∃ p, build_forward_plan edge_world sample_ranked 2 1 90 = Ok [p]
               ∧ ex_date p = Some 740124
               ∧ plan_buy_date p = Some 740015
               ∧ plan_sell_date p = None) as (p & Hp & Hx & Hb & Hs).
  { eexists. split; [vm_compute; reflexivity|]. split_and!; reflexivity. }
  exists p. split_and!; [done..|].
  rewrite Hp in Hplan. injection Hplan as <-.
  apply (proj1 (Forall_singleton _ _)) in Hall as (d & _ & _ & _ & Hnote).
  apply Hnote. by right.
Defined.

(** C8 as stated fails: an event returned without a ["date"] key is
    processed, and the plan has no row for it. *)
Lemma plan_rows_dropped_without_dates :
  ∃ w ranked,
    sum_list_with (events_processed w 90) ranked = 1%nat
    ∧ build_forward_plan w ranked 2 1 90 = Ok [].
Proof.
  exists undated_world, sample_ranked. split; vm_compute; reflexivity.
Qed.

(** C5, as the code has it. When both dates of a row resolved and the
    two holding offsets are not negative, both dates are sessions of the
    trading calendar (a weekday that is no holiday) and the buy date is
    not after the ex-date. The sell date is not before the ex-date when
    the ex-date is itself a session or [hold_post] is at least 1; with
    [hold_post = 0] and an ex-date off the calendar the sell date is the
    last session before the ex-date. *)
Theorem plan_dates_around_ex_date w ranked hold_pre hold_post la plan p b s :
  0 ≤ hold_pre → 0 ≤ hold_post →
  build_forward_plan w ranked hold_pre hold_post la = Ok plan →
  p ∈ plan →
  plan_buy_date p = Some b → plan_sell_date p = Some s →
  let cal := trading_cal_of w la in
  ∃ exd, ex_date p = Some exd
  ∧ (b ∈ cal ∧ weekday b < 5 ∧ b ∉ get_us_holidays w)
  ∧ (s ∈ cal ∧ weekday s < 5 ∧ s ∉ get_us_holidays w)
  ∧ b ≤ exd
  ∧ (exd ∈ cal ∨ 1 ≤ hold_post → exd ≤ s)
  ∧ (exd ∉ cal → hold_post = 0 →
     s < exd
     ∧ shift_trading_day_with_calendar exd 0 cal = Some s).
Proof.
  intros Hpre Hpost Hplan Hp Hb Hs cal.
  destruct (build_forward_plan_elem_of _ _ _ _ _ _ _ Hplan Hp)
    as (r & _ & (_ & _ & Hd & _ & _ & _ & _ & Hshift)%plan_of_Ok).
  destruct (fe_date r) as [exd|]; [|destruct Hshift as (_ & ? & _); congruence].
  destruct Hshift as [Hb' Hs']. rewrite Hb in Hb'. rewrite Hs in Hs'.
  symmetry in Hb', Hs'. fold cal in Hb', Hs'. clear Hb Hs.
  exists exd. split; [done|].
  pose proof (shift_elem_of _ _ _ _ Hb') as Hbin.
  pose proof (shift_elem_of _ _ _ _ Hs') as Hsin.
  split_and!.
  - done.
  - by apply build_trading_calendar_elem_of in Hbin as (_ & ? & _).
  - by apply build_trading_calendar_elem_of in Hbin as (_ & _ & ?).
  - done.
  - by apply build_trading_calendar_elem_of in Hsin as (_ & ? & _).
  - by apply build_trading_calendar_elem_of in Hsin as (_ & _ & ?).
  - eapply shift_back_le; [|done]. lia.
  - intros [Hin|Hge].
    + eapply shift_forward_ge_base; [done..|].
      apply base_of_Some. split_and!; [done|lia|auto].
    + assert (exd < s); [|lia].
      eapply shift_forward_gt; [apply build_trading_calendar_NoDup| |done]. lia.
  - intros Hnin ->. split; [|done].
    apply shift_zero, base_of_Some in Hs' as (_ & Hle & _).
    destruct (decide (s = exd)) as [->|]; [done|lia].
Qed.

Lemma plan_dates_around_ex_date_witness :
  ∃ p exd,
    build_forward_plan weekend_world sample_ranked 2 1 90 = Ok [p]
    ∧ plan_buy_date p = Some 739924
    ∧ plan_sell_date p = Some 739929
    ∧ ex_date p = Some exd
    ∧ 739924 ≤ exd ∧ exd ≤ 739929.
Proof.
  assert (∃ p, build_forward_plan weekend_world sample_ranked 2 1 90 = Ok [p]
               ∧ plan_buy_date p = Some 739924
               ∧ plan_sell_date p = Some 739929) as (p & Hp & Hb & Hs).
  { eexists. split; [vm_compute; reflexivity|]. split; reflexivity. }
  destruct (plan_dates_around_ex_date weekend_world sample_ranked 2 1 90
              [p] p 739924 739929) as (exd & Hex & _ & _ & Hle & Hge & _);
    [lia|lia|exact Hp|left|exact Hb|exact Hs|].
  exists p, exd. split_and!; [done|done|done|done|exact Hle|].
  apply Hge. right. lia.
Defined.

(** C5 as stated fails: with [hold_post = 0] and an ex-date on a
    Saturday, both dates resolve and the sell date is the Friday before
    the ex-date. *)
Lemma sell_date_before_weekend_ex_date :
  ∃ p exd b s,
    build_forward_plan weekend_world sample_ranked 2 0 90 = Ok [p]
    ∧ 0 ≤ 2 ∧ 0 ≤ 0
    ∧ plan_buy_date p = Some b ∧ plan_sell_date p = Some s
    ∧ ex_date p = Some exd
    ∧ weekday exd = 5
    ∧ s < exd.
Proof.
  eexists _, _, _, _. split; [vm_compute; reflexivity|].
  split; [lia|]. split; [lia|].
  split; [reflexivity|]. split; [reflexivity|]. split; [reflexivity|].
  split; [reflexivity|]. simpl. lia.
Qed.

End PlannerFacts.

(** ** Behaviour when the gateway is down *)

Section OutageFacts.
Import Gateway.
Local Open Scope Q_scope.

(** An endpoint that fails every attempt exhausts the retry budget. *)
Lemma unreachable_get_raises {A} tok (respond : nat → attempt A) :
  tok ≠ EmptyString →
  (∀ k, respond k = Raised RequestException) →
  outcome (_get tok respond) = Raise RequestException.
Proof.
  intros Htok Hdown.
  apply (get_last_error respond tok RequestException);
    [done|apply Hdown|done|].
  intros j _. by rewrite Hdown.
Qed.

Lemma screener_etfs_down w ex min_div min_avgvol e :
  outcome (_get (Scorer.token w) (Scorer.screener_http w)) = Raise e →
  Scorer.screener_etfs w ex min_div min_avgvol
  = map (Scorer.to_candidate ex) (demo_rows min_div min_avgvol).
Proof. intros Hdown. unfold Scorer.screener_etfs. by rewrite Hdown. Qed.

Lemma dividend_history_down sw tkr e :
  outcome (_get (Simulator.token sw) (Simulator.div_http sw tkr)) = Raise e →
  Simulator.dividend_history sw tkr
  = omap (λ '(prefix, d), if Py.startswith tkr prefix then Some d else None)
         Simulator.mock_div_hist.
Proof. intros Hdown. unfold Simulator.dividend_history. by rewrite Hdown. Qed.

(** C7, as the code has it. When the screener request still fails after
    the retries, scoring goes on with the built-in demo funds that pass
    the thresholds: it returns a ranking of exactly those funds, and
    raises (the empty-screening error) only when none passes. In the
    simulator a failed dividend request is replaced by the built-in
    mock dividends of the ticker's prefix, and an instrument left with
    none is skipped: the state is unchanged and the loop goes on with
    the remaining instruments. *)
Theorem outage_substitutes_demo_data
    sort w ex min_div min_avgvol topk la wY wL wS :
  Scorer.sort_contract sort →
  (∃ e, outcome (_get (Scorer.token w) (Scorer.screener_http w)) = Raise e) →
  (demo_rows min_div min_avgvol = [] →
   Scorer.build_scored_candidates sort w ex min_div min_avgvol topk la wY wL wS
   = Raise (RuntimeError "筛选结果为空。"))
  ∧ (demo_rows min_div min_avgvol ≠ [] →
     ∃ rows reordered,
       Scorer.build_scored_candidates sort w ex min_div min_avgvol topk la wY wL wS
       = Ok rows
       ∧ rows = Scorer.df_head topk reordered
       ∧ map (λ r, Scorer.ticker (Scorer.cand r)) reordered
         ≡ₚ map (λ d, Scorer.ticker (Scorer.to_candidate ex d))
                (demo_rows min_div min_avgvol))
  ∧ (∀ sw tkr,
       (∃ e, outcome (_get (Simulator.token sw) (Simulator.div_http sw tkr))
             = Raise e) →
       Simulator.dividend_history sw tkr
       = omap (λ '(prefix, d), if Py.startswith tkr prefix then Some d else None)
              Simulator.mock_div_hist
       ∧ (Simulator.dividend_history sw tkr = [] →
          ∀ start_d end_d hold_pre hold_post alloc k st rest,
            Simulator.process_instruments
              (Simulator.process_instrument sw start_d end_d hold_pre hold_post
                                            alloc k) st (tkr :: rest)
            = Simulator.process_instruments
                (Simulator.process_instrument sw start_d end_d hold_pre hold_post
                                              alloc k) st rest)).
Proof.
  intros Hsort [e Hdown]. split_and!.
  - intros Hnone. apply build_scored_candidates_Raise. split; [|done].
    by rewrite (screener_etfs_down _ _ _ _ _ Hdown), Hnone.
  - intros Hsome.
    exists (Scorer.df_head topk
              (sort (Scorer.scored_base w ex min_div min_avgvol la wY wL wS))),
           (sort (Scorer.scored_base w ex min_div min_avgvol la wY wL wS)).
    split_and!; [|done|].
    + apply build_scored_candidates_Ok. split; [|done].
      rewrite (screener_etfs_down _ _ _ _ _ Hdown).
      destruct (demo_rows min_div min_avgvol); [done|]. done.
    + destruct (Hsort (Scorer.scored_base w ex min_div min_avgvol la wY wL wS))
        as [Hp _].
      rewrite Hp. unfold Scorer.scored_base.
      rewrite <-(map_map Scorer.cand Scorer.ticker), score_frame_cand.
      rewrite (screener_etfs_down _ _ _ _ _ Hdown), !map_map. done.
  - intros sw tkr [e' Hdiv]. split; [by eapply dividend_history_down|].
    intros Hnil start_d end_d hold_pre hold_post alloc k st rest.
    simpl. unfold Simulator.process_instrument at 1. by rewrite Hnil.
Qed.

Lemma outage_substitutes_demo_data_witness :
  (∃ rows,
     Scorer.build_scored_candidates Scorer.merge_sort_desc outage_world
       "US" 0.009 200000%Z 10%Z 90%Z 0.4 0.25 0.35 = Ok rows)
  ∧ Simulator.process_instruments
      (Simulator.process_instrument outage_sim_world 739000%Z 739200%Z
                                    2%Z 1%Z 0.5 10%Z)
      (Simulator.init_state 1000) ["AAA.US"]
    = Ok (Simulator.init_state 1000).
Proof.
  destruct (outage_substitutes_demo_data Scorer.merge_sort_desc outage_world
              "US" 0.009 200000%Z 10%Z 90%Z 0.4 0.25 0.35
              merge_sort_desc_contract) as (_ & Hsome & Hsim).
  { exists RequestException. by apply unreachable_get_raises. }
  split.
  - destruct Hsome as (rows & _ & Hrows & _); [vm_compute; discriminate|].
    by exists rows.
  - destruct (Hsim outage_sim_world "AAA.US") as [_ Hskip].
    { exists RequestException. by apply unreachable_get_raises. }
    rewrite Hskip; [reflexivity | vm_compute; reflexivity].
Defined.

(** C7 as stated fails: with every request failing through all six
    attempts, scoring does not fail; it returns a ranking of the
    built-in demo funds. (Run on that ranking, the simulator does not
    skip and continue either: the first fund has a mock dividend and its
    price request, made outside any handler, ends the run.) *)
Lemma outage_scoring_completes_on_demo_data :
  outcome (_get (Scorer.token outage_world) (Scorer.screener_http outage_world))
  = Raise RequestException
  ∧ requests (_get (Scorer.token outage_world) (Scorer.screener_http outage_world))
    = 6%nat
  ∧ ∃ rows,
      Scorer.build_scored_candidates Scorer.merge_sort_desc outage_world
        "US" 0.009 200000%Z 10%Z 90%Z 0.4 0.25 0.35 = Ok rows
      ∧ map (λ r, Scorer.ticker (Scorer.cand r)) rows
        = ["SDIV.US"; "XYLD.US"; "JEPI.US"; "SCHD.US";
           "VYM.US"; "HDV.US"; "NOBL.US"; "DGRO.US"]
      ∧ Simulator.simulate_rotation outage_sim_world rows 739000%Z 739200%Z
                                    1000 2%Z 1%Z 0.5 10%Z
        = Raise RequestException.
Proof.
  split; [vm_compute; reflexivity|]. split; [vm_compute; reflexivity|].
  eexists. split; [vm_compute; reflexivity|].
  split; vm_compute; reflexivity.
Qed.

End OutageFacts.

(** * Further properties of the code *)

(** ** The calendar and the shift *)

Section CalendarLaws.
Import Calendar.

Lemma StronglySorted_filter_keep {A} (R : relation A) (P : A → Prop)
    `{∀ x, Decision (P x)} (l : list A) :
  StronglySorted R l → StronglySorted R (filter P l).
Proof.
  induction 1 as [|a l Hs IH Hall]; [constructor|].
  rewrite filter_cons. case_decide; [|done].
  constructor; [done|]. rewrite Forall_forall in *.
  intros y [_ Hy]%list_elem_of_filter. by apply Hall.
Qed.

Lemma seqZ_strictly_sorted m n : StronglySorted Z.lt (seqZ m n).
Proof.
  remember (Z.to_nat n) as k eqn:Hk. revert m n Hk.
  induction k as [|k IH]; intros m n Hk.
  - rewrite seqZ_nil by lia. constructor.
  - rewrite seqZ_cons by lia. constructor; [apply IH; lia|].
    apply Forall_forall. intros y Hy%elem_of_seqZ. lia.
Qed.

(** X1. [build_trading_calendar] returns exactly the dates of the closed
    range that fall on Monday to Friday ([weekday] 0 to 4) and are not
    in the holiday set, in strictly increasing order; an empty range
    gives the empty calendar. *)
Theorem trading_calendar_sessions (start_d end_d : date) (holidays : list date) :
  (∀ d, d ∈ build_trading_calendar start_d end_d holidays ↔
        start_d ≤ d ≤ end_d ∧ 0 ≤ weekday d < 5 ∧ d ∉ holidays)
  ∧ StronglySorted Z.lt (build_trading_calendar start_d end_d holidays)
  ∧ (end_d < start_d → build_trading_calendar start_d end_d holidays = []).
Proof.
  split_and!.
  - intros d. rewrite build_trading_calendar_elem_of. unfold weekday.
    pose proof (Z.mod_pos_bound (d + 6) 7). intuition lia.
  - unfold build_trading_calendar, bdate_range.
    do 2 apply StronglySorted_filter_keep. apply seqZ_strictly_sorted.
  - intros Hlt. unfold build_trading_calendar, bdate_range.
    by rewrite seqZ_nil by lia.
Qed.

Lemma trading_calendar_sessions_witness :
  build_trading_calendar 739930 739920 [] = []
  ∧ build_trading_calendar 739925 739931 [739929]
    = [739925; 739926; 739930; 739931].
Proof.
  destruct (trading_calendar_sessions 739930 739920 []) as (_ & _ & Hnil).
  split; [apply Hnil; lia | vm_compute; reflexivity].
Defined.

Lemma sorted_Permutation_eq cal cal' : cal ≡ₚ cal' → sorted cal = sorted cal'.
Proof.
  intros Hp. apply (StronglySorted_unique Z.le); try apply sorted_strongly.
  by rewrite !sorted_perm.
Qed.

(** X2. The result of the shift does not depend on the order in which
    the calendar lists its dates. *)
Theorem shift_ignores_calendar_order d k (cal cal' : list date) :
  cal ≡ₚ cal' →
  shift_trading_day_with_calendar d k cal
  = shift_trading_day_with_calendar d k cal'.
Proof.
  intros Hp. rewrite !shift_unfold. unfold base_of.
  by rewrite (sorted_Permutation_eq cal cal' Hp).
Qed.

Lemma shift_ignores_calendar_order_witness :
  shift_trading_day_with_calendar 739927 1 [739929; 739925; 739926]
  = shift_trading_day_with_calendar 739927 1 [739925; 739926; 739929].
Proof.
  apply shift_ignores_calendar_order.
  change ([739929] ++ [739925; 739926] ≡ₚ [739925; 739926] ++ [739929]).
  apply Permutation_app_comm.
Defined.

Lemma index_NoDup x (l : list date) i :
  NoDup l → l !! i = Some x → index x l = Some i.
Proof.
  intros Hnd Hi.
  destruct (index_is_Some x l) as [j Hj]; [by eapply list_elem_of_lookup_2|].
  rewrite Hj. f_equal. apply index_lookup in Hj.
  by eapply NoDup_lookup.
Qed.

(** X3. On a calendar without repeated dates, shifting by [k] and then
    shifting the result back by [k] returns the base of the first
    shift: the reference date itself when it is a trading day, the last
    trading day before it otherwise. *)
Theorem shift_there_and_back d k (cal : list date) x :
  NoDup cal →
  shift_trading_day_with_calendar d k cal = Some x →
  shift_trading_day_with_calendar x (- k) cal
  = shift_trading_day_with_calendar d 0 cal
  ∧ shift_trading_day_with_calendar x 0 cal = Some x.
Proof.
  intros Hnd Hs. pose proof (shift_elem_of _ _ _ _ Hs) as Hx.
  apply shift_Some in Hs as (b & idx & Hb & Hi & Hk & Hlook).
  assert (base_of x cal = Some x) as Hbx.
  { apply base_of_Some. split_and!; [done|lia|auto]. }
  assert (index x (sorted cal) = Some (Z.to_nat (Z.of_nat idx + k))) as Hix.
  { apply index_NoDup; [by apply sorted_NoDup|done]. }
  split; [|by apply shift_zero].
  transitivity (Some b); [|symmetry; by apply shift_zero].
  apply shift_Some. exists x, (Z.to_nat (Z.of_nat idx + k)).
  split_and!; [done..|lia|].
  replace (Z.of_nat (Z.to_nat (Z.of_nat idx + k)) + - k) with (Z.of_nat idx)
    by lia.
  rewrite Nat2Z.id. by apply index_lookup.
Qed.

Lemma shift_there_and_back_witness :
  shift_trading_day_with_calendar 739929 (-1) [739929; 739925; 739926]
  = shift_trading_day_with_calendar 739927 0 [739929; 739925; 739926]
  ∧ shift_trading_day_with_calendar 739929 0 [739929; 739925; 739926]
    = Some 739929.
Proof.
  apply (shift_there_and_back 739927 1); [compute_done | vm_compute; reflexivity].
Defined.

Lemma shift_offset_le d k1 k2 (cal : list date) x1 x2 :
  k1 ≤ k2 →
  shift_trading_day_with_calendar d k1 cal = Some x1 →
  shift_trading_day_with_calendar d k2 cal = Some x2 →
  x1 ≤ x2.
Proof.
  intros Hk (b & idx & Hb & Hi & Hk1 & H1)%shift_Some
            (b' & idx' & Hb' & Hi' & Hk2 & H2)%shift_Some.
  assert (b' = b) as -> by congruence.
  assert (idx' = idx) as -> by congruence.
  eapply (strongly_lookup_le (sorted cal)); [apply sorted_strongly| |done..].
  lia.
Qed.

(** X4. The shift is monotone in the offset: a larger offset never
    gives an earlier date, and on a calendar without repeated dates it
    gives a strictly later one. *)
Theorem shift_monotone_in_offset d k1 k2 (cal : list date) x1 x2 :
  k1 < k2 →
  shift_trading_day_with_calendar d k1 cal = Some x1 →
  shift_trading_day_with_calendar d k2 cal = Some x2 →
  x1 ≤ x2 ∧ (NoDup cal → x1 < x2).
Proof.
  intros Hk H1 H2. split; [eapply shift_offset_le; [|done..]; lia|].
  intros Hnd.
  apply shift_Some in H1 as (b & idx & Hb & Hi & Hk1 & H1).
  apply shift_Some in H2 as (b' & idx' & Hb' & Hi' & Hk2 & H2).
  assert (b' = b) as -> by congruence.
  assert (idx' = idx) as -> by congruence.
  eapply (strongly_lookup_lt (sorted cal));
    [apply sorted_strongly|by apply sorted_NoDup| |done..].
  lia.
Qed.

Lemma shift_monotone_in_offset_witness :
  739925 ≤ 739929 ∧ (NoDup [739929; 739925; 739926] → 739925 < 739929).
Proof.
  apply (shift_monotone_in_offset 739927 (-1) 1 [739929; 739925; 739926]);
    [lia | vm_compute; reflexivity | vm_compute; reflexivity].
Defined.

End CalendarLaws.

(** ** The retry loop: what is not retried, and how long it sleeps *)

Section GatewayLaws.
Import Gateway.
Context {A : Type}.
Variable respond : nat → attempt A.
Local Open Scope Q_scope.

(** X5. An exception that is neither a [RequestException] nor a
    [ValueError] is not retried: raised on a pass that follows only
    retried ones, it leaves [_get] at once, after that pass's request
    and without a sleep of its own: the call has slept once for each
    earlier pass and not again. *)
Theorem get_other_exception_escapes (tok : string) k e :
  tok ≠ EmptyString → (k < 6)%nat →
  respond k = Raised e → caught e = false →
  (∀ j, (j < k)%nat → retried (respond j)) →
  outcome (_get tok respond) = Raise e
  ∧ requests (_get tok respond) = S k
  ∧ length (slept (_get tok respond)) = k.
Proof.
  intros Htok Hk He Hc Hr.
  destruct (get_from_start respond tok k Htok Hk Hr)
    as (b' & log' & Hb' & Hlen & ->).
  assert (¬ retried (respond k)) as Hnr by (rewrite He; simpl; congruence).
  rewrite (get_loop_stops_at respond _ _ _ _ _ _
             (loop_body_not_retried _ k b' Hnr)).
  rewrite He. done.
Qed.

(** The back-off stays between 1 and 20, so a property of every number
    between 1 and 101.25 and of every [Retry-After] that is slept holds
    of every sleep the loop adds. *)
Lemma get_loop_sleeps (P : Q → Prop) attempts : ∀ backoff n log,
  (∀ x, 1 <= x <= 101.25 → P x) →
  (∀ k s, respond k = RateLimited (Seconds s) → 0 <= s → P s) →
  Forall (λ a, (a ≤ 5)%nat) attempts →
  1 <= backoff <= 20 →
  Forall P log →
  Forall P (slept (get_loop respond attempts backoff n log)).
Proof.
  intros backoff n log Hrange Hsec. revert backoff n log.
  induction attempts as [|k rest IH]; intros backoff n log Hatt Hb Hlog;
    [done|].
  apply Forall_cons in Hatt as [Hk Hrest]. cbn [get_loop].
  destruct (loop_body (respond k) k backoff) as [a|e|b' sl] eqn:Hstep;
    [done..|].
  apply loop_body_Continue in Hstep as (_ & Hb' & Hsl); [|done..].
  apply IH; [done..|]. apply Forall_app. split; [done|].
  repeat constructor.
  destruct Hsl as [Hsl|(s & Hs & -> & Hs0)]; [by apply Hrange|by eapply Hsec].
Qed.

Lemma get_loop_sleep_count attempts : ∀ backoff n log,
  let r := get_loop respond attempts backoff n log in
  (length (slept r) + n ≤ requests r + length log)%nat
  ∧ ∀ v, outcome r = Ok v →
      (length (slept r) + n + 1 = requests r + length log)%nat.
Proof.
  induction attempts as [|k rest IH]; intros backoff n log; cbn [get_loop].
  { simpl. split; [lia|done]. }
  destruct (loop_body (respond k) k backoff) as [a|e|b' sl]; cbn zeta.
  - simpl. split; [lia|]. intros v _. lia.
  - simpl. split; [lia|done].
  - destruct (IH b' (S n) (log ++ [sl])) as [H1 H2]. cbn zeta in H1, H2.
    rewrite length_app in H1, H2. simpl in H1, H2. split; [lia|].
    intros v Hv. specialize (H2 v Hv). lia.
Qed.

(** X6. [_get] never sleeps a negative time and sleeps at most once per
    request, exactly once before each request after the first when it
    returns a value. When every [Retry-After] it is sent and sleeps lies
    between 1 and 101.25 seconds (and so also when none is sent), every
    sleep does: the back-off stays within 1 and 20, and the wait after
    the fifth failed pass is at most [20 * 1.5 ^ 4]. *)
Theorem get_sleeps_are_bounded (tok : string) :
  let r := _get tok respond in
  (length (slept r) ≤ requests r)%nat
  ∧ (∀ v, outcome r = Ok v → S (length (slept r)) = requests r)
  ∧ Forall (λ s, 0 <= s) (slept r)
  ∧ ((∀ k s, respond k = RateLimited (Seconds s) → 1 <= s <= 101.25) →
     Forall (λ s, 1 <= s <= 101.25) (slept r)).
Proof.
  unfold _get, _require_token.
  destruct (decide (tok = EmptyString)); cbv beta iota zeta.
  { simpl. split_and!; [lia|done|by constructor..]. }
  destruct (get_loop_sleep_count (seq 0 6) 1 0%nat []) as [Hcount Hok].
  cbv zeta in Hcount, Hok. change (length (@nil Q)) with 0%nat in Hcount, Hok.
  assert (Forall (λ a, (a ≤ 5)%nat) (seq 0 6)) as Hseq.
  { apply Forall_forall. intros a Ha%elem_of_seq. lia. }
  split_and!.
  - lia.
  - intros v Hv. specialize (Hok v Hv). lia.
  - apply (get_loop_sleeps (λ s, 0 <= s)); [intros; lra|done|done|lra|constructor].
  - intros Hsec.
    apply (get_loop_sleeps (λ s, 1 <= s <= 101.25));
      [done|by intros k s Hk _; eapply Hsec|done|lra|constructor].
Qed.

End GatewayLaws.

Lemma get_other_exception_escapes_witness :
  let respond := λ k : nat,
    match k with
    | O => Gateway.RateLimited (A := unit) Gateway.NoHeader
    | _ => Gateway.Raised OtherException
    end in
  Gateway.outcome (Gateway._get "token" respond) = Raise OtherException
  ∧ Gateway.requests (Gateway._get "token" respond) = 2%nat
  ∧ Gateway.slept (Gateway._get "token" respond) = [1%Q].
Proof.
  intros respond.
  destruct (get_other_exception_escapes respond "token" 1 OtherException)
    as (Ho & Hq & _);
    [discriminate | lia | reflexivity | reflexivity | |].
  - intros j Hj. assert (j = 0%nat) as -> by lia. exact I.
  - split; [exact Ho|]. split; [exact Hq|]. vm_compute. reflexivity.
Defined.

(** ** Scoring: ranges, order and the shape of the ranking *)

Section ScorerLaws.
Import Gateway Scorer.
Local Open Scope Q_scope.

(** [series.min()] and [series.max()], as [normalize] computes them. *)
Definition series_min (series : list Q) : Q :=
  match series with [] => 0 | x :: xs => fold_left Qmin xs x end.
Definition series_max (series : list Q) : Q :=
  match series with [] => 0 | x :: xs => fold_left Qmax xs x end.

Lemma series_min_max_spec series :
  series ≠ [] →
  is_min (series_min series) series ∧ is_max (series_max series) series.
Proof.
  destruct series as [|x xs]; [done|]. intros _. simpl.
  destruct (fold_Qmin_bounds xs x) as [? ?], (fold_Qmax_bounds xs x) as [? ?].
  split; (split; [by constructor|]);
    [apply fold_Qmin_attained|apply fold_Qmax_attained].
Qed.

Lemma normalize_lookup_explicit series i v :
  series !! i = Some v →
  normalize series !! i
  = Some (if Qeq_bool (series_max series - series_min series) 0 then 1
          else (v - series_min series) / (series_max series - series_min series)).
Proof.
  destruct series as [|x xs]; [by rewrite lookup_nil|]. intros Hi.
  unfold normalize, series_max, series_min.
  destruct (Qeq_bool _ _); by rewrite list_lookup_fmap, Hi.
Qed.

Lemma is_min_le m series v : is_min m series → v ∈ series → m <= v.
Proof. intros [Hall _] Hv. rewrite Forall_forall in Hall. by apply Hall. Qed.

Lemma is_max_ge m series v : is_max m series → v ∈ series → v <= m.
Proof. intros [Hall _] Hv. rewrite Forall_forall in Hall. by apply Hall. Qed.

Lemma Qdiv_unit_interval a d : 0 <= a → a <= d → 0 < d → 0 <= a / d <= 1.
Proof.
  intros Ha Had Hd. split.
  - apply Qle_shift_div_l; [done|]. lra.
  - apply Qle_shift_div_r; [done|]. lra.
Qed.

(** X7. [normalize] keeps the length of the series and maps every entry
    into the interval from 0 to 1; an entry that is a maximum of the
    series is mapped to 1, and in a series that is not constant an
    entry that is a minimum is mapped to 0. *)
Theorem normalize_unit_interval (series : list Q) :
  length (normalize series) = length series
  ∧ ∀ i v, series !! i = Some v →
      ∃ n, normalize series !! i = Some n
        ∧ 0 <= n <= 1
        ∧ ((∀ x, x ∈ series → x <= v) → n == 1)
        ∧ ((∀ x, x ∈ series → v <= x) → (∃ x, x ∈ series ∧ ¬ x == v) → n == 0).
Proof.
  split; [apply normalize_length|]. intros i v Hi.
  pose proof (list_elem_of_lookup_2 _ _ _ Hi) as Hv.
  assert (series ≠ []) as Hne by (by intros ->; rewrite lookup_nil in Hi).
  destruct (series_min_max_spec series Hne) as [Hmin Hmax].
  pose proof (is_min_le _ _ _ Hmin Hv) as Hlo.
  pose proof (is_max_ge _ _ _ Hmax Hv) as Hhi.
  rewrite (normalize_lookup_explicit _ _ _ Hi). eexists. split; [done|].
  destruct (Qeq_bool (series_max series - series_min series) 0) eqn:Hd.
  - apply Qeq_bool_iff in Hd. split_and!; [lra|lra|reflexivity|].
    intros Hleast (x & Hx & Hxv). exfalso. apply Hxv.
    pose proof (Hleast x Hx). pose proof (is_max_ge _ _ _ Hmax Hx). lra.
  - apply Qeq_bool_neq in Hd.
    assert (0 < series_max series - series_min series) as Hpos by lra.
    split_and!; try (apply Qdiv_unit_interval; lra).
    + intros Hgreatest.
      destruct Hmax as [_ (m & Hm & Heq)%Exists_exists].
      pose proof (Hgreatest m Hm).
      assert (v - series_min series == series_max series - series_min series)
        as -> by lra.
      unfold Qdiv. apply Qmult_inv_r. lra.
    + intros Hleast _.
      destruct Hmin as [_ (m & Hm & Heq)%Exists_exists].
      pose proof (Hleast m Hm).
      assert (v - series_min series == 0) as -> by lra.
      unfold Qdiv. ring.
Qed.

(** X8. [normalize] preserves order: of two entries of a series, the
    one that is not larger gets the score that is not larger, and the
    one that is smaller gets the score that is smaller. *)
Theorem normalize_preserves_order (series : list Q) i j a b na nb :
  series !! i = Some a → series !! j = Some b →
  normalize series !! i = Some na → normalize series !! j = Some nb →
  (a <= b → na <= nb) ∧ (a < b → na < nb).
Proof.
  intros Hi Hj Hni Hnj.
  rewrite (normalize_lookup_explicit _ _ _ Hi) in Hni.
  rewrite (normalize_lookup_explicit _ _ _ Hj) in Hnj.
  injection Hni as <-. injection Hnj as <-.
  assert (series ≠ []) as Hne by (by intros ->; rewrite lookup_nil in Hi).
  destruct (series_min_max_spec series Hne) as [Hmin Hmax].
  pose proof (is_min_le _ _ _ Hmin (list_elem_of_lookup_2 _ _ _ Hi)).
  pose proof (is_max_ge _ _ _ Hmax (list_elem_of_lookup_2 _ _ _ Hj)).
  destruct (Qeq_bool (series_max series - series_min series) 0) eqn:Hd.
  - apply Qeq_bool_iff in Hd. split; intros Hab; lra.
  - apply Qeq_bool_neq in Hd. split; intros Hab.
    + assert (0 < series_max series - series_min series) as Hpos by lra.
      unfold Qdiv. apply Qmult_le_compat_r; [lra|].
      apply Qlt_le_weak, Qinv_lt_0_compat, Hpos.
    + assert (0 < series_max series - series_min series) as Hpos by lra.
      unfold Qdiv. apply Qmult_lt_compat_r; [|lra].
      apply Qinv_lt_0_compat, Hpos.
Qed.

Lemma normalize_preserves_order_witness :
  ∃ na nb,
    normalize [0.01; 0.02; 0.03] !! 0%nat = Some na
    ∧ normalize [0.01; 0.02; 0.03] !! 1%nat = Some nb
    ∧ na < nb.
Proof.
  eexists _, _. split; [vm_compute; reflexivity|].
  split; [vm_compute; reflexivity|].
  apply (normalize_preserves_order [0.01; 0.02; 0.03] 0 1 0.01 0.02);
    [reflexivity | reflexivity
    | vm_compute; reflexivity | vm_compute; reflexivity
    | vm_compute; reflexivity].
Defined.

Lemma inject_Z_pos z : (0 < z)%Z → 0 < inject_Z z.
Proof. intros Hz. change 0 with (inject_Z 0). by rewrite <-Zlt_Qlt. Qed.

Lemma inject_Z_nonneg z : (0 ≤ z)%Z → 0 <= inject_Z z.
Proof. intros Hz. change 0 with (inject_Z 0). by rewrite <-Zle_Qle. Qed.

(** The proximity of an ex-date [days] days ahead, inside the window. *)
Lemma score_S_in_window (today : date) (la : Z) (d : date) :
  (0 ≤ d - today ≤ la)%Z →
  score_S today la (Some d)
  = Qmax 0 (1 - inject_Z (d - today)
                / inject_Z (if decide (la = 0%Z) then 1%Z else la))
  ∧ 0 < inject_Z (if decide (la = 0%Z) then 1%Z else la).
Proof.
  intros Hd. unfold score_S. case_decide; [lia|]. split; [done|].
  apply inject_Z_pos. case_decide; lia.
Qed.

(** X9. The proximity score lies between 0 and 1. It is 0 without an
    ex-date, for an ex-date in the past or beyond the look-ahead window
    and for one exactly [ex_lookahead_days] ahead; it is 1 for an ex-date
    today; and inside the window a later ex-date never scores higher. *)
Theorem score_S_unit_interval (today : date) (la : Z) :
  (∀ exd, 0 <= score_S today la exd <= 1)
  ∧ score_S today la None = 0
  ∧ (∀ d : date, (d < today ∨ today + la < d)%Z → score_S today la (Some d) = 0)
  ∧ ((0 < la)%Z → score_S today la (Some (today + la)%Z) == 0)
  ∧ ((0 ≤ la)%Z → score_S today la (Some today) == 1)
  ∧ (∀ d1 d2 : date, (today ≤ d1)%Z → (d1 ≤ d2)%Z → (d2 ≤ today + la)%Z →
       score_S today la (Some d2) <= score_S today la (Some d1)).
Proof.
  split_and!.
  - intros [d|]; [|simpl; lra].
    destruct (decide (0 ≤ d - today ≤ la)%Z) as [Hin|Hout].
    + destruct (score_S_in_window today la d Hin) as [-> Hc].
      set (c := inject_Z (if decide (la = 0%Z) then 1%Z else la)) in *.
      assert (0 <= inject_Z (d - today) / c).
      { apply Qle_shift_div_l; [done|].
        pose proof (inject_Z_nonneg (d - today) ltac:(lia)). lra. }
      split; [apply Q.le_max_l|apply Q.max_lub; lra].
    + unfold score_S. case_decide; [lra|lia].
  - done.
  - intros d Hd. unfold score_S. case_decide; [done|lia].
  - intros Hla. unfold score_S. case_decide; [lia|].
    destruct (decide (la = 0%Z)); [lia|].
    replace (today + la - today)%Z with la by lia.
    pose proof (inject_Z_pos la Hla).
    apply Q.max_l. unfold Qdiv. rewrite Qmult_inv_r; lra.
  - intros Hla. unfold score_S. case_decide; [lia|].
    replace (today - today)%Z with 0%Z by lia.
    set (c := inject_Z (if decide (la = 0%Z) then 1%Z else la)).
    assert (inject_Z 0 / c == 0) as ->
      by (unfold Qdiv; change (inject_Z 0) with 0; ring).
    transitivity (1 - 0); [apply Q.max_r; lra|lra].
  - intros d1 d2 H1 H12 H2. unfold score_S. repeat case_decide; try lia.
    all: match goal with
         | |- context [_ / inject_Z ?z] =>
           assert (0 < inject_Z z) as Hc by (apply inject_Z_pos; lia);
           set (c := inject_Z z) in *
         end.
    all: apply Q.max_le_compat_l.
    all: assert (inject_Z (d1 - today) / c <= inject_Z (d2 - today) / c)
           as Hle; [|lra].
    all: unfold Qdiv; apply Qmult_le_compat_r;
           [rewrite <-Zle_Qle; lia | by apply Qlt_le_weak, Qinv_lt_0_compat].
Qed.

Lemma w_sum_pos wY wL wS : 0 < w_sum wY wL wS ∧ wY + wL + wS <= w_sum wY wL wS.
Proof.
  unfold w_sum. pose proof (Q.le_max_l 1e-9 (wY + wL + wS)).
  pose proof (Q.le_max_r 1e-9 (wY + wL + wS)).
  split; [|done]. assert (0 < 1e-9) by reflexivity. lra.
Qed.

(** The three normalised weights of non-negative weights are not
    negative and add up to at most 1. *)
Lemma normalised_weights wY wL wS :
  0 <= wY → 0 <= wL → 0 <= wS →
  0 <= wY / w_sum wY wL wS ∧ 0 <= wL / w_sum wY wL wS
  ∧ 0 <= wS / w_sum wY wL wS
  ∧ wY / w_sum wY wL wS + wL / w_sum wY wL wS + wS / w_sum wY wL wS <= 1.
Proof.
  intros HY HL HS. destruct (w_sum_pos wY wL wS) as [Hpos Hle].
  generalize dependent (w_sum wY wL wS). intros ws Hpos Hle.
  split_and!; try (apply Qle_shift_div_l; [done|lra]).
  assert (wY / ws + wL / ws + wS / ws == (wY + wL + wS) / ws) as ->
    by (field; lra).
  apply Qle_shift_div_r; [done|lra].
Qed.

(** X10. With weights that are not negative, every row of a ranking has
    its three normalised sub-scores and its composite score between 0
    and 1. *)
Theorem composite_score_unit_interval
    sort w ex min_div min_avgvol topk la wY wL wS rows :
  sort_contract sort →
  0 <= wY → 0 <= wL → 0 <= wS →
  build_scored_candidates sort w ex min_div min_avgvol topk la wY wL wS = Ok rows →
  Forall (λ r, 0 <= Y_n r <= 1 ∧ 0 <= L_n r <= 1 ∧ 0 <= S_n r <= 1
               ∧ 0 <= Score r <= 1) rows.
Proof.
  intros Hsort HY HL HS Hok. apply Forall_forall. intros r Hr.
  pose proof (ranked_elem_of_base _ _ _ _ _ _ _ _ _ _ _ _ Hsort Hok Hr) as Hb.
  apply list_elem_of_lookup in Hb as [i Hi]. unfold scored_base in Hi.
  apply score_frame_lookup in Hi as (c & y & l & sn & Hc & Hy & Hl & Hsn & ->).
  simpl.
  assert (∀ series n, normalize series !! i = Some n → 0 <= n <= 1) as Hunit.
  { intros series n Hn.
    destruct (series !! i) as [v|] eqn:Hv.
    - destruct (normalize_unit_interval series) as [_ Hall].
      destruct (Hall i v Hv) as (n' & Hn' & Hrange & _). congruence.
    - apply lookup_ge_None in Hv. rewrite <-normalize_length in Hv.
      apply lookup_ge_None in Hv. congruence. }
  pose proof (Hunit _ _ Hy). pose proof (Hunit _ _ Hl). pose proof (Hunit _ _ Hsn).
  destruct (normalised_weights wY wL wS HY HL HS) as (Ha & Hb & Hc' & Hsum).
  set (c1 := wY / w_sum wY wL wS) in *.
  set (c2 := wL / w_sum wY wL wS) in *.
  set (c3 := wS / w_sum wY wL wS) in *.
  clearbody c1 c2 c3. split_and!; try lra; nra.
Qed.

Lemma composite_score_unit_interval_witness :
  ∃ rows,
    build_scored_candidates merge_sort_desc outage_world
      "US" 0.009 200000%Z 10%Z 90%Z 0.4 0.25 0.35 = Ok rows
    ∧ length rows = 8%nat
    ∧ Forall (λ r, 0 <= Score r <= 1) rows.
Proof.
  eexists. split; [vm_compute; reflexivity|]. split; [reflexivity|].
  eapply Forall_impl.
  - apply (composite_score_unit_interval merge_sort_desc outage_world
             "US" 0.009 200000%Z 10%Z 90%Z 0.4 0.25 0.35);
      [apply merge_sort_desc_contract | lra | lra | lra | vm_compute; reflexivity].
  - intros r (_ & _ & _ & Hr). exact Hr.
Defined.

(** X11. Only the proportions of the weights matter: multiplying the
    three weights by the same positive factor leaves every row of the
    scored frame with the same sub-scores and an equal composite score,
    as long as both weight sums reach [1e-9]. *)
Theorem weights_scale_invariant today la wY wL wS k base i r r' :
  0 < k → 1e-9 <= wY + wL + wS → 1e-9 <= k * wY + k * wL + k * wS →
  score_frame today la wY wL wS base !! i = Some r →
  score_frame today la (k * wY) (k * wL) (k * wS) base !! i = Some r' →
  cand r = cand r' ∧ Y_n r = Y_n r' ∧ L_n r = L_n r' ∧ S_n r = S_n r'
  ∧ Score r == Score r'.
Proof.
  intros Hk Hsum Hsum'.
  intros (c & y & l & sn & Hc & Hy & Hl & Hsn & ->)%score_frame_lookup
         (c' & y' & l' & sn' & Hc' & Hy' & Hl' & Hsn' & ->)%score_frame_lookup.
  assert (c' = c) as -> by congruence. assert (y' = y) as -> by congruence.
  assert (l' = l) as -> by congruence. assert (sn' = sn) as -> by congruence.
  simpl. split_and!; try done.
  assert (w_sum wY wL wS == wY + wL + wS) as -> by (by apply Q.max_r).
  assert (w_sum (k * wY) (k * wL) (k * wS) == k * wY + k * wL + k * wS) as ->
    by (by apply Q.max_r).
  assert (0 < 1e-9) by reflexivity. field. split; nra.
Qed.

Lemma weights_scale_invariant_witness :
  ∃ r r',
    score_frame 739924%Z 90%Z 0.4 0.25 0.35
      (screener_etfs outage_world "US" 0.009 200000%Z) !! 0%nat = Some r
    ∧ score_frame 739924%Z 90%Z (100 * 0.4) (100 * 0.25) (100 * 0.35)
        (screener_etfs outage_world "US" 0.009 200000%Z) !! 0%nat = Some r'
    ∧ Score r == Score r'.
Proof.
  eexists _, _. split; [vm_compute; reflexivity|].
  split; [vm_compute; reflexivity|].
  eapply (weights_scale_invariant 739924%Z 90%Z 0.4 0.25 0.35 100
            (screener_etfs outage_world "US" 0.009 200000%Z) 0);
    [reflexivity | vm_compute; discriminate | vm_compute; discriminate
    | vm_compute; reflexivity | vm_compute; reflexivity].
Defined.

(** In a frame in descending order no row of a tail has a higher score
    than a row in front of it. *)
Lemma descending_app_le rows rest :
  descending (rows ++ rest) →
  ∀ r x, r ∈ rows → x ∈ rest → Score x <= Score r.
Proof.
  unfold descending. intros Hs.
  apply Sorted_StronglySorted in Hs; [|intros a b c Hab Hbc; lra].
  induction rows as [|r0 rows IH]; intros r x Hr Hx;
    [by apply elem_of_nil in Hr|].
  simpl in Hs. apply StronglySorted_inv in Hs as [Hs Hall].
  apply elem_of_cons in Hr as [->|Hr]; [|by apply IH].
  apply (proj1 (Forall_forall _ _) Hall x), elem_of_app. by right.
Qed.

(** X12. A ranking holds the first [topk] rows of the sorted frame:
    with [n] screened candidates it has [min(topk, n)] rows when [topk]
    is not negative and [n - |topk|] rows (none if that is negative)
    otherwise; its rows together with a remainder are, up to order, the
    scored rows of the screened candidates, so it neither repeats nor
    invents a candidate; and no row of the remainder has a higher
    score than a row of the ranking. *)
Theorem ranking_shape sort w ex min_div min_avgvol topk la wY wL wS rows :
  sort_contract sort →
  build_scored_candidates sort w ex min_div min_avgvol topk la wY wL wS = Ok rows →
  let screened := screener_etfs w ex min_div min_avgvol in
  length rows
  = (if decide (0 ≤ topk)%Z then Nat.min (Z.to_nat topk) (length screened)
     else (length screened - Z.to_nat (- topk))%nat)
  ∧ ∃ rest,
      rows ++ rest ≡ₚ scored_base w ex min_div min_avgvol la wY wL wS
      ∧ map cand (rows ++ rest)
        ≡ₚ map (merge_next_ex (get_dividend_calendar w)) screened
      ∧ ∀ r x, r ∈ rows → x ∈ rest → Score x <= Score r.
Proof.
  intros Hsort Hok screened. split; [by eapply ranked_length|].
  apply build_scored_candidates_Ok in Hok as [_ ->].
  destruct (Hsort (scored_base w ex min_div min_avgvol la wY wL wS)) as [Hp Hd].
  destruct (df_head_rest topk
              (sort (scored_base w ex min_div min_avgvol la wY wL wS)))
    as [rest Hrest].
  exists rest. split_and!.
  - by rewrite Hrest.
  - rewrite Hrest, Hp. unfold scored_base. by rewrite score_frame_cand.
  - apply descending_app_le. by rewrite Hrest.
Qed.

Lemma ranking_shape_witness :
  ∃ rows rest,
    build_scored_candidates merge_sort_desc outage_world
      "US" 0.009 200000%Z 3%Z 90%Z 0.4 0.25 0.35 = Ok rows
    ∧ length rows = 3%nat
    ∧ length rest = 5%nat
    ∧ ∀ r x, r ∈ rows → x ∈ rest → Score x <= Score r.
Proof.
  assert (∃ rows,
    build_scored_candidates merge_sort_desc outage_world
      "US" 0.009 200000%Z 3%Z 90%Z 0.4 0.25 0.35 = Ok rows
    ∧ length rows = 3%nat) as (rows & Hrows & Hlen).
  { eexists. split; [vm_compute; reflexivity|reflexivity]. }
  destruct (ranking_shape merge_sort_desc outage_world
              "US" 0.009 200000%Z 3%Z 90%Z 0.4 0.25 0.35 rows
              merge_sort_desc_contract Hrows)
    as (_ & rest & Hperm & _ & Hle).
  exists rows, rest. split_and!; [done|done| |done].
  apply Permutation_length in Hperm. rewrite length_app, Hlen in Hperm.
  assert (length (scored_base outage_world "US" 0.009 200000%Z 90%Z
                              0.4 0.25 0.35) = 8%nat) as Hbase
    by (vm_compute; reflexivity).
  rewrite Hbase in Hperm. clear - Hperm. lia.
Defined.

(** X13. The ex-date merged into a candidate is the earliest dated
    calendar event of its ticker: it belongs to an event of that ticker,
    no dated event of the ticker is earlier, and it is missing exactly
    when the ticker has no dated event. *)
Theorem next_ex_date_is_earliest (cal : list cal_row) (tkr : string) :
  match next_ex_date cal tkr with
  | Some d =>
    (∃ r, r ∈ cal ∧ cr_ticker r = tkr ∧ cr_ex_date r = Some d)
    ∧ ∀ r d', r ∈ cal → cr_ticker r = tkr → cr_ex_date r = Some d' → (d ≤ d')%Z
  | None => ∀ r, r ∈ cal → cr_ticker r = tkr → cr_ex_date r = None
  end.
Proof.
  unfold next_ex_date.
  set (f := λ r, if decide (cr_ticker r = tkr) then cr_ex_date r else None).
  assert (∀ r d, r ∈ cal → cr_ticker r = tkr → cr_ex_date r = Some d →
                 d ∈ merge_sort Z.le (omap f cal)) as Hin.
  { intros r d Hr Ht Hd. rewrite merge_sort_Permutation.
    apply list_elem_of_omap. exists r. split; [done|].
    unfold f. by rewrite decide_True. }
  pose proof (StronglySorted_merge_sort Z.le (omap f cal)) as Hs.
  destruct (merge_sort Z.le (omap f cal)) as [|d t] eqn:Hm; simpl.
  - intros r Hr Ht. destruct (cr_ex_date r) as [d|] eqn:Hd; [|done].
    specialize (Hin r d Hr Ht Hd). by apply elem_of_nil in Hin.
  - split.
    + assert (d ∈ omap f cal) as Hd.
      { rewrite <-(merge_sort_Permutation Z.le), Hm. left. }
      apply list_elem_of_omap in Hd as (r & Hr & Hf). unfold f in Hf.
      case_decide; [|done]. by exists r.
    + intros r d' Hr Ht Hd'. specialize (Hin r d' Hr Ht Hd').
      apply StronglySorted_cons in Hs as [Hall _].
      apply elem_of_cons in Hin as [->|Hin]; [lia|].
      rewrite Forall_forall in Hall. by apply Hall.
Qed.

Lemma has_dot_append a b : Py.has_dot (a +:+ b) = Py.has_dot a || Py.has_dot b.
Proof.
  induction a as [|c a IH]; simpl; [done|]. by rewrite IH, orb_assoc.
Qed.

(** X14. Every ticker the screener and the dividend calendar produce is
    exchange-qualified: it contains a dot. *)
Theorem tickers_are_exchange_qualified w exchange_arg min_div min_avgvol :
  Forall (λ c, Py.has_dot (ticker c) = true)
         (screener_etfs w exchange_arg min_div min_avgvol)
  ∧ Forall (λ r, Py.has_dot (cr_ticker r) = true) (get_dividend_calendar w).
Proof.
  split.
  - unfold screener_etfs. apply Forall_fmap, Forall_forall. intros r _. simpl.
    by rewrite !has_dot_append, orb_true_r.
  - unfold get_dividend_calendar. apply Forall_fmap, Forall_forall.
    intros e _. simpl. destruct (Py.has_dot (ce_code e)) eqn:Hd; [done|].
    by rewrite has_dot_append, orb_true_r.
Qed.

(** X15. An empty screening ends the scoring run: when the screener
    answers with an empty list, or with something that is not a list,
    [build_scored_candidates] raises its [RuntimeError] whatever the
    other arguments are. *)
Theorem empty_screening_raises
    sort w ex min_div min_avgvol topk la wY wL wS :
  outcome (_get (token w) (screener_http w)) = Ok (JList [])
  ∨ outcome (_get (token w) (screener_http w)) = Ok JOther →
  build_scored_candidates sort w ex min_div min_avgvol topk la wY wL wS
  = Raise (RuntimeError "筛选结果为空。").
Proof.
  intros Hempty. apply build_scored_candidates_Raise. split; [|done].
  unfold screener_etfs. by destruct Hempty as [-> | ->].
Qed.

Lemma empty_screening_raises_witness :
  build_scored_candidates merge_sort_desc
    (mkWorld "token" 739924%Z (λ _, Parsed (JList [])) (λ _, Parsed (JList [])))
    "US" 0.009 200000%Z 10%Z 90%Z 0.4 0.25 0.35
  = Raise (RuntimeError "筛选结果为空。").
Proof.
  apply empty_screening_raises. left. vm_compute. reflexivity.
Defined.

End ScorerLaws.

(** ** The simulator: accounting, trades and edge cases *)

Section SimulatorLaws.
Import Gateway Calendar Simulator.
Local Open Scope Q_scope.

(** The sum of the [pnl] column of a trade log. *)
Definition total_pnl (log : list Trade) : Q :=
  fold_right (λ tr acc, pnl tr + acc) 0 log.

Lemma total_pnl_snoc log tr : total_pnl (log ++ [tr]) == total_pnl log + pnl tr.
Proof.
  induction log as [|t log IH]; simpl; [ring|]. rewrite IH. ring.
Qed.

(** A trade's profit is the price move on its shares plus the dividend. *)
Definition pnl_identity (tr : Trade) : Prop :=
  pnl tr == (sell_price tr - buy_price tr) * shares tr + dividend_cash tr.

Definition books_balance (initial_cash : Q) (st : state) : Prop :=
  Forall pnl_identity (trades st)
  ∧ cash st == initial_cash + total_pnl (trades st).

Lemma process_event_books_balance c0
    start_d end_d hold_pre hold_post alloc topk tkr px st drow st' :
  books_balance c0 st →
  process_event start_d end_d hold_pre hold_post alloc topk tkr px st drow = Ok st' →
  books_balance c0 st'.
Proof.
  intros [Hid Hcash] [->|Hfill]%process_event_Ok; [done|].
  destruct Hfill as (exd & buy_d & sell_d & buy_px & sell_px & shares & cost
                     & dc & pr & _ & _ & _ & Hd & ->).
  apply decide_trade_Fill in Hd as (_ & -> & _ & -> & _).
  split; simpl.
  - apply Forall_app. split; [done|]. repeat constructor.
    unfold pnl_identity. simpl. ring.
  - rewrite total_pnl_snoc, Hcash. simpl. ring.
Qed.

(** X16. The books of a completed simulation balance: each trade's
    [pnl] is [(sell_price - buy_price) * shares + dividend_cash], and the
    final cash is the initial cash plus the sum of the [pnl] of all
    trades. *)
Theorem simulation_books_balance
    w ranked start_d end_d initial_cash hold_pre hold_post alloc topk st :
  simulate_rotation w ranked start_d end_d initial_cash hold_pre hold_post
                    alloc topk = Ok st →
  Forall pnl_identity (trades st)
  ∧ cash st == initial_cash + total_pnl (trades st).
Proof.
  unfold simulate_rotation. intros Hrun.
  eapply (process_instruments_invariant (books_balance initial_cash)) in Hrun;
    [done| |].
  - intros s t s' Hs.
    apply (process_instrument_invariant (books_balance initial_cash)); [|done].
    intros px s0 d s0' _ _. apply process_event_books_balance.
  - split; simpl; [constructor|ring].
Qed.

Lemma simulation_books_balance_witness :
  ∃ st,
    simulate_rotation sample_world sample_ranked 739000%Z 739200%Z
                      1000 2%Z 1%Z 0.5 10%Z = Ok st
    ∧ cash st == 1000 + total_pnl (trades st)
    ∧ total_pnl (trades st) == 1.5.
Proof.
  eexists. split; [vm_compute; reflexivity|].
  split; [|reflexivity].
  eapply (simulation_books_balance sample_world sample_ranked 739000%Z 739200%Z
            1000 2%Z 1%Z 0.5 10%Z).
  vm_compute. reflexivity.
Defined.

Lemma process_event_no_cash
    start_d end_d hold_pre hold_post alloc topk tkr px st drow st' :
  cash st <= 0 →
  process_event start_d end_d hold_pre hold_post alloc topk tkr px st drow = Ok st' →
  st' = st.
Proof.
  intros Hcash [->|Hfill]%process_event_Ok; [done|].
  destruct Hfill as (exd & buy_d & sell_d & buy_px & sell_px & shares & cost
                     & dc & pr & _ & _ & _ & Hd & _).
  apply decide_trade_Fill in Hd as (_ & _ & _ & _ & _ & _ & Hc0 & Hc1). lra.
Qed.

(** X17. Without cash nothing is bought: a simulation that starts with
    zero or negative cash and completes ends in its initial state, with
    no trade and no equity point. *)
Theorem no_cash_no_trades
    w ranked start_d end_d initial_cash hold_pre hold_post alloc topk st :
  initial_cash <= 0 →
  simulate_rotation w ranked start_d end_d initial_cash hold_pre hold_post
                    alloc topk = Ok st →
  st = init_state initial_cash.
Proof.
  unfold simulate_rotation. intros Hcash Hrun.
  eapply (process_instruments_invariant (λ s, s = init_state initial_cash))
    in Hrun; [done| |done].
  intros s t s' -> Hstep.
  eapply (process_instrument_invariant (λ s, s = init_state initial_cash));
    [|reflexivity|exact Hstep].
  intros px s0 d s0' _ _ -> Hev.
  by apply process_event_no_cash in Hev.
Qed.

Lemma no_cash_no_trades_witness :
  simulate_rotation sample_world sample_ranked 739000%Z 739200%Z
                    0 2%Z 1%Z 0.5 10%Z = Ok (init_state 0).
Proof.
  assert (∃ st, simulate_rotation sample_world sample_ranked 739000%Z 739200%Z
                                  0 2%Z 1%Z 0.5 10%Z = Ok st) as [st Hst].
  { eexists. vm_compute. reflexivity. }
  rewrite Hst. f_equal.
  apply (no_cash_no_trades sample_world sample_ranked 739000%Z 739200%Z
           0 2%Z 1%Z 0.5 10%Z st); [lra|exact Hst].
Defined.

(** Where a trade comes from: the instrument's price frame, one row of
    its dividend history, and the two shifts along the dates of the
    price frame. *)
Definition trade_from_data (w : world) (start_d end_d : date)
    (hold_pre hold_post : Z) (tr : Trade) : Prop :=
  (start_d ≤ ex_date tr ≤ end_d)%Z
  ∧ ∃ px drow,
      get_eod_prices w (ticker tr) = Ok px ∧ (10 ≤ length px)%nat
      ∧ drow ∈ dividend_history w (ticker tr)
      ∧ d_ex_date drow = Some (ex_date tr)
      ∧ dividend_cash tr = d_amount drow * shares tr
      ∧ shift_trading_day_with_calendar (ex_date tr) (- hold_pre) (map p_date px)
        = Some (buy_date tr)
      ∧ shift_trading_day_with_calendar (ex_date tr) hold_post (map p_date px)
        = Some (sell_date tr)
      ∧ price_on px (buy_date tr) = Some (buy_price tr)
      ∧ price_on px (sell_date tr) = Some (sell_price tr)
      ∧ ∃ n : Z, (1 ≤ n)%Z ∧ shares tr == inject_Z n.

Lemma shares_of_whole alloc_cash buy_px :
  ∃ n : Z, (1 ≤ n)%Z ∧ shares_of alloc_cash buy_px == inject_Z n.
Proof.
  unfold shares_of. set (m := Qfloor (alloc_cash / buy_px)).
  destruct (Q.max_spec 1 (inject_Z m)) as [[Hlt Heq]|[Hle Heq]].
  - exists m. split; [|exact Heq].
    change 1 with (inject_Z 1) in Hlt. rewrite <-Zlt_Qlt in Hlt. lia.
  - exists 1%Z. split; [lia|exact Heq].
Qed.

Lemma process_event_trade
    start_d end_d hold_pre hold_post alloc topk tkr px st drow st' :
  process_event start_d end_d hold_pre hold_post alloc topk tkr px st drow = Ok st' →
  trades st' = trades st
  ∨ ∃ tr, trades st' = trades st ++ [tr]
      ∧ ticker tr = tkr
      ∧ (start_d ≤ ex_date tr ≤ end_d)%Z
      ∧ d_ex_date drow = Some (ex_date tr)
      ∧ dividend_cash tr = d_amount drow * shares tr
      ∧ shift_trading_day_with_calendar (ex_date tr) (- hold_pre) (map p_date px)
        = Some (buy_date tr)
      ∧ shift_trading_day_with_calendar (ex_date tr) hold_post (map p_date px)
        = Some (sell_date tr)
      ∧ price_on px (buy_date tr) = Some (buy_price tr)
      ∧ price_on px (sell_date tr) = Some (sell_price tr)
      ∧ ∃ n : Z, (1 ≤ n)%Z ∧ shares tr == inject_Z n.
Proof.
  unfold process_event.
  destruct (d_ex_date drow) as [exd|]; [|intros [= <-]; by left].
  case_decide; [|intros [= <-]; by left].
  destruct (shift_trading_day_with_calendar exd (- hold_pre) _) as [buy_d|] eqn:Hb;
    [|intros [= <-]; by left].
  destruct (shift_trading_day_with_calendar exd hold_post _) as [sell_d|] eqn:Hs;
    [|intros [= <-]; by left].
  destruct (price_on px buy_d) as [buy_px|] eqn:Hpb; [|done].
  destruct (price_on px sell_d) as [sell_px|] eqn:Hps; [|done].
  destruct (decide_trade _ _ _ _ _ _) as [| |shares cost dc pr] eqn:Hd;
    [intros [= <-]; by left|done|].
  intros [= <-]. right. eexists. split; [done|]. simpl.
  apply decide_trade_Fill in Hd as (-> & _ & -> & _).
  split_and!; try done; try lia. apply shares_of_whole.
Qed.

Lemma process_instruments_invariant_in (P : state → Prop) step tickers : ∀ st st',
  (∀ s t s', t ∈ tickers → P s → step s t = Ok s' → P s') →
  P st → process_instruments step st tickers = Ok st' → P st'.
Proof.
  induction tickers as [|t tickers IH]; intros st st' Hstep HP; simpl.
  - by intros [= <-].
  - destruct (step st t) as [s1|] eqn:H1; [|done].
    apply IH.
    + intros s t' s' Ht'. apply Hstep. by right.
    + eapply Hstep; [left|done..].
Qed.

Lemma process_instrument_cases
    w start_d end_d hold_pre hold_post alloc topk st tkr st' :
  process_instrument w start_d end_d hold_pre hold_post alloc topk st tkr = Ok st' →
  st' = st
  ∨ ∃ px, get_eod_prices w tkr = Ok px ∧ (10 ≤ length px)%nat
      ∧ process_events
          (process_event start_d end_d hold_pre hold_post alloc topk tkr px)
          st (dividend_history w tkr) = Ok st'.
Proof.
  unfold process_instrument.
  destruct (dividend_history w tkr) as [|d0 rows] eqn:Hdiv;
    [intros [= <-]; by left|].
  destruct (get_eod_prices w tkr) as [px|] eqn:Hpx; [|done].
  case_decide; [intros [= <-]; by left|].
  intros Hrun. right. exists px. split_and!; [done|lia|done].
Qed.

(** X18. Every trade of a completed simulation comes from the data of
    its own instrument: the instrument has at least ten price rows, the
    ex-date is that of a row of its dividend history and lies in the
    back-test window, the buy and sell dates are the two shifts of the
    ex-date along the dates of its price rows, the prices are the
    adjusted closes on those dates, the dividend cash is the row's
    amount times the shares, and the number of shares is a whole number
    that is at least 1. *)
Theorem trades_come_from_the_data
    w ranked start_d end_d initial_cash hold_pre hold_post alloc topk st :
  simulate_rotation w ranked start_d end_d initial_cash hold_pre hold_post
                    alloc topk = Ok st →
  Forall (λ tr,
    (∃ r, r ∈ ranked ∧ ticker tr = Scorer.ticker (Scorer.cand r))
    ∧ trade_from_data w start_d end_d hold_pre hold_post tr) (trades st).
Proof.
  unfold simulate_rotation. intros Hrun.
  set (ok := λ tr,
    (∃ r, r ∈ ranked ∧ ticker tr = Scorer.ticker (Scorer.cand r))
    ∧ trade_from_data w start_d end_d hold_pre hold_post tr).
  eapply (process_instruments_invariant_in (λ s, Forall ok (trades s)))
    in Hrun; [done| |by constructor].
  intros s t s' Ht Hs [->|(px & Hpx & Hlen & Hev)]%process_instrument_cases;
    [done|].
  apply list_elem_of_fmap in Ht as (r & -> & Hr).
  eapply (process_events_invariant (λ s, Forall ok (trades s)) _ _ s s');
    [|exact Hs|exact Hev].
  intros s0 d s0' Hd Hall [->|Htr]%process_event_trade; [done|].
  destruct Htr as (tr & -> & Htk & Hwin & Hex & Hdc & Hb & Hsell & Hpb & Hps & Hn).
  apply Forall_app. split; [done|]. apply Forall_singleton. split.
  - exists r. by rewrite Htk.
  - split; [done|]. exists px, d. rewrite Htk. by split_and!.
Qed.

Lemma trades_come_from_the_data_witness :
  ∃ st tr,
    simulate_rotation sample_world sample_ranked 739000%Z 739200%Z
                      1000 2%Z 1%Z 0.5 10%Z = Ok st
    ∧ trades st = [tr]
    ∧ trade_from_data sample_world 739000%Z 739200%Z 2%Z 1%Z tr.
Proof.
  eexists _, _. split; [vm_compute; reflexivity|]. split; [reflexivity|].
  pose proof (trades_come_from_the_data sample_world sample_ranked
                739000%Z 739200%Z 1000 2%Z 1%Z 0.5 10%Z _ eq_refl) as Hall.
  apply Forall_cons in Hall as [[_ Htr] _]. exact Htr.
Defined.

(** X19. A buy price of zero stops the run: for an event whose dates
    and prices resolve, with a positive allocation, dividing the
    allocation by a zero adjusted close raises [ZeroDivisionError], and
    the exception leaves the loop over the instrument's events. *)
Theorem zero_buy_price_raises
    start_d end_d hold_pre hold_post alloc topk tkr px st drow
    exd buy_d sell_d buy_px sell_px :
  d_ex_date drow = Some exd → (start_d ≤ exd ≤ end_d)%Z →
  shift_trading_day_with_calendar exd (- hold_pre) (map p_date px) = Some buy_d →
  shift_trading_day_with_calendar exd hold_post (map p_date px) = Some sell_d →
  price_on px buy_d = Some buy_px → price_on px sell_d = Some sell_px →
  buy_px == 0 →
  0 < cash st * alloc / inject_Z (Z.max 1 topk) →
  process_event start_d end_d hold_pre hold_post alloc topk tkr px st drow
  = Raise ZeroDivisionError
  ∧ ∀ rows,
      process_events
        (process_event start_d end_d hold_pre hold_post alloc topk tkr px)
        st (drow :: rows) = Raise ZeroDivisionError.
Proof.
  intros Hex Hwin Hb Hs Hpb Hps Hzero Hpos.
  assert (process_event start_d end_d hold_pre hold_post alloc topk tkr px st drow
          = Raise ZeroDivisionError) as Hraise.
  { unfold process_event. rewrite Hex. rewrite decide_True by done.
    rewrite Hb, Hs, Hpb, Hps.
    assert (decide_trade (cash st) alloc topk buy_px sell_px (d_amount drow)
            = DivisionByZero) as ->; [|done].
    apply decide_trade_DivisionByZero. split; [|done].
    unfold alloc_cash_of.
    pose proof (Q.le_max_r 0 (cash st * alloc / inject_Z (Z.max 1 topk))). lra. }
  split; [done|]. intros rows. simpl. by rewrite Hraise.
Qed.

Lemma zero_buy_price_raises_witness :
  let px := map (λ d, mkPrice d (if decide (d = 739111%Z) then 0 else 80))
                [739103; 739104; 739105; 739106; 739107; 739110;
                 739111; 739112; 739113; 739114; 739117; 739118]%Z in
  process_event 739000%Z 739200%Z 2%Z 1%Z 0.5 10%Z "AAA.US" px
                (init_state 1000) (mkDiv (Some 739113%Z) 0.5)
  = Raise ZeroDivisionError.
Proof.
  intros px.
  apply (zero_buy_price_raises 739000%Z 739200%Z 2%Z 1%Z 0.5 10%Z "AAA.US" px
           (init_state 1000) (mkDiv (Some 739113%Z) 0.5)
           739113%Z 739111%Z 739114%Z 0 80);
    try (vm_compute; reflexivity); lia.
Defined.

(** The equity curve against the trade log: one point per trade, dated
    at the trade's sell date and worth the initial cash plus the profit
    of the trades so far. *)
Definition curve_follows_trades (initial_cash : Q) (st : state) : Prop :=
  length (equity_curve st) = length (trades st)
  ∧ ∀ k tr, trades st !! k = Some tr →
      ∃ value, equity_curve st !! k = Some (sell_date tr, value)
        ∧ value == initial_cash + total_pnl (take (S k) (trades st)).

Lemma process_event_curve c0
    start_d end_d hold_pre hold_post alloc topk tkr px st drow st' :
  books_balance c0 st ∧ curve_follows_trades c0 st →
  process_event start_d end_d hold_pre hold_post alloc topk tkr px st drow = Ok st' →
  books_balance c0 st' ∧ curve_follows_trades c0 st'.
Proof.
  intros [Hbooks Hcurve] Hev. split; [by eapply process_event_books_balance|].
  pose proof (process_event_books_balance _ _ _ _ _ _ _ _ _ _ _ _ Hbooks Hev)
    as [_ Hcash'].
  apply process_event_Ok in Hev as [->|Hfill]; [done|].
  destruct Hfill as (exd & buy_d & sell_d & buy_px & sell_px & shares & cost
                     & dc & pr & _ & _ & _ & _ & ->).
  destruct Hcurve as [Hlen Hpts]. simpl in Hcash'. split; simpl.
  - rewrite !length_app, Hlen. done.
  - intros k tr Hk. apply lookup_app_Some in Hk as [Hk|[Hge Hk]].
    + destruct (Hpts k tr Hk) as (v & Hv & Heq). exists v.
      split; [by apply lookup_app_l_Some|].
      rewrite take_app_le; [done|]. apply lookup_lt_Some in Hk. lia.
    + destruct (k - length (trades st))%nat as [|n] eqn:Hkn; [|done].
      injection Hk as <-. simpl.
      assert (k = length (trades st)) as -> by lia.
      eexists. split; [apply list_lookup_middle; lia|].
      rewrite take_ge by (rewrite length_app; simpl; lia). exact Hcash'.
Qed.

(** X20. The raw equity curve of a completed simulation follows the
    trade log: it has one point per trade, in the same order, dated at
    the trade's sell date, and its value is the initial cash plus the
    [pnl] of all trades up to and including that one. *)
Theorem equity_curve_follows_trades
    w ranked start_d end_d initial_cash hold_pre hold_post alloc topk st :
  simulate_rotation w ranked start_d end_d initial_cash hold_pre hold_post
                    alloc topk = Ok st →
  length (equity_curve st) = length (trades st)
  ∧ ∀ k tr, trades st !! k = Some tr →
      ∃ value, equity_curve st !! k = Some (sell_date tr, value)
        ∧ value == initial_cash + total_pnl (take (S k) (trades st)).
Proof.
  unfold simulate_rotation. intros Hrun.
  eapply (process_instruments_invariant
            (λ s, books_balance initial_cash s
                  ∧ curve_follows_trades initial_cash s)) in Hrun
    as [_ Hcurve]; [exact Hcurve| |].
  - intros s t s' Hs.
    apply (process_instrument_invariant
             (λ s, books_balance initial_cash s
                   ∧ curve_follows_trades initial_cash s)); [|done].
    intros px s0 d s0' _ _. apply process_event_curve.
  - split; [split; simpl; [constructor|ring]|].
    split; [done|]. intros k tr Hk. simpl in Hk. by rewrite lookup_nil in Hk.
Qed.

Lemma equity_curve_follows_trades_witness :
  ∃ st,
    simulate_rotation sample_world sample_ranked 739000%Z 739200%Z
                      1000 2%Z 1%Z 0.5 10%Z = Ok st
    ∧ length (equity_curve st) = length (trades st)
    ∧ equity_curve st = [(739114%Z, 1001.5)].
Proof.
  eexists. split; [vm_compute; reflexivity|]. split; [|reflexivity].
  eapply (equity_curve_follows_trades sample_world sample_ranked
            739000%Z 739200%Z 1000 2%Z 1%Z 0.5 10%Z).
  vm_compute. reflexivity.
Defined.

End SimulatorLaws.

(** ** The forward plan: order, provenance and the fall-back rows *)

Section PlannerLaws.
Import Gateway Calendar Planner.

(** The order of the plan: by ex-date, then by ticker, rows without a
    date last. *)
Definition plan_le (p q : plan_row) : Prop :=
  key_le (ex_date p) (ticker p) (ex_date q) (ticker q).

Lemma Sorted_Forall2 {A B} (R : relation A) (R' : relation B)
    (P : A → B → Prop) l k :
  (∀ x y x' y', P x x' → P y y' → R x y → R' x' y') →
  Forall2 P l k → Sorted R l → Sorted R' k.
Proof.
  intros HR. induction 1 as [|x x' l k Hx Hall IH]; intros Hs; [constructor|].
  apply Sorted_inv in Hs as [Hs Hhd]. constructor; [by apply IH|].
  destruct Hall as [|y y' l k Hy _]; [constructor|].
  apply HdRel_inv in Hhd. constructor. by eapply HR.
Qed.

(** X21. The rows of the plan are in ascending order of ex-date, and of
    ticker among rows with the same ex-date. *)
Theorem plan_is_sorted w ranked hold_pre hold_post la plan :
  build_forward_plan w ranked hold_pre hold_post la = Ok plan →
  Sorted plan_le plan.
Proof.
  intros [[_ ->]|[_ Hall]]%build_forward_plan_Ok; [constructor|].
  eapply Sorted_Forall2; [|exact Hall|apply sort_values_Sorted].
  intros x y x' y' (Ht & _ & Hd & _)%plan_of_Ok (Ht' & _ & Hd' & _)%plan_of_Ok.
  unfold plan_le, event_le. by rewrite Ht, Hd, Ht', Hd'.
Qed.

Lemma plan_is_sorted_witness :
  ∃ p q,
    build_forward_plan two_event_world sample_ranked 2 1 90 = Ok [p; q]
    ∧ ex_date p = Some 739927 ∧ ex_date q = Some 739930
    ∧ plan_le p q.
Proof.
  assert (∃ p q,
    build_forward_plan two_event_world sample_ranked 2 1 90 = Ok [p; q]
    ∧ ex_date p = Some 739927 ∧ ex_date q = Some 739930) as (p & q & Hp & Hx & Hy).
  { eexists _, _. split; [vm_compute; reflexivity|]. split; reflexivity. }
  exists p, q. split_and!; [done..|].
  pose proof (plan_is_sorted two_event_world sample_ranked 2 1 90 [p; q] Hp) as Hs.
  apply Sorted_inv in Hs as [_ Hhd]. by apply HdRel_inv in Hhd.
Defined.

Lemma api_events_elem_of w row d :
  d ∈ api_events w row →
  ∃ events,
    outcome (_get (token w) (div_http w (Scorer.ticker (Scorer.cand row))))
    = Ok (JList events) ∧ d ∈ events.
Proof.
  unfold api_events. destruct (outcome _) as [[events|]|];
    [|by intros ?%elem_of_nil..].
  intros Hd. by exists events.
Qed.

(** X22. Every row of the plan belongs to a ranked instrument, whose
    ticker and name it carries; a row that does not come from the
    dividend request of its instrument has the ex-date of the ranked
    frame, which lies between today and the end of the look-ahead
    window. *)
Theorem plan_rows_come_from_ranked w ranked hold_pre hold_post la plan :
  build_forward_plan w ranked hold_pre hold_post la = Ok plan →
  Forall (λ p,
    ∃ row, row ∈ ranked
      ∧ ticker p = Scorer.ticker (Scorer.cand row)
      ∧ name p = Scorer.name (Scorer.cand row)
      ∧ ((∃ events d,
            outcome (_get (token w) (div_http w (ticker p))) = Ok (JList events)
            ∧ d ∈ events ∧ ex_date p = de_date d)
         ∨ (∃ x, ex_date p = Some x
              ∧ Scorer.ex_date (Scorer.cand row) = Some x
              ∧ today w ≤ x ≤ today w + la)))
    plan.
Proof.
  intros Hplan. apply Forall_forall. intros p Hp.
  destruct (build_forward_plan_elem_of _ _ _ _ _ _ _ Hplan Hp)
    as (e & (row & Hrow & He)%all_future_events_elem_of
          & (Ht & Hn & Hd & _)%plan_of_Ok).
  apply future_events_of_origin in He as (Ht' & Hn' & _ & Hsrc).
  exists row. split_and!; [done|congruence|congruence|].
  destruct Hsrc as [(d & Hin & Hdate & _)|(_ & _ & _ & x & Hx & Hex & Hwin)].
  - left. apply api_events_elem_of in Hin as (events & Hout & Hin).
    exists events, d. rewrite Ht, Ht', Hd. done.
  - right. exists x. rewrite Hd. done.
Qed.

Lemma plan_rows_come_from_ranked_witness :
  ∃ p, build_forward_plan weekend_world sample_ranked 2 1 90 = Ok [p]
       ∧ ticker p = "AAA.US" ∧ name p = "Fund A".
Proof.
  assert (∃ p, build_forward_plan weekend_world sample_ranked 2 1 90 = Ok [p])
    as [p Hp].
  { eexists. vm_compute. reflexivity. }
  exists p. split; [exact Hp|].
  pose proof (plan_rows_come_from_ranked weekend_world sample_ranked 2 1 90
                [p] Hp) as Hall.
  apply (proj1 (Forall_singleton _ _)) in Hall as (row & Hrow & Ht & Hn & _).
  apply list_elem_of_singleton in Hrow as ->. by split.
Defined.

Lemma existsb_none {A} (f : A → bool) (l : list A) :
  (∀ x, x ∈ l → f x = false) → existsb f l = false.
Proof.
  induction l as [|x l IH]; intros Hall; simpl; [done|].
  rewrite (Hall x) by left. apply IH. intros y Hy. apply Hall. by right.
Qed.

(** X23. When no dividend request of a ranked instrument returns
    events, the plan is returned and every row of it is built from the
    ranked frame; since such rows have no ["value"] key the plan shows
    the amount 0, the currency USD and an estimated gain of 0 for each
    of them. *)
Theorem fallback_plan_shows_no_gain w ranked hold_pre hold_post la :
  (∀ row e events, row ∈ ranked →
     outcome (_get (token w) (div_http w (Scorer.ticker (Scorer.cand row))))
     ≠ Ok (JList (e :: events))) →
  ∃ plan,
    build_forward_plan w ranked hold_pre hold_post la = Ok plan
    ∧ Forall (λ p, amount p = Some 0%Q ∧ currency p = Some "USD"
                   ∧ estimated_pct_gain p = 0%Q) plan.
Proof.
  intros Hnone.
  assert (∀ row, row ∈ ranked → api_events w row = []) as Hapi.
  { intros row Hrow. unfold api_events.
    destruct (outcome _) as [[[|e events]|]|] eqn:Hout; try done.
    by destruct (Hnone row e events Hrow). }
  assert (∀ e, e ∈ all_future_events w ranked la →
               fe_value e = None ∧ fe_currency e = None
               ∧ is_Some (fe_date e)) as Hfb.
  { intros e (row & Hrow & He)%all_future_events_elem_of.
    apply future_events_of_origin in He as (_ & _ & _ & Hsrc).
    destruct Hsrc as [(d & Hd & _)|(_ & ? & ? & x & ? & _)]; [|by eauto].
    rewrite (Hapi row Hrow) in Hd. by apply elem_of_nil in Hd. }
  destruct (build_forward_plan_dated w ranked hold_pre hold_post la)
    as [plan Hplan].
  { apply Forall_forall. intros e He. by destruct (Hfb e He) as (_ & _ & ?). }
  exists plan. split; [done|].
  apply Forall_forall. intros p Hp.
  destruct (build_forward_plan_elem_of _ _ _ _ _ _ _ Hplan Hp)
    as (e & He & (_ & _ & _ & Ha & Hcur & Hg & _)%plan_of_Ok).
  destruct (Hfb e He) as (Hv & Hc & _).
  assert (column_get fe_value 0%Q (all_future_events w ranked la) e = Some 0%Q)
    as Hcol.
  { unfold column_get. rewrite Hv, existsb_none; [done|].
    intros x Hx. destruct (Hfb x Hx) as (-> & _). done. }
  assert (column_get fe_currency "USD" (all_future_events w ranked la) e
          = Some "USD") as Hcol'.
  { unfold column_get. rewrite Hc, existsb_none; [done|].
    intros x Hx. destruct (Hfb x Hx) as (_ & -> & _). done. }
  rewrite Hcol in Ha. rewrite Hcol' in Hcur. rewrite Ha in Hg.
  split_and!; [done..|].
  rewrite Hg. unfold estimated_gain. by rewrite andb_false_r.
Qed.

Lemma fallback_plan_shows_no_gain_witness :
  let w := Planner.mkWorld "token" 739924
             (λ _, Raised RequestException) (λ _ _, Raised RequestException) in
  let ranked :=
    [Scorer.mkScored
       (Scorer.mkCandidate "SCHD.US" "Schwab US Dividend Equity ETF"
                           3500000 0.038 94 (Some 739935)) 0 1 1 1 1] in
  ∃ p, build_forward_plan w ranked 2 1 90 = Ok [p]
       ∧ amount p = Some 0%Q ∧ estimated_pct_gain p = 0%Q.
Proof.
  intros w ranked.
  assert (∃ p, build_forward_plan w ranked 2 1 90 = Ok [p]) as [p Hp].
  { eexists. vm_compute. reflexivity. }
  exists p. split; [exact Hp|].
  destruct (fallback_plan_shows_no_gain w ranked 2 1 90) as (plan & Hplan & Hall).
  - intros row e events _. vm_compute. discriminate.
  - rewrite Hp in Hplan. injection Hplan as <-.
    apply (proj1 (Forall_singleton _ _)) in Hall as (Ha & _ & Hg). by split.
Defined.

Lemma shift_offset_lt d k1 k2 (cal : list date) x1 x2 :
  NoDup cal → k1 < k2 →
  shift_trading_day_with_calendar d k1 cal = Some x1 →
  shift_trading_day_with_calendar d k2 cal = Some x2 →
  x1 < x2.
Proof.
  intros Hnd Hk (b & idx & Hb & Hi & Hk1 & H1)%shift_Some
               (b' & idx' & Hb' & Hi' & Hk2 & H2)%shift_Some.
  assert (b' = b) as -> by congruence.
  assert (idx' = idx) as -> by congruence.
  eapply (strongly_lookup_lt (sorted cal));
    [apply sorted_strongly|by apply sorted_NoDup| |done..].
  lia.
Qed.

(** X24. In every row of the plan whose two dates resolved, with
    holding offsets that are not negative, the planned buy date is not
    after the planned sell date, and it is strictly before it unless
    both offsets are zero; this holds also for an ex-date that is not a
    trading day. *)
Theorem plan_buy_not_after_sell w ranked hold_pre hold_post la plan :
  0 ≤ hold_pre → 0 ≤ hold_post →
  build_forward_plan w ranked hold_pre hold_post la = Ok plan →
  Forall (λ p, ∀ b s,
    plan_buy_date p = Some b → plan_sell_date p = Some s →
    b ≤ s ∧ (0 < hold_pre + hold_post → b < s))
    plan.
Proof.
  intros Hpre Hpost Hplan. apply Forall_forall. intros p Hp b s Hb Hs.
  destruct (build_forward_plan_elem_of _ _ _ _ _ _ _ Hplan Hp)
    as (r & _ & (_ & _ & _ & _ & _ & _ & _ & Hshift)%plan_of_Ok).
  destruct (fe_date r) as [exd|]; [|destruct Hshift as (_ & ? & _); congruence].
  destruct Hshift as [Hb' Hs']. rewrite Hb in Hb'. rewrite Hs in Hs'.
  symmetry in Hb', Hs'.
  split.
  - eapply shift_offset_le; [|exact Hb'|exact Hs']. lia.
  - intros Hpos. eapply shift_offset_lt; [|
      |exact Hb'|exact Hs']; [apply build_trading_calendar_NoDup|lia].
Qed.

Lemma plan_buy_not_after_sell_witness :
  ∃ p b s,
    build_forward_plan weekend_world sample_ranked 2 0 90 = Ok [p]
    ∧ plan_buy_date p = Some b ∧ plan_sell_date p = Some s
    ∧ b < s.
Proof.
  assert (∃ p, build_forward_plan weekend_world sample_ranked 2 0 90 = Ok [p]
               ∧ plan_buy_date p = Some 739924
               ∧ plan_sell_date p = Some 739926) as (p & Hp & Hb & Hs).
  { eexists. split; [vm_compute; reflexivity|]. split; reflexivity. }
  exists p, 739924, 739926. split_and!; [done..|].
  pose proof (plan_buy_not_after_sell weekend_world sample_ranked 2 0 90 [p]
                ltac:(lia) ltac:(lia) Hp) as Hall.
  apply (proj1 (Forall_singleton _ _)) in Hall.
  destruct (Hall _ _ Hb Hs) as [_ Hlt]. apply Hlt. lia.
Defined.

End PlannerLaws.

(** ** Returns of the equity curve *)

Section ReportLaws.
Import Report.
Local Open Scope Q_scope.

Lemma cumprod_pct_change rest : ∀ prev a t e,
  ¬ prev == 0 → Forall (λ x, ¬ x == 0) rest →
  rest !! t = Some e →
  ∃ c, cumprod_from (Some a)
         (map (fmap (λ r, 1 + r)) (pct_change_from prev rest)) !! t
       = Some (Some c)
       ∧ c == a * e / prev.
Proof.
  induction rest as [|e1 rest IH]; intros prev a t e Hprev Hall Ht;
    [by rewrite lookup_nil in Ht|].
  apply Forall_cons in Hall as [He1 Hall]. simpl.
  destruct (Qeq_bool prev 0) eqn:Hq; [by apply Qeq_bool_iff in Hq|]. simpl.
  destruct t as [|t]; simpl in *.
  - injection Ht as ->. eexists. split; [done|]. field. done.
  - destruct (IH e1 (a * (1 + (e1 / prev - 1))) t e He1 Hall Ht) as (c & Hc & Heq).
    exists c. split; [done|]. rewrite Heq. field. by split.
Qed.

(** X25. On a consolidated equity column without a zero entry, the
    return and the cumulative return of every row are finite numbers;
    the first return is 0, and the cumulative return of a row is its
    equity divided by the first equity, minus 1: it is measured from
    the first point of the curve, which is the cash after the first
    closed trade. *)
Theorem cum_return_telescopes (e0 : Q) (rest : list Q) t e :
  Forall (λ x, ¬ x == 0) (e0 :: rest) →
  (e0 :: rest) !! t = Some e →
  head (returns (e0 :: rest)) = Some (Some 0)
  ∧ ∃ c, cum_return (returns (e0 :: rest)) !! t = Some (Some c)
         ∧ c == e / e0 - 1.
Proof.
  intros [He0 Hall]%Forall_cons Ht. split; [done|].
  unfold cum_return, returns. simpl.
  destruct t as [|t]; simpl in *.
  - injection Ht as <-. eexists. split; [done|]. field. done.
  - destruct (cumprod_pct_change rest e0 (1 * (1 + 0)) t e He0 Hall Ht)
      as (c & Hc & Heq).
    exists (c - 1). rewrite list_lookup_fmap, Hc. split; [done|].
    rewrite Heq. field. done.
Qed.

Lemma cum_return_telescopes_witness :
  ∃ c, cum_return (returns [1001.5; 1010; 1005]) !! 2%nat = Some (Some c)
       ∧ c == 1005 / 1001.5 - 1.
Proof.
  destruct (cum_return_telescopes 1001.5 [1010; 1005] 2 1005) as (_ & c & Hc & Heq).
  - repeat constructor; intros H; vm_compute in H; discriminate.
  - reflexivity.
  - by exists c.
Defined.

End ReportLaws.
